(** * Chunked transcription and map-reduce summarisation: a shallow embedding

    The development follows three source files of the repository:
    - [src/summarize_text.py]: [split_text_into_chunks], [summarize_chunk],
      [summarize_text];
    - [src/transcribe_audio.py]: [split_audio_file], [transcribe_chunk],
      [merge_transcription_results], [estimate_transcription_time] and
      [transcribe_audio];
    - [src/chat_completion.py]: [chat_completion] and
      [chat_completion_simple].

    Conventions of the embedding:
    - a Python [str] is a list of Unicode code points ([text]), so that [len],
      slices and [rfind] count what Python counts;
    - a Python [int] is a [Z];
    - a Python [float] holding seconds is a rational [Q]. The arithmetic
      of [TranscribeAudio] is exact; [Rounded] is the chunker with every
      operation rounded to the nearest binary64 number ([Binary64]);
    - a call that may raise returns an [Outcome];
    - a [while] loop takes fuel and answers [None] when it runs out;
    - the order in which a thread pool completes its futures is an argument
      (a list of submission indices). *)

From Stdlib Require Import ZArith QArith Qround Qminmax Qpower Lqa Lia List String.
From Stdlib Require Import Sorted Permutation.
From stdpp Require Import gmap list.
Import ListNotations.
Open Scope Z_scope.

(** ** Python values shared by both files *)

Module Py.

(** A [str]: the sequence of its code points. *)
Definition char := Z.
Definition text := list char.

(** [bool(l)] on a list: true when it has an element. *)
Definition nonempty {A} (l : list A) : bool :=
  match l with
  | [] => false
  | _ :: _ => true
  end.

(** [len(l)], for strings and lists alike. *)
Definition len {A} (l : list A) : Z := Z.of_nat (length l).

(** [not t]: a string is falsy when it is empty. *)
Definition is_empty (t : text) : bool :=
  match t with
  | [] => true
  | _ :: _ => false
  end.

(** [str.isspace] on one code point (CPython's [_PyUnicode_IsWhitespace]):
    what [str.strip()] removes. *)
Definition is_space (c : char) : bool :=
  ((9 <=? c) && (c <=? 13)) || ((28 <=? c) && (c <=? 32))
  || (c =? 133) || (c =? 160) || (c =? 5760)
  || ((8192 <=? c) && (c <=? 8202))
  || (c =? 8232) || (c =? 8233) || (c =? 8239) || (c =? 8287) || (c =? 12288).

Fixpoint lstrip (t : text) : text :=
  match t with
  | [] => []
  | c :: t' => if is_space c then lstrip t' else t
  end.

Definition rstrip (t : text) : text := rev (lstrip (rev t)).

(** [t.strip()] *)
Definition strip (t : text) : text := rstrip (lstrip t).

(** A slice bound clipped to [0, n], negative bounds counting from the end. *)
Definition adjust_index (i n : Z) : Z :=
  if i <? 0 then Z.max (i + n) 0 else Z.min i n.

(** [t[start:stop]] *)
Definition slice (t : text) (start stop : Z) : text :=
  let s := adjust_index start (len t) in
  let e := adjust_index stop (len t) in
  firstn (Z.to_nat (e - s)) (skipn (Z.to_nat s) t).

Fixpoint starts_with (sub t : text) : bool :=
  match sub, t with
  | [], _ => true
  | _ :: _, [] => false
  | a :: sub', b :: t' => (a =? b) && starts_with sub' t'
  end.

(** Highest position in [lo, lo + n) at which [sub] occurs in [t], scanning
    downwards; [-1] when there is none. *)
Fixpoint rfind_down (t sub : text) (lo : Z) (n : nat) : Z :=
  match n with
  | O => -1
  | S n' =>
      let i := lo + Z.of_nat n' in
      if starts_with sub (skipn (Z.to_nat i) t) then i
      else rfind_down t sub lo n'
  end.

(** [t.rfind(sub, start, stop)]: the highest index [i] with
    [t[i:i+len(sub)] == sub] and [start <= i], [i + len(sub) <= stop];
    a negative [start] counts from the end, a large one is kept as it is. *)
Definition rfind (t sub : text) (start stop : Z) : Z :=
  let s := if start <? 0 then Z.max (start + len t) 0 else start in
  let e := adjust_index stop (len t) in
  rfind_down t sub s (Z.to_nat (e - len sub - s + 1)).

(** [sep.join(parts)] *)
Fixpoint join (sep : text) (parts : list text) : text :=
  match parts with
  | [] => []
  | [p] => p
  | p :: rest => p ++ sep ++ join sep rest
  end.

(** [str(n)] for a non-negative [int]: its decimal digits. *)
Fixpoint digits (fuel : nat) (n : Z) (acc : text) : text :=
  match fuel with
  | O => acc
  | S fuel' =>
      let acc' := (48 + n mod 10) :: acc in
      if n <? 10 then acc' else digits fuel' (n / 10) acc'
  end.

Definition str_of_int (n : Z) : text :=
  if n <? 0 then 45 :: digits (S (Z.to_nat (Z.log2 (- n)))) (- n) []
  else digits (S (Z.to_nat (Z.log2 n))) n [].

(** Exceptions: the class that matters to the callers and [str(e)]. *)
Inductive exn : Type :=
  | ValueError (msg : text)
  | KeyError (msg : text)
  | Exception (msg : text).

Definition str_of_exn (e : exn) : text :=
  match e with
  | ValueError msg => msg
  | KeyError msg => msg
  | Exception msg => msg
  end.

(** An ASCII literal as a [text]. *)
Definition str (s : string) : text :=
  map (fun a => Z.of_nat (Ascii.nat_of_ascii a)) (list_ascii_of_string s).

(** The result of a call: a value or a raised exception. *)
Inductive Outcome (A : Type) : Type :=
  | Returned (a : A)
  | Raised (e : exn).
Arguments Returned {A} a.
Arguments Raised {A} e.

Definition bind {A B} (o : Outcome A) (k : A -> Outcome B) : Outcome B :=
  match o with
  | Returned a => k a
  | Raised e => Raised e
  end.

(** [try: body  except Exception as e: handler(e)] *)
Definition try_except {A} (body : Outcome A) (handler : exn -> Outcome A)
  : Outcome A :=
  match body with
  | Returned a => Returned a
  | Raised e => handler e
  end.

End Py.

Notation "'do' x <- o ; k" := (Py.bind o (fun x => k))
  (at level 10, x name, o at level 100, k at level 200).

(** ** [src/summarize_text.py] *)

Module SummarizeText.
Import Py.

(** The separators tried in turn, best first: an ideographic full stop
    followed by a newline, the same followed by a space, a blank line, an
    ideographic full stop, a fullwidth exclamation mark, a fullwidth question
    mark, a newline. *)
Definition separators : list text :=
  [ [12290; 10]; [12290; 32]; [10; 10]; [12290]; [65281]; [65311]; [10] ].

(** The [for separator in ...] loop: the first separator found in
    [text[start:end]] moves [end] just after its last occurrence. *)
Fixpoint find_break (seps : list text) (t : text) (start end_ : Z) : Z :=
  match seps with
  | [] => end_
  | separator :: seps' =>
      let last_sep := rfind t separator start end_ in
      if last_sep =? -1 then find_break seps' t start end_
      else last_sep + len separator
  end.

Definition chunk_end (t : text) (chunk_size start : Z) : Z :=
  let end_ := Z.min (start + chunk_size) (len t) in
  if end_ <? len t then find_break separators t start end_ else end_.

(** [start = max(end - chunk_overlap, start + 1)] *)
Definition next_start (start end_ chunk_overlap : Z) : Z :=
  Z.max (end_ - chunk_overlap) (start + 1).

(** [chunks.append(chunk)] under [if chunk:] *)
Definition append_chunk (chunks : list text) (chunk : text) : list text :=
  match chunk with
  | [] => chunks
  | _ :: _ => chunks ++ [chunk]
  end.

(** The [while start < text_length] loop; [None] when the fuel runs out
    before the loop condition fails. *)
Fixpoint split_loop (fuel : nat) (t : text) (chunk_size chunk_overlap : Z)
    (start : Z) (chunks : list text) : option (list text) :=
  if start <? len t then
    match fuel with
    | O => None
    | S fuel' =>
        let end_ := chunk_end t chunk_size start in
        let chunk := strip (slice t start end_) in
        split_loop fuel' t chunk_size chunk_overlap
          (next_start start end_ chunk_overlap) (append_chunk chunks chunk)
    end
  else Some chunks.

Definition split_text_into_chunks_fuel (fuel : nat) (t : text)
    (chunk_size chunk_overlap : Z) : option (list text) :=
  match t with
  | [] => Some []
  | _ :: _ => split_loop fuel t chunk_size chunk_overlap 0 []
  end.

(** [split_text_into_chunks(text, chunk_size, chunk_overlap)]: one unit of
    fuel per character is enough ([split_loop_fuel] below). *)
Definition split_text_into_chunks (t : text) (chunk_size chunk_overlap : Z)
  : list text :=
  default [] (split_text_into_chunks_fuel (length t) t chunk_size chunk_overlap).

(** A chunk that is neither empty nor blank. *)
Definition solid (chunk : text) : Prop :=
  chunk <> [] /\ forallb is_space chunk = false.

(** *** The language-model calls *)

(** The keyword arguments of one [chat_completion_simple] call. *)
Record ChatCall : Type := {
  cc_prompt : text;
  cc_api_key : text;
  cc_model : text;
  cc_system_prompt : text;
  cc_temperature : Q;
  cc_max_tokens : Z
}.

(** The wording of the four f-string templates is left open; their holes
    are the arguments. *)
Record Prompts : Type := {
  chunk_system_prompt : text -> text;          (* language *)
  chunk_prompt : Z -> Z -> text -> text;       (* chunk_index, total_chunks, chunk *)
  final_system_prompt : text -> text;          (* language *)
  final_prompt : text -> text                  (* combined_summaries *)
}.

(** ["[" + a four-character label meaning "summary failed" + ": "], closed
    by ["]"] after [str(e)]. *)
Definition summary_failed (e : exn) : text :=
  [91; 32317; 32080; 22833; 25943; 58; 32] ++ str_of_exn e ++ [93].

(** Message of the [ValueError] raised when no API key is found. *)
Definition msg_no_api_key : text :=
  [35531; 25552; 20379; 32; 65; 80; 73; 32; 23494; 38000; 25110; 35373; 32622;
   29872; 22659; 35722; 37327; 32; 65; 80; 73; 95; 75; 69; 89; 95; 51; 48; 50;
   95; 65; 73; 32; 25110; 32; 79; 80; 69; 78; 65; 73; 95; 65; 80; 73; 95; 75;
   69; 89].

(** Message of the [ValueError] raised on an empty or blank text. *)
Definition msg_empty_text : text :=
  [25991; 26412; 19981; 33021; 28858; 31354].

(** Message of the [ValueError] raised when splitting produced no chunk. *)
Definition msg_no_chunks : text :=
  [25991; 26412; 20998; 22602; 22833; 25943; 65292; 26410; 29983; 25104;
   20219; 20309; 22602].

(** Prefix of the [Exception] raised when the final call fails. *)
Definition msg_final_failed : text :=
  [29983; 25104; 26368; 32066; 32317; 32080; 26178; 30332; 29983; 37679;
   35492; 58; 32].

(** Message of the [ValueError] of [ThreadPoolExecutor(max_workers=n)] for
    [n <= 0]: "max_workers must be greater than 0". *)
Definition msg_max_workers : text :=
  str "max_workers must be greater than 0".

(** [x or y] on two [Optional[str]]: [x] when it is a non-empty string. *)
Definition py_or (x y : option text) : option text :=
  match x with
  | Some (_ :: _) => x
  | _ => y
  end.

(** [enumerate(l, start)] *)
Fixpoint enumerate {A} (l : list A) (start : Z) : list (Z * A) :=
  match l with
  | [] => []
  | a :: l' => (start, a) :: enumerate l' (start + 1)
  end.

(** The header of one chunk summary in the combined document, and the
    document: [sep.join([header(i) + summary ...])] over
    [enumerate(chunk_summaries)]. *)
Definition summary_entry (p : Z * text) : text :=
  [31532; 32] ++ str_of_int (fst p + 1)
  ++ [32; 22602; 32317; 32080; 65306; 10] ++ snd p.

Definition combined_summaries (chunk_summaries : list text) : text :=
  join [10; 10] (map summary_entry (enumerate chunk_summaries 0)).

Section Services.

(** The remote completion service, the templates and the two environment
    variables read by [os.getenv]. *)
Variable chat_completion_simple : ChatCall -> Outcome text.
Variable prompts : Prompts.
Variable getenv_API_KEY_302_AI getenv_OPENAI_API_KEY : option text.

Definition chunk_call (chunk : text) (chunk_index total_chunks : Z)
    (api_key model language : text) : ChatCall :=
  {| cc_prompt := chunk_prompt prompts chunk_index total_chunks chunk;
     cc_api_key := api_key;
     cc_model := model;
     cc_system_prompt := chunk_system_prompt prompts language;
     cc_temperature := 3 # 10;
     cc_max_tokens := 8000 |}.

(** [summarize_chunk]: the call under [try], the placeholder under
    [except Exception as e]. *)
Definition summarize_chunk (chunk : text) (chunk_index total_chunks : Z)
    (api_key model language : text) : Outcome text :=
  try_except
    (chat_completion_simple
       (chunk_call chunk chunk_index total_chunks api_key model language))
    (fun e => Returned (summary_failed e)).

(** What a chunk contributes to [chunk_summaries]: the summary returned by
    the service, or the placeholder built from the exception it raised. *)
Definition chunk_summary (chunk : text) (chunk_index total_chunks : Z)
    (api_key model language : text) : text :=
  match chat_completion_simple
          (chunk_call chunk chunk_index total_chunks api_key model language)
  with
  | Returned summary => summary
  | Raised e => summary_failed e
  end.

(** The contributions of the chunks in the order of the chunks. *)
Definition summaries_in_order (chunks : list text) (total_chunks : Z)
    (api_key model language : text) : list text :=
  map (fun p => chunk_summary (snd p) (fst p) total_chunks api_key model language)
      (enumerate chunks 1).

Definition final_call (chunk_summaries : list text)
    (api_key model language : text) : ChatCall :=
  {| cc_prompt := final_prompt prompts (combined_summaries chunk_summaries);
     cc_api_key := api_key;
     cc_model := model;
     cc_system_prompt := final_system_prompt prompts language;
     cc_temperature := 3 # 10;
     cc_max_tokens := 16000 |}.

(** The futures of the pool in submission order, each with the chunk index
    stored for it in [future_to_chunk] and the outcome of its call. *)
Definition submit_all (chunks : list text) (total_chunks : Z)
    (api_key model language : text) : list (Z * Outcome text) :=
  map (fun p => (fst p,
                 summarize_chunk (snd p) (fst p) total_chunks
                                 api_key model language))
      (enumerate chunks 1).

(** One turn of [for future in as_completed(future_to_chunk)]: the future
    at position [pos] of the submission list has completed. *)
Definition collect_step (futures : list (Z * Outcome text))
    (results_dict : gmap Z text) (pos : nat) : gmap Z text :=
  match futures !! pos with
  | None => results_dict
  | Some (chunk_idx, Returned summary) => <[chunk_idx := summary]> results_dict
  | Some (chunk_idx, Raised e) => <[chunk_idx := summary_failed e]> results_dict
  end.

Definition collect (futures : list (Z * Outcome text))
    (completion_order : list nat) : gmap Z text :=
  fold_left (collect_step futures) completion_order ∅.

(** [[results_dict[i] for i in range(1, total_chunks + 1) if i in results_dict]] *)
Definition assemble (results_dict : gmap Z text) (total_chunks : Z)
  : list text :=
  omap (fun i => results_dict !! i) (seqZ 1 total_chunks).

(** The sequential [for i, chunk in enumerate(chunks, start=1)] loop. *)
Fixpoint summarize_sequentially (indexed : list (Z * text)) (total_chunks : Z)
    (api_key model language : text) : Outcome (list text) :=
  match indexed with
  | [] => Returned []
  | (i, chunk) :: rest =>
      do summary <- summarize_chunk chunk i total_chunks api_key model language;
      do summaries <- summarize_sequentially rest total_chunks
                                             api_key model language;
      Returned (summary :: summaries)
  end.

(** Step 2 of [summarize_text]: the list [chunk_summaries]. *)
Definition summarize_chunks (chunks : list text) (total_chunks : Z)
    (api_key model language : text) (enable_async : bool) (max_workers : Z)
    (completion_order : list nat) : Outcome (list text) :=
  if enable_async && (1 <? total_chunks) then
    if max_workers <=? 0 then Raised (ValueError msg_max_workers)
    else
      Returned
        (assemble
           (collect (submit_all chunks total_chunks api_key model language)
                    completion_order)
           total_chunks)
  else
    summarize_sequentially (enumerate chunks 1) total_chunks
                           api_key model language.

(** Step 3: the final call; its failure is raised again as [Exception]. *)
Definition reduce_summaries (chunk_summaries : list text)
    (api_key model language : text) : Outcome text :=
  try_except
    (chat_completion_simple
       (final_call chunk_summaries api_key model language))
    (fun e => Raised (Exception (msg_final_failed ++ str_of_exn e))).

Definition resolve_api_key (api_key : option text) : Outcome text :=
  match api_key with
  | Some k => Returned k
  | None =>
      match py_or getenv_API_KEY_302_AI getenv_OPENAI_API_KEY with
      | Some (c :: k) => Returned (c :: k)
      | _ => Raised (ValueError msg_no_api_key)
      end
  end.

(** [summarize_text]; [show_progress] only prints and is left out;
    [completion_order] is the order in which the pool completes. *)
Definition summarize_text (t : text) (api_key : option text) (model : text)
    (chunk_size chunk_overlap : Z) (language : text) (enable_async : bool)
    (max_workers : Z) (completion_order : list nat) : Outcome text :=
  do api_key <- resolve_api_key api_key;
  if is_empty t || is_empty (strip t) then Raised (ValueError msg_empty_text)
  else
    let chunks := split_text_into_chunks t chunk_size chunk_overlap in
    match chunks with
    | [] => Raised (ValueError msg_no_chunks)
    | [chunk] => summarize_chunk chunk 1 1 api_key model language
    | _ :: _ :: _ =>
        let total_chunks := len chunks in
        do chunk_summaries <-
           summarize_chunks chunks total_chunks api_key model language
                            enable_async max_workers completion_order;
        reduce_summaries chunk_summaries api_key model language
    end.

End Services.

End SummarizeText.

(** ** Stable sorting

    [list.sort] is stable. Insertion from the right, placing an element
    before the first element that is not smaller, is a stable sort; the
    section on sorting below shows that the stable sorted arrangement of a
    list is unique, so this function is [list.sort] for any total
    preorder. *)

Module StableSort.
Section Sort.
Context {A : Type} (leb : A -> A -> bool).

Fixpoint insert (x : A) (l : list A) : list A :=
  match l with
  | [] => [x]
  | y :: l' => if leb x y then x :: l else y :: insert x l'
  end.

Definition sort (l : list A) : list A := fold_right insert [] l.

(** Two elements with the same key. *)
Definition same_key (x y : A) : bool := leb x y && leb y x.

Definition le (x y : A) : Prop := leb x y = true.

End Sort.
End StableSort.

(** ** [src/transcribe_audio.py] *)

Module TranscribeAudio.
Import Py.

(** *** Transcripts *)

Record Word : Type := {
  w_word : text;
  w_start : Q;
  w_end : Q
}.

(** A segment; [seg_words] is [None] when the dict has no ['words'] key. *)
Record Segment : Type := {
  seg_text : text;
  seg_start : Q;
  seg_end : Q;
  seg_words : option (list Word)
}.

(** A result dict; a field is [None] when its key is absent. *)
Record Transcription : Type := {
  tr_segments : option (list Segment);
  tr_language : option text
}.

Definition unknown : text := str "unknown".

(** [word['start'] += c; word['end'] += c] *)
Definition shift_word (c : Q) (w : Word) : Word :=
  {| w_word := w_word w;
     w_start := (w_start w + c)%Q;
     w_end := (w_end w + c)%Q |}.

(** The body of the [for segment in ...] loops that add [chunk_start]. *)
Definition shift_segment (c : Q) (s : Segment) : Segment :=
  {| seg_text := seg_text s;
     seg_start := (seg_start s + c)%Q;
     seg_end := (seg_end s + c)%Q;
     seg_words := option_map (map (shift_word c)) (seg_words s) |}.

(** The filter of [valid_segments]: the stripped text is not empty. *)
Definition has_text (s : Segment) : bool := negb (is_empty (strip (seg_text s))).

(** The filter applied to the words when alignment raised:
    [w['word'].strip() and w['start'] >= 0 and w['end'] > w['start']]. *)
Definition valid_word (w : Word) : bool :=
  negb (is_empty (strip (w_word w)))
  && Qle_bool 0 (w_start w)
  && negb (Qle_bool (w_end w) (w_start w)).

Definition keep_valid_words (s : Segment) : Segment :=
  {| seg_text := seg_text s;
     seg_start := seg_start s;
     seg_end := seg_end s;
     seg_words := option_map (List.filter valid_word) (seg_words s) |}.

(** [x or 'unknown'] on an [Optional[str]]. *)
Definition or_unknown (language : option text) : text :=
  match language with
  | Some (c :: l) => c :: l
  | _ => unknown
  end.

(** The file handed to one transcription unit: the source file itself or
    the extract number [chunk_index] written next to it. *)
Inductive AudioFile : Type :=
  | SourceFile
  | ChunkFile (chunk_index : Z).

Definition Chunk : Type := (AudioFile * Q * Q)%type.

(** *** [split_audio_file]

    With exact sums; [Rounded] has the same loop with rounded sums. *)

Section Chunker.

(** [ffmpeg_ok chunk_index start length] tells whether the extraction of
    one chunk succeeds; when it does not, [subprocess.run] raises
    [CalledProcessError] or [FileNotFoundError]. *)
Variable ffmpeg_ok : Z -> Q -> Q -> bool.

(** The [while start_time < duration] loop. *)
Fixpoint split_audio_loop (fuel : nat) (duration chunk_duration : Q)
    (chunk_index : Z) (start_time : Q) (chunks : list Chunk)
  : option (list Chunk) :=
  match (start_time ?= duration)%Q with
  | Lt =>
      match fuel with
      | O => None
      | S fuel' =>
          let end_time := Qmin (start_time + chunk_duration) duration in
          if ffmpeg_ok chunk_index start_time (end_time - start_time) then
            split_audio_loop fuel' duration chunk_duration (chunk_index + 1)
              end_time (chunks ++ [(ChunkFile chunk_index, start_time, end_time)])
          else if chunk_index =? 0 then Some [(SourceFile, 0%Q, duration)]
          else Some chunks
      end
  | _ => Some chunks
  end.

(** [split_audio_file]; [duration] is what [get_audio_duration] returned. *)
Definition split_audio_file (fuel : nat) (duration chunk_duration : Q)
  : option (list Chunk) :=
  if Qeq_bool duration 0 then Some [(SourceFile, 0%Q, duration)]
  else if Qle_bool duration chunk_duration then
    Some [(SourceFile, 0%Q, duration)]
  else split_audio_loop fuel duration chunk_duration 0 0%Q [].

(** [should_chunk] of [transcribe_audio]. *)
Definition should_chunk (enable_chunking : bool)
    (audio_duration chunk_duration : Q) : bool :=
  enable_chunking && negb (Qle_bool audio_duration (chunk_duration * (3 # 2))).

End Chunker.

Definition span_start (c : Chunk) : Q := snd (fst c).
Definition span_end (c : Chunk) : Q := snd c.
Definition span_length (c : Chunk) : Q := (span_end c - span_start c)%Q.

(** [d mod c] on rationals: what is left of [d] after the whole multiples
    of [c]. *)
Definition Qmod (d c : Q) : Q := (d - inject_Z (Qfloor (d / c)) * c)%Q.

(** Number of spans the claim announces: [ceil(d / c)]. *)
Definition span_count (d c : Q) : nat := Z.to_nat (Qceiling (d / c)).

(** [n] times the chunk duration. *)
Definition multiple (chunk_duration : Q) (n : nat) : Q :=
  (inject_Z (Z.of_nat n) * chunk_duration)%Q.

(** [n] more chunks are due from [start_time]: the rest of the file is
    more than [n - 1] and at most [n] chunk durations long. *)
Definition due (duration chunk_duration : Q) (n : nat) (start_time : Q)
  : Prop :=
  (duration - start_time <= multiple chunk_duration n)%Q
  /\ ((0 < n)%nat ->
      (multiple chunk_duration (pred n) < duration - start_time)%Q).

(** The chunks that [n] successful turns of the loop of [split_audio_file]
    append, from [chunk_index] and [start_time] on. *)
Fixpoint chunks_from (n : nat) (duration chunk_duration : Q)
    (chunk_index : Z) (start_time : Q) : list Chunk :=
  match n with
  | O => []
  | S n' =>
      let end_time := Qmin (start_time + chunk_duration) duration in
      (ChunkFile chunk_index, start_time, end_time)
      :: chunks_from n' duration chunk_duration (chunk_index + 1) end_time
  end.

(** *** [transcribe_chunk] *)

(** What [whisperx.align] returns: a dict read with
    [.get('segments', valid_segments)]. *)
Record Alignment : Type := {
  al_segments : option (list Segment)
}.

Definition with_segments (result : Transcription) (segs : list Segment)
  : Transcription :=
  {| tr_segments := Some segs; tr_language := tr_language result |}.

(** [result['segments']]: a [KeyError] when the key is absent. *)
Definition get_segments (result : Transcription) : Outcome (list Segment) :=
  match tr_segments result with
  | Some segs => Returned segs
  | None => Raised (KeyError (str "'segments'"))
  end.

Section Whisperx.

(** The speech-to-text service: loaded audio, the transcription model, the
    alignment model and its metadata are opaque. *)
Context {Audio Model AlignModel AlignMetadata : Type}.
Variable load_audio : AudioFile -> Outcome Audio.
Variable model_transcribe :
  Model -> Audio -> Z -> option text -> Outcome Transcription.
Variable whisperx_align :
  list Segment -> AlignModel -> AlignMetadata -> Audio -> text ->
  Outcome Alignment.

(** The inner [try] of [transcribe_chunk]: the segments of the result
    after the alignment attempt, before the second loop that adds
    [chunk_start]. *)
Definition align_segments (segs : list Segment) (align_model : AlignModel)
    (align_metadata : AlignMetadata) (chunk_audio : Audio) (device : text)
  : list Segment :=
  let valid_segments := List.filter has_text segs in
  match valid_segments with
  | [] => segs
  | _ :: _ =>
      match whisperx_align valid_segments align_model align_metadata
                           chunk_audio device with
      | Returned aligned_result =>
          match al_segments aligned_result with
          | Some aligned => aligned
          | None => valid_segments
          end
      | Raised align_error => map keep_valid_words segs
      end
  end.

(** The body of the outer [try]. *)
Definition transcribe_chunk_body (chunk_file : AudioFile) (chunk_start : Q)
    (model : Model) (device : text) (batch_size : Z) (language : option text)
    (align_model : option AlignModel) (align_metadata : option AlignMetadata)
  : Outcome Transcription :=
  do chunk_audio <- load_audio chunk_file;
  do result <- model_transcribe model chunk_audio batch_size language;
  do segs <- get_segments result;
  let shifted := map (shift_segment chunk_start) segs in
  match align_model, align_metadata with
  | Some am, Some md =>
      Returned
        (with_segments result
           (map (shift_segment chunk_start)
                (align_segments shifted am md chunk_audio device)))
  | _, _ => Returned (with_segments result shifted)
  end.

(** The handler of the outer [except Exception]. *)
Definition failed_chunk (language : option text) : Transcription :=
  {| tr_segments := Some []; tr_language := Some (or_unknown language) |}.

(** [transcribe_chunk]; [model_name] and [audio_data] are not used by the
    function and are left out. *)
Definition transcribe_chunk (chunk_file : AudioFile) (chunk_start : Q)
    (model : Model) (device : text) (batch_size : Z) (language : option text)
    (align_model : option AlignModel) (align_metadata : option AlignMetadata)
  : Outcome Transcription :=
  try_except
    (transcribe_chunk_body chunk_file chunk_start model device batch_size
                           language align_model align_metadata)
    (fun e => Returned (failed_chunk language)).

(** *** The worker pool of [transcribe_audio] *)

(** The futures in submission order, one per chunk. *)
Definition submit_chunks (chunks : list Chunk) (model : Model)
    (device : text) (batch_size : Z) (detected_language : option text)
    (model_a : option AlignModel) (align_metadata : option AlignMetadata)
  : list (Outcome Transcription) :=
  map (fun c => transcribe_chunk (fst (fst c)) (span_start c) model device
                                 batch_size detected_language model_a
                                 align_metadata)
      chunks.

End Whisperx.

(** One turn of [for future in as_completed(future_to_chunk)]:
    [results.append(future.result())], or nothing when the future raised. *)
Definition collect_step (futures : list (Outcome Transcription))
    (results : list Transcription) (pos : nat) : list Transcription :=
  match futures !! pos with
  | Some (Returned chunk_result) => results ++ [chunk_result]
  | _ => results
  end.

Definition collect (futures : list (Outcome Transcription))
    (completion_order : list nat) : list Transcription :=
  fold_left (collect_step futures) completion_order [].

(** The results of the futures that returned, in submission order. *)
Definition returned_result (o : Outcome Transcription) : option Transcription :=
  match o with
  | Returned r => Some r
  | Raised _ => None
  end.

Definition returned_results (futures : list (Outcome Transcription))
  : list Transcription :=
  omap returned_result futures.

(** *** [merge_transcription_results] *)

(** [result.get('language', 'unknown')] and [result.get('segments', [])] *)
Definition get_language (result : Transcription) : text :=
  default unknown (tr_language result).

Definition get_segments_or_empty (result : Transcription) : list Segment :=
  default [] (tr_segments result).

(** The order of [all_segments.sort(key=lambda x: x.get('start', 0))]. *)
Definition start_leb (a b : Segment) : bool :=
  Qle_bool (seg_start a) (seg_start b).

Definition sort_by_start : list Segment -> list Segment :=
  StableSort.sort start_leb.

(** [all_segments], the concatenation built by [extend]. *)
Definition all_segments (results : list Transcription) : list Segment :=
  concat (map get_segments_or_empty results).

Definition merge_transcription_results (results : list Transcription)
  : Transcription :=
  match results with
  | [] => {| tr_segments := Some []; tr_language := Some unknown |}
  | first :: _ =>
      {| tr_segments := Some (sort_by_start (all_segments results));
         tr_language := Some (get_language first) |}
  end.

(** Steps 5 and 6 of the chunked branch of [transcribe_audio]: collect in
    completion order, merge, overwrite the language. *)
Definition merge_collected (futures : list (Outcome Transcription))
    (completion_order : list nat) (detected_language : option text)
  : Transcription :=
  let result := merge_transcription_results (collect futures completion_order) in
  {| tr_segments := tr_segments result;
     tr_language := Some (or_unknown detected_language) |}.

(** Two segments that start at the same time: a tie for the sort. *)
Definition same_start (a b : Segment) : bool :=
  StableSort.same_key start_leb a b.

(** Starts never decrease along the list. *)
Definition sorted_by_start (l : list Segment) : Prop :=
  StronglySorted (fun a b => (seg_start a <= seg_start b)%Q) l.

(** [out] keeps the segments of [inp] that start at the same time in the
    order they have in [inp]. *)
Definition keeps_ties (inp out : list Segment) : Prop :=
  forall z, List.filter (same_start z) out = List.filter (same_start z) inp.

(** No two segments of different results start at the same time. *)
Definition no_shared_start (results : list Transcription) : Prop :=
  forall i j ri rj si sj,
    i <> j -> results !! i = Some ri -> results !! j = Some rj ->
    In si (get_segments_or_empty ri) -> In sj (get_segments_or_empty rj) ->
    same_start si sj = false.

(** The claim's reading of the merged language: the first language that is
    not ["unknown"], and ["unknown"] when there is none. *)
Fixpoint first_known_language (results : list Transcription) : text :=
  match results with
  | [] => unknown
  | r :: rest =>
      if bool_decide (get_language r = unknown) then first_known_language rest
      else get_language r
  end.

End TranscribeAudio.

(** ** The windows of the text chunker

    The loop of [split_text_into_chunks] seen through the windows
    [[start, end)] it cuts, one per turn; the chunks are the stripped
    windows that are not empty ([split_loop_windows] below). *)

Module ChunkWindows.
Import Py SummarizeText.

Fixpoint windows_from (fuel : nat) (t : text) (chunk_size chunk_overlap : Z)
    (start : Z) : option (list (Z * Z)) :=
  if start <? len t then
    match fuel with
    | O => None
    | S fuel' =>
        let end_ := chunk_end t chunk_size start in
        option_map (cons (start, end_))
          (windows_from fuel' t chunk_size chunk_overlap
                        (next_start start end_ chunk_overlap))
    end
  else Some [].

Definition windows (t : text) (chunk_size chunk_overlap : Z) : list (Z * Z) :=
  default [] (windows_from (length t) t chunk_size chunk_overlap 0).

(** [text[start:end].strip()] for one window. *)
Definition window_chunk (t : text) (w : Z * Z) : text :=
  strip (slice t (fst w) (snd w)).

Definition chunks_of (t : text) (ws : list (Z * Z)) (chunks : list text)
  : list text :=
  fold_left (fun chunks w => append_chunk chunks (window_chunk t w)) ws chunks.

(** [chunk] occurs in [t] as a run of consecutive characters. *)
Definition piece_of (t chunk : text) : Prop :=
  exists before after, t = before ++ chunk ++ after.

End ChunkWindows.

(** ** [src/chat_completion.py] *)

Module ChatCompletion.
Import Py.

(** One message dict; a field is [None] when its key is absent. *)
Record Message : Type := {
  msg_role : option text;
  msg_content : option text
}.

Inductive Stop : Type :=
  | StopOne (s : text)
  | StopMany (l : list text).

(** The optional keyword arguments that go to the payload. *)
Record Options : Type := {
  temperature : option Q;
  top_p : option Q;
  n : option Z;
  stream : option bool;
  stop : option Stop;
  max_tokens : option Z;
  presence_penalty : option Q;
  frequency_penalty : option Q;
  logit_bias : option (list (Z * Q));
  user : option text
}.

Definition no_options : Options :=
  {| temperature := None; top_p := None; n := None; stream := None;
     stop := None; max_tokens := None; presence_penalty := None;
     frequency_penalty := None; logit_bias := None; user := None |}.

(** The values of the payload. *)
Inductive Json : Type :=
  | JNumber (q : Q)
  | JInteger (z : Z)
  | JBoolean (b : bool)
  | JString (s : text)
  | JMessages (l : list Message)
  | JStop (s : Stop)
  | JBias (l : list (Z * Q)).

(** [if value is not None: payload[key] = value] *)
Definition set_if {A} (key : text) (wrap : A -> Json) (value : option A)
    (payload : gmap text Json) : gmap text Json :=
  match value with
  | Some v => <[key := wrap v]> payload
  | None => payload
  end.

Definition build_payload (messages : list Message) (model : text)
    (o : Options) : gmap text Json :=
  set_if (str "user") JString (user o)
    (set_if (str "logit_bias") JBias (logit_bias o)
      (set_if (str "frequency_penalty") JNumber (frequency_penalty o)
        (set_if (str "presence_penalty") JNumber (presence_penalty o)
          (set_if (str "max_tokens") JInteger (max_tokens o)
            (set_if (str "stop") JStop (stop o)
              (set_if (str "stream") JBoolean (stream o)
                (set_if (str "n") JInteger (n o)
                  (set_if (str "top_p") JNumber (top_p o)
                    (set_if (str "temperature") JNumber (temperature o)
                      (<[str "messages" := JMessages messages]>
                         (<[str "model" := JString model]> ∅))))))))))).

(** What [requests.post] is called with. *)
Record Request : Type := {
  rq_url : text;
  rq_headers : gmap text text;
  rq_payload : gmap text Json;
  rq_timeout : Z
}.

Definition build_request (messages : list Message) (api_key model base_url : text)
    (o : Options) (timeout : Z) : Request :=
  {| rq_url := base_url ++ str "/chat/completions";
     rq_headers :=
       <[str "Authorization" := str "Bearer " ++ api_key]>
         (<[str "Accept" := str "application/json"]>
            (<[str "Content-Type" := str "application/json"]> ∅));
     rq_payload := build_payload messages model o;
     rq_timeout := timeout |}.

(** One choice of a response: [ch_message] is [None] without a
    ['message'] key, [Some None] with a message without ['content']. *)
Record Choice : Type := {
  ch_message : option (option text)
}.

(** A response body; [rs_choices] is [None] without a ['choices'] key. *)
Record Response : Type := {
  rs_choices : option (list Choice)
}.

(** What the error response of a failed status carries: a JSON body with
    an ['error'] entry (formatted), a JSON body without one, or a body on
    which reading the entry raises, such as one that is not JSON (its
    text). *)
Inductive ErrorDetail : Type :=
  | DetailError (formatted : text)
  | DetailNoError
  | DetailText (response_text : text).

(** One attempt, by what becomes of it in the [try]:
    - [Answered body]: a reply whose body is a JSON object;
    - [AnsweredNull]: a reply whose body is the JSON value [null], which
      [response.json()] turns into [None];
    - [TimedOut]: the clause for [Timeout];
    - [HttpFailed]: the clause for [HTTPError];
    - [RequestFailed]: the clause for [RequestException]. It receives
      connection failures and also the [JSONDecodeError] that requests
      raises on a body that is not JSON, a subclass of
      [RequestException];
    - [JsonFailed]: the clause for [json.JSONDecodeError], which comes
      after the one for [RequestException] and so receives only a
      decoding error that is not a [RequestException];
    - [Crashed]: an exception that no clause receives. *)
Inductive Attempt : Type :=
  | Answered (body : Response)
  | AnsweredNull
  | TimedOut
  | HttpFailed (status_code : Z) (detail : ErrorDetail)
  | RequestFailed (str_e : text)
  | JsonFailed (str_e : text)
  | Crashed (e : exn).

(** What [response.json()] makes of a body that is not JSON: requests
    raises its own [JSONDecodeError], received by the clause for
    [RequestException]. *)
Definition body_not_json (str_e : text) : Attempt := RequestFailed str_e.

(** A call with what it did on the way: the requests posted and the
    pauses taken. *)
Record Run (A : Type) : Type := {
  outcome : Outcome A;
  posts : nat;
  sleeps : nat
}.
Arguments outcome {A} r.
Arguments posts {A} r.
Arguments sleeps {A} r.

Definition done {A} (o : Outcome A) : Run A :=
  {| outcome := o; posts := 0; sleeps := 0 |}.
Definition posted {A} (r : Run A) : Run A :=
  {| outcome := outcome r; posts := S (posts r); sleeps := sleeps r |}.
Definition slept {A} (r : Run A) : Run A :=
  {| outcome := outcome r; posts := posts r; sleeps := S (sleeps r) |}.

(** Message of the [ValueError] for an empty list of messages, and for a
    message without ['role'] or ['content']. *)
Definition msg_empty_messages : text :=
  [109; 101; 115; 115; 97; 103; 101; 115; 32; 24517; 38920; 26159; 38750;
   31354; 21015; 34920].

Definition msg_missing_field : text :=
  [109; 101; 115; 115; 97; 103; 101; 115; 32; 20013; 30340; 27599; 20491;
   23383; 20856; 24517; 38920; 21253; 21547; 32; 39; 114; 111; 108; 101; 39;
   32; 21644; 32; 39; 99; 111; 110; 116; 101; 110; 116; 39; 32; 23383; 27573].

(** "request timed out (more than [timeout] seconds)" *)
Definition msg_timeout (timeout : Z) : text :=
  [35531; 27714; 36229; 26178; 65288; 36229; 36942; 32]
  ++ str_of_int timeout ++ [32; 31186; 65289].

(** "HTTP error: [status]", followed by [" - "] and the detail if any. *)
Definition msg_http (status_code : Z) (detail : ErrorDetail) : text :=
  [72; 84; 84; 80; 32; 37679; 35492; 58; 32] ++ str_of_int status_code
  ++ match detail with
     | DetailError formatted => [32; 45; 32] ++ formatted
     | DetailNoError => []
     | DetailText response_text => [32; 45; 32] ++ response_text
     end.

(** "request failed after [retry_count] tries: [str(e)]" *)
Definition msg_request_failed (retry_count : Z) (str_e : text) : text :=
  [35531; 27714; 22833; 25943; 65292; 24050; 37325; 35430; 32]
  ++ str_of_int retry_count ++ [32; 27425; 58; 32] ++ str_e.

(** "the JSON of the response could not be parsed: [str(e)]" *)
Definition msg_json (str_e : text) : text :=
  [38911; 25033; 32; 74; 83; 79; 78; 32; 35299; 26512; 22833; 25943; 58; 32]
  ++ str_e.

(** "no reply found in the response of the API" *)
Definition msg_no_reply : text :=
  [65; 80; 73; 32; 38911; 25033; 20013; 27794; 26377; 25214; 21040; 22238;
   35206; 20839; 23481].

(** The validation of [messages]. *)
Definition has_fields (m : Message) : bool :=
  match msg_role m, msg_content m with
  | Some _, Some _ => true
  | _, _ => false
  end.

Definition validate (messages : list Message) : Outcome unit :=
  match messages with
  | [] => Raised (ValueError msg_empty_messages)
  | _ :: _ =>
      if forallb has_fields messages then Returned tt
      else Raised (ValueError msg_missing_field)
  end.

Section Http.

(** [post_at attempt] is what the attempt number [attempt] of the call
    meets. *)
Variable post_at : Z -> Attempt.

(** [for attempt in range(retry_count)], then the statements after the
    loop. *)
Fixpoint retry (timeout retry_count : Z) (attempts : list Z)
    (last_exception : option exn) : Run (option Response) :=
  match attempts with
  | [] =>
      done match last_exception with
           | Some e => Raised e
           | None => Returned None
           end
  | attempt :: rest =>
      posted
        match post_at attempt with
        | Answered body => done (Returned (Some body))
        | AnsweredNull => done (Returned None)
        | TimedOut =>
            let e := Exception (msg_timeout timeout) in
            if attempt <? retry_count - 1
            then slept (retry timeout retry_count rest (Some e))
            else done (Raised e)
        | HttpFailed status_code detail =>
            done (Raised (Exception (msg_http status_code detail)))
        | RequestFailed str_e =>
            if attempt <? retry_count - 1
            then slept (retry timeout retry_count rest
                              (Some (Exception str_e)))
            else done (Raised (Exception (msg_request_failed retry_count str_e)))
        | JsonFailed str_e => done (Raised (Exception (msg_json str_e)))
        | Crashed e => done (Raised e)
        end
  end.

End Http.

(** [chat_completion]; [post request attempt] is what [requests.post]
    meets at each attempt. The pause [retry_delay] is counted, not
    timed. *)
Definition chat_completion (post : Request -> Z -> Attempt)
    (messages : list Message) (api_key model base_url : text) (o : Options)
    (timeout retry_count : Z) : Run (option Response) :=
  match validate messages with
  | Raised e => done (Raised e)
  | Returned _ =>
      retry (post (build_request messages api_key model base_url o timeout))
            timeout retry_count (seqZ 0 retry_count) None
  end.

(** The keyword arguments [chat_completion_simple] passes on. *)
Record Kwargs : Type := {
  kw_base_url : text;
  kw_options : Options;
  kw_timeout : Z;
  kw_retry_count : Z
}.

Definition default_kwargs : Kwargs :=
  {| kw_base_url := str "https://api.302.ai";
     kw_options := no_options;
     kw_timeout := 60;
     kw_retry_count := 3 |}.

(** The list [messages] of [chat_completion_simple]. *)
Definition simple_messages (prompt : text) (system_prompt : option text)
  : list Message :=
  match system_prompt with
  | Some (c :: sp) =>
      [ {| msg_role := Some (str "system"); msg_content := Some (c :: sp) |} ]
  | _ => []
  end
  ++ [ {| msg_role := Some (str "user"); msg_content := Some prompt |} ].

(** The reply read from a response: ["choices" in response], then
    [response["choices"][0]["message"]["content"]]. A response that is
    [None] makes the test raise a [TypeError], kept here with its message
    as an [Exception], which is how the callers catch it. A [KeyError]
    carries [str(e)], the key between quotes. *)
Definition read_reply (response : option Response) : Outcome text :=
  match response with
  | None =>
      Raised (Exception (str "argument of type 'NoneType' is not iterable"))
  | Some body =>
      match rs_choices body with
      | Some (choice :: _) =>
          match ch_message choice with
          | Some (Some content) => Returned content
          | Some None => Raised (KeyError (str "'content'"))
          | None => Raised (KeyError (str "'message'"))
          end
      | _ => Raised (Exception msg_no_reply)
      end
  end.

Definition chat_completion_simple (post : Request -> Z -> Attempt)
    (prompt api_key model : text) (system_prompt : option text)
    (kwargs : Kwargs) : Run text :=
  let r :=
    chat_completion post (simple_messages prompt system_prompt) api_key model
                    (kw_base_url kwargs) (kw_options kwargs)
                    (kw_timeout kwargs) (kw_retry_count kwargs) in
  {| outcome := bind (outcome r) read_reply;
     posts := posts r;
     sleeps := sleeps r |}.

(** The two calls of [summarize_text.py]: [temperature] and [max_tokens]
    are the only keyword arguments passed on. *)
Definition summarize_kwargs (call : SummarizeText.ChatCall) : Kwargs :=
  {| kw_base_url := kw_base_url default_kwargs;
     kw_options :=
       {| temperature := Some (SummarizeText.cc_temperature call);
          top_p := None; n := None; stream := None; stop := None;
          max_tokens := Some (SummarizeText.cc_max_tokens call);
          presence_penalty := None; frequency_penalty := None;
          logit_bias := None; user := None |};
     kw_timeout := kw_timeout default_kwargs;
     kw_retry_count := kw_retry_count default_kwargs |}.

Definition summarize_service (post : Request -> Z -> Attempt)
    (call : SummarizeText.ChatCall) : Run text :=
  chat_completion_simple post (SummarizeText.cc_prompt call)
    (SummarizeText.cc_api_key call) (SummarizeText.cc_model call)
    (Some (SummarizeText.cc_system_prompt call)) (summarize_kwargs call).

(** An attempt after which the loop goes on, if attempts are left. *)
Definition transient (a : Attempt) : bool :=
  match a with
  | TimedOut | RequestFailed _ => true
  | _ => false
  end.

(** What a decisive attempt makes of the call. *)
Definition decided (a : Attempt) : Outcome (option Response) :=
  match a with
  | Answered body => Returned (Some body)
  | AnsweredNull => Returned None
  | HttpFailed status_code detail =>
      Raised (Exception (msg_http status_code detail))
  | JsonFailed str_e => Raised (Exception (msg_json str_e))
  | Crashed e => Raised e
  | TimedOut | RequestFailed _ => Returned None
  end.

(** What the last attempt raises when it is transient too. *)
Definition given_up (timeout retry_count : Z) (a : Attempt)
  : Outcome (option Response) :=
  match a with
  | TimedOut => Raised (Exception (msg_timeout timeout))
  | RequestFailed str_e =>
      Raised (Exception (msg_request_failed retry_count str_e))
  | _ => decided a
  end.

End ChatCompletion.

(** ** [transcribe_audio], from the duration of the file to the result

    The parameters are taken after the preamble of the function: the file
    exists, [device] and [compute_type] are resolved, [progress_callback]
    is [None]. The removal of the chunk files is left out: its failures
    are caught and nothing reads the files afterwards. *)

Module TranscribeAudioRun.
Import Py TranscribeAudio.

(** [model_speeds.get(model_name, 1.0)] and
    [device_factors.get(device, 1.0)] *)
Definition model_speed (model_name : text) : Q :=
  if bool_decide (model_name = str "tiny") then 3 # 10
  else if bool_decide (model_name = str "base") then 1
  else if bool_decide (model_name = str "small") then 2
  else if bool_decide (model_name = str "medium") then 4
  else if bool_decide (model_name = str "large-v2") then 6
  else if bool_decide (model_name = str "large-v3") then 6
  else 1.

Definition device_factor (device : text) : Q :=
  if bool_decide (device = str "cuda") then 1 # 2
  else if bool_decide (device = str "cpu") then 1
  else if bool_decide (device = str "mps") then 8 # 10
  else 1.

Definition estimate_transcription_time (audio_duration : Q)
    (model_name device : text) : Q :=
  (audio_duration * model_speed model_name / device_factor device + 20)%Q.


(** The two places where the model is loaded. *)
Inductive Site : Type :=
  | ChunkedStage
  | WholeStage.



(** [seg.get('text', '').strip()] *)
Definition stripped_text (seg : Segment) : text := strip (seg_text seg).

(** The set [aligned_texts]. *)
Definition aligned_texts (aligned_segments : list Segment) : list text :=
  List.filter (fun t => negb (is_empty t)) (map stripped_text aligned_segments).

(** The segments left out of the aligned ones: those appended by the
    [for seg in result["segments"]] loop. *)
Definition not_aligned (texts : list text) (seg : Segment) : bool :=
  negb (bool_decide (stripped_text seg ∈ texts)).

Section Run.

Context {Audio Model AlignModel AlignMetadata : Type}.

(** The services. [load_model site] is the outcome of the whole block
    that loads the model, offline retry included; [diarization] is
    [DiarizationPipeline] followed by [assign_word_speakers] (speaker
    labels are not represented); [ffmpeg_ok] is as for
    [split_audio_file]. *)
Variable ffmpeg_ok : Z -> Q -> Q -> bool.
Variable load_model : Site -> Outcome Model.
Variable load_audio : AudioFile -> Outcome Audio.
Variable model_transcribe :
  Model -> Audio -> Z -> option text -> Outcome Transcription.
Variable load_align_model : text -> Outcome (AlignModel * AlignMetadata).
Variable whisperx_align :
  list Segment -> AlignModel -> AlignMetadata -> Audio -> text ->
  Outcome Alignment.
Variable diarization : text -> Audio -> Transcription -> Outcome Transcription.
Variable save_transcription_result : Transcription -> Outcome text.







(** Step 2 of the common part: the [try] around the alignment of the
    whole file. Any exception leaves [result] as it was. *)
Definition align_stage (result : Transcription) (language : text)
    (segs : list Segment) (audio : Audio) (device : text) : Transcription :=
  match load_align_model language with
  | Raised _ => result
  | Returned (model_a, metadata) =>
      match List.filter has_text segs with
      | [] => result
      | v :: valid =>
          match whisperx_align (v :: valid) model_a metadata audio device with
          | Raised _ => result
          | Returned aligned_result =>
              let aligned_segments := default [] (al_segments aligned_result) in
              with_segments result
                (aligned_segments
                 ++ List.filter (not_aligned (aligned_texts aligned_segments))
                                segs)
          end
      end
  end.



End Run.

End TranscribeAudioRun.

(** ** Seconds as binary64 numbers

    A Python float is a rational number, and the sum, the difference or
    the product of two floats is the exact result rounded to the nearest
    binary64 number, ties going to the even significand. Comparisons and
    [min] are exact. Overflow and subnormal numbers are out of reach of
    durations in seconds and are left out. *)

Module Binary64.

(** [2 ^ k] for an exponent of either sign. *)
Definition pow2 (k : Z) : Q :=
  if 0 <=? k then inject_Z (2 ^ k) else (1 / inject_Z (2 ^ (- k)))%Q.

(** For [x > 0], the exponent [e] with [2 ^ e <= x < 2 ^ (e + 1)]. *)
Definition exponent (x : Q) : Z :=
  let e0 := Z.log2 (Qnum x) - Z.log2 (Zpos (Qden x)) in
  if Qle_bool (pow2 e0) x then e0 else e0 - 1.

(** The nearest integer, a tie going to the even one. *)
Definition nearest_even (q : Q) : Z :=
  let f := Qfloor q in
  match (q - inject_Z f ?= 1 # 2)%Q with
  | Lt => f
  | Gt => f + 1
  | Eq => if Z.even f then f else f + 1
  end.

(** A positive number rounded to 53 significant bits. *)
Definition round_pos (x : Q) : Q :=
  let ulp := pow2 (exponent x - 52) in
  (inject_Z (nearest_even (x / ulp)) * ulp)%Q.

(** Half the distance between 1 and the next binary64 number: the
    relative error of one rounding is at most [2 ^ -53]. *)
Definition unit_roundoff : Q := 1 # 9007199254740992.

(** The binary64 number nearest to [x], as a reduced fraction. *)
Definition round64 (x : Q) : Q :=
  let x := Qred x in
  match Qnum x with
  | Z0 => 0%Q
  | Zpos _ => Qred (round_pos x)
  | Zneg _ => Qred (- round_pos (- x))
  end.

End Binary64.

(** ** [split_audio_file] on floats

    The loop of [split_audio_file] and the test of [transcribe_audio]
    with every sum, difference and product rounded by [fl], as float
    arithmetic does ([Binary64.round64]). With a rounding that changes
    nothing they are the definitions of [TranscribeAudio]. *)

Module Rounded.
Import TranscribeAudio.

Section Chunker.

Variable fl : Q -> Q.
Variable ffmpeg_ok : Z -> Q -> Q -> bool.

(** The [while start_time < duration] loop. *)
Fixpoint split_audio_loop (fuel : nat) (duration chunk_duration : Q)
    (chunk_index : Z) (start_time : Q) (chunks : list Chunk)
  : option (list Chunk) :=
  match (start_time ?= duration)%Q with
  | Lt =>
      match fuel with
      | O => None
      | S fuel' =>
          let end_time := Qmin (fl (start_time + chunk_duration)) duration in
          if ffmpeg_ok chunk_index start_time (fl (end_time - start_time)) then
            split_audio_loop fuel' duration chunk_duration (chunk_index + 1)
              end_time (chunks ++ [(ChunkFile chunk_index, start_time, end_time)])
          else if chunk_index =? 0 then Some [(SourceFile, 0%Q, duration)]
          else Some chunks
      end
  | _ => Some chunks
  end.

(** [split_audio_file]; [duration] is what [get_audio_duration] returned. *)
Definition split_audio_file (fuel : nat) (duration chunk_duration : Q)
  : option (list Chunk) :=
  if Qeq_bool duration 0 then Some [(SourceFile, 0%Q, duration)]
  else if Qle_bool duration chunk_duration then
    Some [(SourceFile, 0%Q, duration)]
  else split_audio_loop fuel duration chunk_duration 0 0%Q [].

(** [enable_chunking and audio_duration > chunk_duration * 1.5] *)
Definition should_chunk (enable_chunking : bool)
    (audio_duration chunk_duration : Q) : bool :=
  enable_chunking
  && negb (Qle_bool audio_duration (fl (chunk_duration * (3 # 2)))).

(** The variable [chunks] of [transcribe_audio]: assigned by
    [split_audio_file] in the branch [if should_chunk], and [None] when
    that branch is not taken, where no span is built and the file is
    transcribed whole. The outer [None] is a loop that has not ended
    within [fuel] turns. *)
Definition transcribe_audio_chunks (fuel : nat) (enable_chunking : bool)
    (audio_duration chunk_duration : Q) : option (option (list Chunk)) :=
  if should_chunk enable_chunking audio_duration chunk_duration then
    option_map Some (split_audio_file fuel audio_duration chunk_duration)
  else Some None.

(** The chunks that [n] successful turns of the loop append. *)
Fixpoint chunks_from (n : nat) (duration chunk_duration : Q)
    (chunk_index : Z) (start_time : Q) : list Chunk :=
  match n with
  | O => []
  | S n' =>
      let end_time := Qmin (fl (start_time + chunk_duration)) duration in
      (ChunkFile chunk_index, start_time, end_time)
      :: chunks_from n' duration chunk_duration (chunk_index + 1) end_time
  end.

(** From [start_time] on, the next [n] running sums are exact. *)
Definition sums_exact (chunk_duration start_time : Q) (n : nat) : Prop :=
  forall m, (m < n)%nat ->
    (fl (start_time + multiple chunk_duration m + chunk_duration)
     == start_time + multiple chunk_duration m + chunk_duration)%Q.

(** The loop ends after [n] turns from [start_time], each of them moving
    forward. *)
Fixpoint ends_after (n : nat) (duration chunk_duration start_time : Q)
  : Prop :=
  match n with
  | O => (duration <= start_time)%Q
  | S n' =>
      (start_time < duration)%Q
      /\ (start_time < Qmin (fl (start_time + chunk_duration)) duration)%Q
      /\ ends_after n' duration chunk_duration
                    (Qmin (fl (start_time + chunk_duration)) duration)
  end.

End Chunker.

(** Two chunks with the same file and the same bounds as numbers. *)
Definition same_span (c c' : Chunk) : Prop :=
  fst (fst c) = fst (fst c')
  /\ (span_start c == span_start c')%Q
  /\ (span_end c == span_end c')%Q.

End Rounded.

(** * Properties *)

(** ** Stripping *)

Section Strip.
Import Py.

Lemma lstrip_all_space (t : text) :
  forallb is_space t = true -> lstrip t = [].
Proof.
  induction t as [|c t IH]; simpl; [reflexivity|].
  intros H. apply andb_true_iff in H as [Hc Ht].
  rewrite Hc. auto.
Qed.

(** What [lstrip] leaves is empty or starts with a character that is not
    white space. *)
Lemma lstrip_head (t : text) :
  lstrip t = [] \/ exists c t', lstrip t = c :: t' /\ is_space c = false.
Proof.
  induction t as [|c t IH]; simpl; [now left|].
  destruct (is_space c) eqn:Hc; [exact IH|].
  right. now exists c, t.
Qed.

Lemma forallb_rev (f : char -> bool) (t : text) :
  forallb f (rev t) = forallb f t.
Proof.
  induction t as [|c t IH]; simpl; [reflexivity|].
  rewrite forallb_app, IH. simpl. rewrite andb_true_r. apply andb_comm.
Qed.

Lemma strip_all_space (t : text) :
  forallb is_space t = true -> strip t = [].
Proof.
  intros H. unfold strip. rewrite (lstrip_all_space t H). reflexivity.
Qed.

(** A stripped text made of white space only is empty. *)
Lemma strip_blank_empty (t : text) :
  forallb is_space (strip t) = true -> strip t = [].
Proof.
  unfold strip, rstrip. rewrite forallb_rev.
  destruct (lstrip_head (rev (lstrip t))) as [E | (c & t' & E & Hc)];
    rewrite E; simpl; [reflexivity|].
  rewrite Hc. discriminate.
Qed.

Lemma strip_not_space (c : char) : is_space c = false -> strip [c] = [c].
Proof. intros Hc. unfold strip, rstrip. simpl. rewrite Hc. simpl. now rewrite Hc. Qed.

End Strip.

(** ** The text chunker *)

Section TextChunker.
Import Py SummarizeText.

Lemma next_start_gt (start end_ chunk_overlap : Z) :
  start < next_start start end_ chunk_overlap.
Proof. unfold next_start. lia. Qed.

Lemma append_chunk_blank (chunks : list text) (window : text) :
  forallb is_space window = true ->
  append_chunk chunks (strip window) = chunks.
Proof. intros H. now rewrite (strip_all_space window H). Qed.

Lemma append_chunk_solid (chunks : list text) (window : text) :
  Forall solid chunks -> Forall solid (append_chunk chunks (strip window)).
Proof.
  intros H. unfold append_chunk.
  destruct (strip window) as [|c w] eqn:E; [exact H|].
  apply Forall_app. split; [exact H|].
  constructor; [|constructor]. split; [discriminate|].
  destruct (forallb is_space (c :: w)) eqn:Hb; [|reflexivity].
  rewrite <- E in Hb. apply strip_blank_empty in Hb. congruence.
Qed.

Lemma split_loop_solid (fuel : nat) (t : text) (chunk_size chunk_overlap : Z) :
  forall start chunks r,
    Forall solid chunks ->
    split_loop fuel t chunk_size chunk_overlap start chunks = Some r ->
    Forall solid r.
Proof.
  induction fuel as [|fuel IH]; intros start chunks r Hc; simpl;
    destruct (start <? len t); try discriminate;
    try (intros [= <-]; exact Hc).
  apply IH. now apply append_chunk_solid.
Qed.

(** With one unit of fuel per remaining character the loop runs to its end. *)
Lemma split_loop_fuel (fuel : nat) (t : text) (chunk_size chunk_overlap : Z) :
  forall start chunks,
    len t - start <= Z.of_nat fuel ->
    exists r, split_loop fuel t chunk_size chunk_overlap start chunks = Some r.
Proof.
  induction fuel as [|fuel IH]; intros start chunks Hfuel; simpl;
    destruct (start <? len t) eqn:Hlt; eauto.
  - apply Z.ltb_lt in Hlt. lia.
  - apply Z.ltb_lt in Hlt. apply IH.
    pose proof (next_start_gt start (chunk_end t chunk_size start) chunk_overlap).
    lia.
Qed.

(** More fuel does not change a result. *)
Lemma split_loop_more_fuel (fuel : nat) (t : text) (chunk_size chunk_overlap : Z) :
  forall fuel' start chunks r,
    (fuel <= fuel')%nat ->
    split_loop fuel t chunk_size chunk_overlap start chunks = Some r ->
    split_loop fuel' t chunk_size chunk_overlap start chunks = Some r.
Proof.
  induction fuel as [|fuel IH]; intros fuel' start chunks r Hle; simpl;
    destruct (start <? len t) eqn:Hlt; try discriminate.
  - intros [= <-]. destruct fuel'; simpl; now rewrite Hlt.
  - destruct fuel' as [|fuel']; [lia|]. simpl. rewrite Hlt.
    apply IH. lia.
  - intros [= <-]. destruct fuel'; simpl; now rewrite Hlt.
Qed.

Lemma split_text_into_chunks_run (t : text) (chunk_size chunk_overlap : Z) :
  split_text_into_chunks_fuel (length t) t chunk_size chunk_overlap
  = Some (split_text_into_chunks t chunk_size chunk_overlap).
Proof.
  unfold split_text_into_chunks, split_text_into_chunks_fuel.
  destruct t as [|c t]; [reflexivity|].
  destruct (split_loop_fuel (length (c :: t)) (c :: t) chunk_size
              chunk_overlap 0 []) as [r Hr]; [unfold len; lia|].
  now rewrite Hr.
Qed.

Lemma split_text_into_chunks_solid (t : text) (chunk_size chunk_overlap : Z) :
  Forall solid (split_text_into_chunks t chunk_size chunk_overlap).
Proof.
  pose proof (split_text_into_chunks_run t chunk_size chunk_overlap) as H.
  unfold split_text_into_chunks_fuel in H.
  destruct t as [|c t]; [constructor|].
  eapply split_loop_solid; [|exact H]. constructor.
Qed.

Lemma chunk_end_whole (t : text) (chunk_size start : Z) :
  len t <= start + chunk_size -> chunk_end t chunk_size start = len t.
Proof.
  intros H. unfold chunk_end.
  replace (Z.min (start + chunk_size) (len t)) with (len t) by lia.
  now rewrite Z.ltb_irrefl.
Qed.

(** A text of one character: one window, the character itself. *)
Lemma split_one_character (c : char) (chunk_size chunk_overlap : Z) :
  1 <= chunk_size ->
  split_text_into_chunks [c] chunk_size chunk_overlap
  = append_chunk [] (strip [c]).
Proof.
  intros Hsize.
  unfold split_text_into_chunks, split_text_into_chunks_fuel.
  cbn [length split_loop].
  rewrite chunk_end_whole by (change (len [c]) with 1; lia).
  change (len [c]) with 1. change (0 <? 1) with true. cbv iota.
  change (slice [c] 0 1) with [c].
  assert (Hnext : (next_start 0 1 chunk_overlap <? 1) = false).
  { apply Z.ltb_ge. unfold next_start. lia. }
  rewrite Hnext. reflexivity.
Qed.

(** The loop on a few short texts, with a chunk size below, an overlap
    above and a chunk size of zero or less. *)
Example split_small_chunks :
  split_text_into_chunks [65; 66; 10; 67; 68; 69; 12290; 70; 71] 4 1
  = [[65; 66]; [67; 68; 69; 12290]; [12290; 70; 71]; [71]].
Proof. reflexivity. Qed.

Example split_large_overlap :
  split_text_into_chunks [65; 66; 10; 67; 68; 69; 12290; 70; 71] 4 10
  = [[65; 66]; [66]; [67; 68; 69; 12290]; [68; 69; 12290];
     [69; 12290; 70; 71]; [12290; 70; 71]; [70; 71]; [71]].
Proof. reflexivity. Qed.

Example split_negative_size :
  split_text_into_chunks [65; 66; 10; 67; 68; 69; 12290; 70; 71] (-2) 0
  = [[65; 66; 10; 67; 68; 69; 12290]].
Proof. reflexivity. Qed.

Example split_zero_size :
  split_text_into_chunks [65; 66; 10; 67; 68; 69; 12290; 70; 71] 0 0 = [].
Proof. reflexivity. Qed.

(** C8. Whatever the text, the chunk size and the overlap (an overlap of
    at least the chunk size included), every turn of the loop moves [start]
    to [max(end - chunk_overlap, start + 1)], which is strictly larger
    than [start]; so the loop ends within one turn per remaining character,
    and [split_text_into_chunks] returns. *)
Theorem split_text_into_chunks_terminates (t : text) (chunk_size chunk_overlap : Z) :
  (forall start end_,
     next_start start end_ chunk_overlap = Z.max (end_ - chunk_overlap) (start + 1)
     /\ start < next_start start end_ chunk_overlap) /\
  (forall fuel start chunks,
     len t - start <= Z.of_nat fuel ->
     exists r, split_loop fuel t chunk_size chunk_overlap start chunks = Some r) /\
  split_text_into_chunks_fuel (length t) t chunk_size chunk_overlap
  = Some (split_text_into_chunks t chunk_size chunk_overlap).
Proof.
  split; [|split].
  - intros start end_. split; [reflexivity|apply next_start_gt].
  - intros fuel start chunks. apply split_loop_fuel.
  - apply split_text_into_chunks_run.
Qed.

Lemma split_text_into_chunks_terminates_witness :
  exists r, split_loop 3 [65; 66; 67] 2 5 0 [] = Some r.
Proof.
  apply (proj1 (proj2 (split_text_into_chunks_terminates [65; 66; 67] 2 5))).
  vm_compute. discriminate.
Defined.

(** C7, amended. The empty text gives no chunk; a text of one character
    that is not white space gives exactly one chunk (for a chunk size of at
    least one), and a text of one white-space character gives none; a
    window made of white space only adds nothing to the chunks, so no
    chunk of the output is empty or blank. *)
Theorem split_text_into_chunks_boundaries :
  (forall chunk_size chunk_overlap,
     split_text_into_chunks [] chunk_size chunk_overlap = []) /\
  (forall c chunk_size chunk_overlap,
     1 <= chunk_size -> is_space c = false ->
     split_text_into_chunks [c] chunk_size chunk_overlap = [[c]]) /\
  (forall c chunk_size chunk_overlap,
     1 <= chunk_size -> is_space c = true ->
     split_text_into_chunks [c] chunk_size chunk_overlap = []) /\
  (forall chunks window,
     forallb is_space window = true ->
     append_chunk chunks (strip window) = chunks) /\
  (forall t chunk_size chunk_overlap,
     Forall solid (split_text_into_chunks t chunk_size chunk_overlap)).
Proof.
  repeat split.
  - intros c chunk_size chunk_overlap Hsize Hc.
    rewrite split_one_character by exact Hsize.
    now rewrite (strip_not_space c Hc).
  - intros c chunk_size chunk_overlap Hsize Hc.
    rewrite split_one_character by exact Hsize.
    rewrite strip_all_space; [reflexivity|]. simpl. now rewrite Hc.
  - intros chunks window. apply append_chunk_blank.
  - intros t chunk_size chunk_overlap. apply split_text_into_chunks_solid.
Qed.

Lemma split_text_into_chunks_boundaries_witness :
  split_text_into_chunks [65] 100000 300 = [[65]].
Proof.
  apply (proj1 (proj2 split_text_into_chunks_boundaries) 65 100000 300).
  - vm_compute. discriminate.
  - reflexivity.
Defined.

(** C7 as stated fails: the one-character text [" "] gives no chunk. *)
Lemma one_space_gives_no_chunk :
  split_text_into_chunks [32] 100000 300 = [] /\
  length (split_text_into_chunks [32] 100000 300) <> 1%nat.
Proof. split; [reflexivity|vm_compute; discriminate]. Qed.

End TextChunker.

(** ** Summarisation: the pool and the failures *)

Section Summaries.
Import Py SummarizeText.

Variable chat_completion_simple : ChatCall -> Outcome text.
Variable prompts : Prompts.
Variable getenv_API_KEY_302_AI getenv_OPENAI_API_KEY : option text.

(** [summarize_chunk] never raises. *)
Lemma summarize_chunk_returns (chunk : text) (chunk_index total_chunks : Z)
    (api_key model language : text) :
  summarize_chunk chat_completion_simple prompts chunk chunk_index
                  total_chunks api_key model language
  = Returned (chunk_summary chat_completion_simple prompts chunk chunk_index total_chunks api_key model language).
Proof.
  unfold SummarizeText.summarize_chunk, SummarizeText.chunk_summary, try_except.
  now destruct (chat_completion_simple _).
Qed.

Lemma enumerate_lookup {A} (l : list A) :
  forall start pos p,
    enumerate l start !! pos = Some p ->
    fst p = start + Z.of_nat pos /\ l !! pos = Some (snd p).
Proof.
  induction l as [|a l IH]; intros start pos p; simpl; [discriminate|].
  destruct pos as [|pos]; simpl.
  - intros [= <-]. simpl. split; [lia|reflexivity].
  - intros H. apply IH in H as [H1 H2]. split; [lia|exact H2].
Qed.

Lemma enumerate_length {A} (l : list A) (start : Z) :
  length (enumerate l start) = length l.
Proof. revert start. induction l; intros; simpl; auto. Qed.

Lemma enumerate_fst {A} (l : list A) (start : Z) :
  map fst (enumerate l start) = seqZ start (len l).
Proof.
  revert start. induction l as [|a l IH]; intros start; [reflexivity|].
  unfold len. cbn [length enumerate map fst].
  rewrite Nat2Z.inj_succ, seqZ_cons by lia. f_equal.
  rewrite IH. unfold len. f_equal; lia.
Qed.

Lemma sequential_in_order (indexed : list (Z * text)) (total_chunks : Z)
    (api_key model language : text) :
  summarize_sequentially chat_completion_simple prompts indexed total_chunks
                         api_key model language
  = Returned
      (map (fun p => chunk_summary chat_completion_simple prompts (snd p) (fst p)
                                   total_chunks api_key model language) indexed).
Proof.
  induction indexed as [|[i chunk] rest IH]; [reflexivity|].
  cbn [summarize_sequentially]. rewrite summarize_chunk_returns, IH.
  reflexivity.
Qed.

(** Once the future at [pos] has completed, its summary sits under its
    chunk index, whatever completed before or after it. *)
Lemma collect_lookup (chunks : list text) (total_chunks : Z)
    (api_key model language : text) (completion_order : list nat)
    (pos : nat) (p : Z * text) :
  enumerate chunks 1 !! pos = Some p ->
  pos ∈ completion_order ->
  SummarizeText.collect
    (submit_all chat_completion_simple prompts chunks total_chunks
                api_key model language) completion_order
    !! fst p
  = Some (chunk_summary chat_completion_simple prompts (snd p) (fst p)
                        total_chunks api_key model language).
Proof.
  intros Hp. unfold SummarizeText.collect.
  induction completion_order as [|q order IH] using rev_ind.
  - intros H. inversion H.
  - intros Hin. rewrite fold_left_app. cbn [fold_left].
    unfold SummarizeText.collect_step at 1. unfold SummarizeText.submit_all at 1.
    rewrite list_lookup_fmap.
    destruct (enumerate chunks 1 !! q) as [p'|] eqn:Hq; cbn [fmap option_fmap option_map].
    + rewrite summarize_chunk_returns. cbn [fst].
      destruct (decide (q = pos)) as [->|Hne].
      * rewrite Hp in Hq. injection Hq as <-. apply lookup_insert_eq.
      * apply enumerate_lookup in Hq as Hq'. apply enumerate_lookup in Hp as Hp'.
        rewrite lookup_insert_ne by (destruct Hq', Hp'; lia).
        apply IH. apply elem_of_app in Hin as [Hin|Hin]; [exact Hin|].
        apply list_elem_of_singleton in Hin. congruence.
    + apply IH. apply elem_of_app in Hin as [Hin|Hin]; [exact Hin|].
      apply list_elem_of_singleton in Hin. subst q. congruence.
Qed.

Lemma omap_map_Some {A B C} (f : B -> option C) (h : A -> B) (g : A -> C)
    (l : list A) :
  (forall a, a ∈ l -> f (h a) = Some (g a)) ->
  omap f (map h l) = map g l.
Proof.
  induction l as [|a l IH]; intros H; [reflexivity|].
  cbn. rewrite (H a) by left.
  rewrite IH; [reflexivity|]. intros b Hb. apply H. now right.
Qed.

(** The pool hands the summaries back in the order of the chunks, in
    whatever order the futures complete. *)
Lemma concurrent_in_order (chunks : list text) (api_key model language : text)
    (completion_order : list nat) :
  completion_order ≡ₚ seq 0 (length chunks) ->
  assemble
    (SummarizeText.collect
       (submit_all chat_completion_simple prompts chunks (len chunks)
                   api_key model language) completion_order)
    (len chunks)
  = summaries_in_order chat_completion_simple prompts chunks (len chunks)
                       api_key model language.
Proof.
  intros Hperm. unfold assemble, SummarizeText.summaries_in_order.
  rewrite <- (enumerate_fst chunks 1).
  apply omap_map_Some. intros p Hp.
  apply list_elem_of_lookup in Hp as [pos Hpos].
  apply collect_lookup with (pos := pos); [exact Hpos|].
  rewrite Hperm. apply elem_of_seq.
  apply lookup_lt_Some in Hpos. rewrite enumerate_length in Hpos. lia.
Qed.

Lemma summarize_chunks_in_order (chunks : list text)
    (api_key model language : text) (enable_async : bool) (max_workers : Z)
    (completion_order : list nat) :
  (enable_async = true ->
   0 < max_workers /\ completion_order ≡ₚ seq 0 (length chunks)) ->
  summarize_chunks chat_completion_simple prompts chunks (len chunks)
                   api_key model language enable_async max_workers
                   completion_order
  = Returned (summaries_in_order chat_completion_simple prompts chunks
                                 (len chunks) api_key model language).
Proof.
  intros Hasync. unfold summarize_chunks.
  destruct (enable_async && (1 <? len chunks)) eqn:Hpool.
  - apply andb_true_iff in Hpool as [-> _].
    destruct Hasync as [Hworkers Hperm]; [reflexivity|].
    apply Z.leb_gt in Hworkers. rewrite Hworkers.
    now rewrite concurrent_in_order.
  - apply sequential_in_order.
Qed.

Lemma enumerate_lookup_Some {A} (l : list A) :
  forall start pos a,
    l !! pos = Some a ->
    enumerate l start !! pos = Some (start + Z.of_nat pos, a).
Proof.
  induction l as [|x l IH]; intros start pos a Hl; [discriminate|].
  destruct pos as [|pos]; cbn [enumerate].
  - injection Hl as ->. cbn. now rewrite Z.add_0_r.
  - change ((x :: l) !! S pos) with (l !! pos) in Hl.
    change (((start, x) :: enumerate l (start + 1)) !! S pos)
      with (enumerate l (start + 1) !! pos).
    rewrite (IH (start + 1) pos a Hl). do 2 f_equal. lia.
Qed.

(** C9. With an API key, a text that is not blank and more than one
    chunk: step 2 returns a list with one entry per chunk, in the order
    of the chunks. The entry of a chunk is the summary its call returned
    or, when its call raised [e], the placeholder: an opening bracket,
    the four characters of "summary failed", a colon and a space, then
    [str(e)] and a closing bracket. A failed chunk call thus never makes
    [summarize_text] raise; the outcome is decided by the final call
    alone, made on that list, whose result is returned and whose failure
    is raised to the caller. *)
Theorem summarize_text_failures (t : text) (api_key : option text)
    (model : text) (chunk_size chunk_overlap : Z) (language : text)
    (enable_async : bool) (max_workers : Z) (completion_order : list nat)
    (key : text) :
  let chunks := split_text_into_chunks t chunk_size chunk_overlap in
  let summaries :=
    summaries_in_order chat_completion_simple prompts chunks (len chunks)
                       key model language in
  let result :=
    summarize_text chat_completion_simple prompts getenv_API_KEY_302_AI
                   getenv_OPENAI_API_KEY t api_key model chunk_size
                   chunk_overlap language enable_async max_workers
                   completion_order in
  resolve_api_key getenv_API_KEY_302_AI getenv_OPENAI_API_KEY api_key
  = Returned key ->
  is_empty t || is_empty (strip t) = false ->
  (2 <= length chunks)%nat ->
  (enable_async = true ->
   0 < max_workers /\ completion_order ≡ₚ seq 0 (length chunks)) ->
  (summarize_chunks chat_completion_simple prompts chunks (len chunks) key
                    model language enable_async max_workers completion_order
   = Returned summaries
   /\ length summaries = length chunks
   /\ forall i chunk,
        chunks !! i = Some chunk ->
        summaries !! i
        = Some match chat_completion_simple
                       (chunk_call prompts chunk (1 + Z.of_nat i) (len chunks)
                                   key model language)
               with
               | Returned summary => summary
               | Raised e =>
                   [91; 32317; 32080; 22833; 25943; 58; 32]
                   ++ match e with
                      | ValueError msg | KeyError msg | Exception msg => msg
                      end
                   ++ [93]
               end) /\
  (forall summary,
     chat_completion_simple (final_call prompts summaries key model language)
     = Returned summary ->
     result = Returned summary) /\
  (forall e,
     chat_completion_simple (final_call prompts summaries key model language)
     = Raised e ->
     result
     = Raised (Exception
                 ([29983; 25104; 26368; 32066; 32317; 32080; 26178; 30332;
                   29983; 37679; 35492; 58; 32]
                  ++ match e with
                     | ValueError msg | KeyError msg | Exception msg => msg
                     end))).
Proof.
  intros chunks summaries result Hkey Htext Hchunks Hasync.
  assert (Hstep :
    summarize_chunks chat_completion_simple prompts chunks (len chunks) key
                     model language enable_async max_workers completion_order
    = Returned summaries)
    by (apply summarize_chunks_in_order; exact Hasync).
  assert (Hresult :
    result = reduce_summaries chat_completion_simple prompts summaries
                              key model language).
  { subst result. unfold summarize_text.
    rewrite Hkey. cbn [bind]. rewrite Htext. cbv zeta.
    fold chunks. revert Hstep. subst summaries. clearbody chunks. clear Hasync.
    destruct chunks as [|c1 [|c2 rest]];
      [simpl in Hchunks; lia | simpl in Hchunks; lia |].
    intros ->. reflexivity. }
  split; [split; [exact Hstep|split]|split].
  - subst summaries. unfold summaries_in_order.
    now rewrite length_map, enumerate_length.
  - intros i chunk Hi. subst summaries. unfold summaries_in_order.
    rewrite list_lookup_fmap, (enumerate_lookup_Some chunks 1 i chunk Hi).
    reflexivity.
  - intros summary Hs. rewrite Hresult. unfold reduce_summaries.
    now rewrite Hs.
  - intros e He. rewrite Hresult. unfold reduce_summaries. now rewrite He.
Qed.

End Summaries.

(** A run of [summarize_text] in which every chunk call times out and the
    final call answers with its prompt. *)
Lemma summarize_text_failures_witness :
  let chat call :=
    if SummarizeText.cc_max_tokens call =? 8000
    then Py.Raised (Py.Exception (Py.str "timeout"))
    else Py.Returned (SummarizeText.cc_prompt call) in
  let prompts :=
    {| SummarizeText.chunk_system_prompt := fun language => language;
       SummarizeText.chunk_prompt := fun _ _ chunk => chunk;
       SummarizeText.final_system_prompt := fun language => language;
       SummarizeText.final_prompt := fun combined => combined |} in
  SummarizeText.summarize_text chat prompts None None
    [65; 66; 10; 67; 68] (Some (Py.str "key")) (Py.str "chatgpt-4o-latest")
    3 0 (Py.str "en") true 5 [1%nat; 0%nat]
  = Py.Returned
      (SummarizeText.combined_summaries
         [SummarizeText.summary_failed (Py.Exception (Py.str "timeout"));
          SummarizeText.summary_failed (Py.Exception (Py.str "timeout"))]).
Proof.
  intros chat prompts.
  apply (proj1 (proj2 (summarize_text_failures chat prompts None None
           [65; 66; 10; 67; 68] (Some (Py.str "key"))
           (Py.str "chatgpt-4o-latest") 3 0 (Py.str "en") true 5
           [1%nat; 0%nat] (Py.str "key")
           eq_refl eq_refl ltac:(vm_compute; lia)
           (fun _ => conj eq_refl (perm_swap 0%nat 1%nat []))))).
  reflexivity.
Defined.

(** ** Stable sorting *)

Section StableSortFacts.
Import StableSort.
Context {A : Type} (leb : A -> A -> bool).
Hypothesis leb_total : forall x y, leb x y = true \/ leb y x = true.
Hypothesis leb_trans :
  forall x y z, leb x y = true -> leb y z = true -> leb x z = true.

Lemma same_key_refl (x : A) : same_key leb x x = true.
Proof. unfold same_key. destruct (leb_total x x) as [H|H]; now rewrite H. Qed.

Lemma same_key_sym (x y : A) : same_key leb x y = same_key leb y x.
Proof. unfold same_key. apply andb_comm. Qed.

Lemma same_key_le (x y : A) : same_key leb x y = true -> le leb x y /\ le leb y x.
Proof. unfold same_key, le. intros H. now apply andb_true_iff in H. Qed.

Lemma same_key_trans (x y z : A) :
  same_key leb x y = true -> same_key leb y z = true ->
  same_key leb x z = true.
Proof.
  intros [H1 H2]%same_key_le [H3 H4]%same_key_le.
  unfold same_key. apply andb_true_iff. split; eapply leb_trans; eauto.
Qed.

Lemma insert_perm (x : A) (l : list A) : insert leb x l ≡ₚ x :: l.
Proof.
  induction l as [|y l IH]; simpl; [reflexivity|].
  destruct (leb x y); [reflexivity|].
  rewrite IH. apply perm_swap.
Qed.

Lemma sort_perm (l : list A) : sort leb l ≡ₚ l.
Proof.
  induction l as [|x l IH]; simpl; [reflexivity|].
  now rewrite insert_perm, IH.
Qed.

Lemma insert_sorted (x : A) (l : list A) :
  StronglySorted (le leb) l -> StronglySorted (le leb) (insert leb x l).
Proof.
  induction 1 as [|y l Hs IH Hy]; simpl.
  - repeat constructor.
  - destruct (leb x y) eqn:Hxy.
    + constructor; [now constructor|].
      constructor; [exact Hxy|].
      eapply Forall_impl; [exact Hy|]. intros z Hz. eapply leb_trans; eauto.
    + constructor; [exact IH|].
      rewrite insert_perm. constructor; [|exact Hy].
      destruct (leb_total x y) as [H|H]; [congruence|exact H].
Qed.

Lemma sort_sorted (l : list A) : StronglySorted (le leb) (sort leb l).
Proof.
  induction l as [|x l IH]; simpl; [constructor|].
  now apply insert_sorted.
Qed.

(** Inserting an element does not disturb the order of the elements that
    share a key. *)
Lemma filter_insert (z x : A) (l : list A) :
  List.filter (same_key leb z) (insert leb x l)
  = List.filter (same_key leb z) (x :: l).
Proof.
  induction l as [|y l IH]; [reflexivity|].
  cbn [insert]. destruct (leb x y) eqn:Hxy; [reflexivity|].
  cbn [List.filter] in *. rewrite IH.
  destruct (same_key leb z x) eqn:Hx, (same_key leb z y) eqn:Hy; try reflexivity.
  exfalso.
  rewrite same_key_sym in Hx.
  destruct (same_key_le _ _ (same_key_trans _ _ _ Hx Hy)) as [H _].
  unfold le in H. congruence.
Qed.

(** Stability: elements with the same key keep their relative order. *)
Lemma filter_sort (z : A) (l : list A) :
  List.filter (same_key leb z) (sort leb l) = List.filter (same_key leb z) l.
Proof.
  induction l as [|x l IH]; [reflexivity|].
  cbn [sort fold_right]. rewrite filter_insert.
  cbn [List.filter]. fold (sort leb l). now rewrite IH.
Qed.

Lemma filter_head_in (p : A -> bool) (x : A) (l1 l2 : list A) :
  List.filter p l2 = x :: l1 -> In x l2.
Proof.
  intros H. assert (Hin : In x (List.filter p l2)) by (rewrite H; now left).
  now apply filter_In in Hin.
Qed.

(** A sorted list is determined by the sequences of its elements of each
    key: there is one stable sorted arrangement. *)
Lemma sorted_unique (l1 : list A) :
  forall l2,
    StronglySorted (le leb) l1 -> StronglySorted (le leb) l2 ->
    (forall z, List.filter (same_key leb z) l1 = List.filter (same_key leb z) l2) ->
    l1 = l2.
Proof.
  induction l1 as [|a l1 IH]; intros [|b l2] Hs1 Hs2 H.
  - reflexivity.
  - specialize (H b). cbn [List.filter] in H.
    rewrite same_key_refl in H. discriminate.
  - specialize (H a). cbn [List.filter] in H.
    rewrite same_key_refl in H. discriminate.
  - apply StronglySorted_inv in Hs1 as [Hs1 Ha].
    apply StronglySorted_inv in Hs2 as [Hs2 Hb].
    assert (Hab : a = b).
    { pose proof (H a) as Hza. pose proof (H b) as Hzb.
      cbn [List.filter] in Hza, Hzb.
      rewrite same_key_refl in Hza. rewrite same_key_refl in Hzb.
      rewrite (same_key_sym b a) in Hzb.
      destruct (same_key leb a b) eqn:Hk; [congruence|].
      exfalso.
      symmetry in Hza. apply filter_head_in in Hza.
      apply filter_head_in in Hzb.
      rewrite List.Forall_forall in Ha, Hb.
      specialize (Ha b Hzb). specialize (Hb a Hza).
      unfold same_key, le in *. rewrite Ha, Hb in Hk. discriminate. }
    subst b. f_equal. apply IH; [exact Hs1|exact Hs2|].
    intros z. specialize (H z). cbn [List.filter] in H.
    destruct (same_key leb z a); congruence.
Qed.

(** The sorted list depends only on the sequences of equal-key elements. *)
Lemma sort_ext (l1 l2 : list A) :
  (forall z, List.filter (same_key leb z) l1 = List.filter (same_key leb z) l2) ->
  sort leb l1 = sort leb l2.
Proof.
  intros H. apply sorted_unique; try apply sort_sorted.
  intros z. now rewrite !filter_sort.
Qed.

(** Any sorted, stable arrangement of [l] is [sort leb l]. *)
Lemma sort_unique (l l' : list A) :
  StronglySorted (le leb) l' ->
  (forall z, List.filter (same_key leb z) l' = List.filter (same_key leb z) l) ->
  l' = sort leb l.
Proof.
  intros Hs H. apply sorted_unique; [exact Hs|apply sort_sorted|].
  intros z. now rewrite filter_sort.
Qed.

End StableSortFacts.

(** ** The result merger *)

Section Merger.
Import Py TranscribeAudio.

Lemma start_leb_total (a b : Segment) :
  start_leb a b = true \/ start_leb b a = true.
Proof.
  unfold start_leb. rewrite !Qle_bool_iff.
  destruct (Qlt_le_dec (seg_start b) (seg_start a)) as [H|H]; [right|left];
    lra.
Qed.

Lemma start_leb_trans (a b c : Segment) :
  start_leb a b = true -> start_leb b c = true -> start_leb a c = true.
Proof. unfold start_leb. rewrite !Qle_bool_iff. lra. Qed.

Lemma same_start_iff (a b : Segment) :
  same_start a b = true <-> (seg_start a == seg_start b)%Q.
Proof.
  unfold same_start, StableSort.same_key, start_leb.
  rewrite andb_true_iff, !Qle_bool_iff. split; [intros []|intros; split]; lra.
Qed.

Lemma strongly_sorted_weaken {B} (R R' : B -> B -> Prop) (l : list B) :
  (forall a b, R a b -> R' a b) -> StronglySorted R l -> StronglySorted R' l.
Proof.
  intros HR. induction 1 as [|a l Hs IH Ha]; constructor; [exact IH|].
  eapply Forall_impl; [exact Ha|]. intros b. apply HR.
Qed.

Lemma sort_by_start_sorted (l : list Segment) :
  sorted_by_start (sort_by_start l).
Proof.
  unfold sorted_by_start, sort_by_start.
  apply strongly_sorted_weaken with (R := StableSort.le start_leb).
  - intros a b. unfold StableSort.le, start_leb. now rewrite Qle_bool_iff.
  - apply sort_sorted; [apply start_leb_total|apply start_leb_trans].
Qed.

Lemma sort_by_start_keeps_ties (l : list Segment) :
  keeps_ties l (sort_by_start l).
Proof.
  intros z. apply filter_sort. apply start_leb_trans.
Qed.

Lemma sort_by_start_perm (l : list Segment) : sort_by_start l ≡ₚ l.
Proof. apply sort_perm. Qed.

Lemma filter_concat {B} (p : B -> bool) (L : list (list B)) :
  List.filter p (concat L) = concat (map (List.filter p) L).
Proof.
  induction L as [|a L IH]; [reflexivity|].
  simpl. now rewrite List.filter_app, IH.
Qed.

Lemma concat_all_nil {B} (L : list (list B)) :
  (forall a, In a L -> a = []) -> concat L = [].
Proof.
  induction L as [|a L IH]; intros H; [reflexivity|].
  simpl. rewrite (H a) by now left. apply IH. intros b Hb. apply H. now right.
Qed.

Lemma filter_perm {B} (p : B -> bool) (l l' : list B) :
  l ≡ₚ l' -> List.filter p l ≡ₚ List.filter p l'.
Proof.
  induction 1 as [|x l l' _ IH|x y l|l l' l'' _ IH1 _ IH2]; cbn [List.filter].
  - reflexivity.
  - destruct (p x); now rewrite IH.
  - destruct (p x), (p y); try reflexivity. apply perm_swap.
  - now rewrite IH1.
Qed.

Lemma concat_filter_nonempty {B} (L : list (list B)) :
  concat (List.filter nonempty L) = concat L.
Proof.
  induction L as [|a L IH]; [reflexivity|].
  cbn [List.filter concat]. destruct a as [|x a]; cbn; now rewrite IH.
Qed.

(** With at most one list that is not empty, a list of lists keeps its
    concatenation under any permutation. *)
Lemma concat_perm_single {B} (L L' : list (list B)) :
  L ≡ₚ L' ->
  (forall i j a b, i <> j -> L !! i = Some a -> L !! j = Some b ->
                   a = [] \/ b = []) ->
  concat L' = concat L.
Proof.
  intros Hperm Hone.
  rewrite <- (concat_filter_nonempty L), <- (concat_filter_nonempty L').
  apply (filter_perm nonempty) in Hperm.
  assert (Hshort : (length (List.filter nonempty L) <= 1)%nat).
  { clear Hperm L'. induction L as [|a L IH]; [simpl; lia|].
    cbn [List.filter].
    assert (IH' : (length (List.filter nonempty L) <= 1)%nat).
    { apply IH. intros i j b c Hij Hi Hj. apply (Hone (S i) (S j)); auto. }
    destruct a as [|x a]; cbn [nonempty]; [exact IH'|].
    assert (Hnil : List.filter nonempty L = []).
    { destruct (List.filter nonempty L) as [|b N] eqn:E; [reflexivity|].
      assert (Hb : In b (List.filter nonempty L)) by (rewrite E; now left).
      apply filter_In in Hb as [Hb Hne].
      apply list_elem_of_In, list_elem_of_lookup in Hb as [j Hj].
      destruct (Hone 0%nat (S j) (x :: a) b) as [F|F]; auto;
        [discriminate|subst b; discriminate]. }
    rewrite Hnil. simpl. lia. }
  destruct (List.filter nonempty L) as [|a [|b N]]; [| |simpl in Hshort; lia].
  - now rewrite (Permutation_nil Hperm).
  - now rewrite (Permutation_length_1_inv Hperm).
Qed.

(** Segments that start at the same time come from one result when no
    start is shared, so they come in the same order whatever the order
    of the results. *)
Lemma all_segments_perm_filter (results results' : list Transcription)
    (z : Segment) :
  results ≡ₚ results' ->
  no_shared_start results ->
  List.filter (same_start z) (all_segments results')
  = List.filter (same_start z) (all_segments results).
Proof.
  intros Hperm Hno. unfold all_segments. rewrite !filter_concat.
  apply concat_perm_single.
  { apply Permutation_map. now apply Permutation_map. }
  intros i j a b Hij Hi Hj.
  rewrite !list_lookup_fmap in Hi, Hj.
  destruct (results !! i) as [ri|] eqn:Ei; [|discriminate].
  destruct (results !! j) as [rj|] eqn:Ej; [|discriminate].
  cbn in Hi, Hj. injection Hi as <-. injection Hj as <-.
  destruct (List.filter (same_start z) (get_segments_or_empty ri))
    as [|si a] eqn:Ea; [now left|].
  destruct (List.filter (same_start z) (get_segments_or_empty rj))
    as [|sj b] eqn:Eb; [now right|].
  exfalso.
  assert (Hsi : In si (List.filter (same_start z) (get_segments_or_empty ri)))
    by (rewrite Ea; now left).
  assert (Hsj : In sj (List.filter (same_start z) (get_segments_or_empty rj)))
    by (rewrite Eb; now left).
  apply filter_In in Hsi as [Hsi Hzi]. apply filter_In in Hsj as [Hsj Hzj].
  specialize (Hno i j ri rj si sj Hij Ei Ej Hsi Hsj).
  apply same_start_iff in Hzi, Hzj.
  assert (Hsame : same_start si sj = true) by (apply same_start_iff; lra).
  congruence.
Qed.

Lemma all_segments_perm (results results' : list Transcription) :
  results ≡ₚ results' -> all_segments results' ≡ₚ all_segments results.
Proof.
  intros Hperm. unfold all_segments. symmetry.
  induction Hperm as [|r l l' _ IH|r r' l|l l' l'' _ IH1 _ IH2];
    cbn [map concat].
  - reflexivity.
  - now rewrite IH.
  - rewrite !app_assoc. apply Permutation_app_tail, Permutation_app_comm.
  - now rewrite IH1.
Qed.

(** Merging is independent of the order of the results, as far as the
    segments go, when no start is shared between results. *)
Lemma merged_segments_perm (results results' : list Transcription) :
  results ≡ₚ results' ->
  sort_by_start (all_segments results') ≡ₚ sort_by_start (all_segments results)
  /\ (no_shared_start results ->
      sort_by_start (all_segments results')
      = sort_by_start (all_segments results)).
Proof.
  intros Hperm. split.
  - now rewrite !sort_by_start_perm, (all_segments_perm _ _ Hperm).
  - intros Hno. apply sort_ext;
      [apply start_leb_total|apply start_leb_trans|].
    intros z. now apply all_segments_perm_filter.
Qed.

Lemma merged_tr_segments (results : list Transcription) :
  tr_segments (merge_transcription_results results)
  = Some (sort_by_start (all_segments results)).
Proof. destruct results; reflexivity. Qed.

Lemma merged_segments (results : list Transcription) :
  get_segments_or_empty (merge_transcription_results results)
  = sort_by_start (all_segments results).
Proof. destruct results; reflexivity. Qed.

Lemma first_known_language_first (first : Transcription)
    (rest : list Transcription) :
  get_language first <> unknown ->
  first_known_language (first :: rest) = get_language first.
Proof.
  intros H. cbn [first_known_language]. now rewrite bool_decide_eq_false_2.
Qed.

(** C10. Merging no result at all gives a transcript without segments
    whose language is ["unknown"]. *)
Theorem merge_no_results :
  merge_transcription_results []
  = {| tr_segments := Some []; tr_language := Some (str "unknown") |}.
Proof. reflexivity. Qed.

Lemma first_known_language_unknown (results : list Transcription) :
  Forall (fun r => get_language r = unknown) results ->
  first_known_language results = unknown.
Proof.
  induction 1 as [|r results Hr _ IH]; [reflexivity|].
  cbn [first_known_language]. now rewrite bool_decide_eq_true_2.
Qed.

(** C4, amended. The language of the merged transcript is the language of
    the first result of the list, ["unknown"] when that result carries
    none, whatever the languages of the later results. It is the first
    language that is not ["unknown"] when the first result has one or
    when no result has one; a first result marked ["unknown"] makes the
    merged language ["unknown"]. *)
Theorem merged_language_is_first (first : Transcription)
    (rest : list Transcription) :
  let merged := merge_transcription_results (first :: rest) in
  tr_language merged = Some (get_language first)
  /\ get_language first = default (str "unknown") (tr_language first)
  /\ (get_language first <> str "unknown" ->
      get_language merged = first_known_language (first :: rest))
  /\ (Forall (fun r => get_language r = str "unknown") (first :: rest) ->
      get_language merged = first_known_language (first :: rest))
  /\ (get_language first = str "unknown" ->
      get_language merged = str "unknown").
Proof.
  cbv zeta.
  assert (Hfirst : get_language (merge_transcription_results (first :: rest))
                   = get_language first) by reflexivity.
  split; [reflexivity|]. split; [reflexivity|]. rewrite Hfirst.
  split; [|split].
  - intros Hknown. symmetry. now apply first_known_language_first.
  - intros Hall. rewrite (first_known_language_unknown _ Hall).
    now inversion Hall.
  - intros Hunknown. exact Hunknown.
Qed.

Lemma merged_language_is_first_witness :
  let results :=
    [ {| tr_segments := Some []; tr_language := Some (str "en") |};
      {| tr_segments := Some []; tr_language := Some (str "unknown") |} ] in
  get_language (merge_transcription_results results)
  = first_known_language results.
Proof.
  intros results.
  apply (proj1 (proj2 (proj2
           (merged_language_is_first
              {| tr_segments := Some []; tr_language := Some (str "en") |}
              [ {| tr_segments := Some [];
                   tr_language := Some (str "unknown") |} ])))).
  vm_compute. discriminate.
Defined.

(** C4 as stated fails: a first result marked ["unknown"] hides the
    language of the second. *)
Lemma merged_language_not_first_known :
  let results :=
    [ {| tr_segments := Some []; tr_language := Some (str "unknown") |};
      {| tr_segments := Some []; tr_language := Some (str "en") |} ] in
  get_language (merge_transcription_results results) = str "unknown"
  /\ first_known_language results = str "en"
  /\ get_language (merge_transcription_results results)
     <> first_known_language results.
Proof. vm_compute. repeat split. discriminate. Qed.

(** C5, amended. Merging sorts the concatenated segments by start with a
    stable sort: the merged sequence never decreases in start, and segments
    that start at the same time keep the order of the concatenation. The
    results given in reverse order merge to a permutation of the forward
    merge, and to the very same sequence when no two segments of different
    results start at the same time (this holds for the results given in
    any order); the two transcripts are then equal when the first and the
    last result carry the same language. *)
Theorem merge_reverse_order (results : list Transcription) :
  let forward := get_segments_or_empty (merge_transcription_results results) in
  let backward :=
    get_segments_or_empty (merge_transcription_results (rev results)) in
  sorted_by_start forward /\ sorted_by_start backward
  /\ keeps_ties (all_segments results) forward
  /\ keeps_ties (all_segments (rev results)) backward
  /\ backward ≡ₚ forward
  /\ (no_shared_start results -> backward = forward)
  /\ (forall results',
        results ≡ₚ results' -> no_shared_start results ->
        get_segments_or_empty (merge_transcription_results results')
        = forward)
  /\ (no_shared_start results ->
      get_language <$> head results = get_language <$> head (rev results) ->
      merge_transcription_results (rev results)
      = merge_transcription_results results).
Proof.
  cbv zeta. rewrite !merged_segments.
  destruct (merged_segments_perm results (rev results) (Permutation_rev results))
    as [Hperm Hsegs].
  repeat split.
  - apply sort_by_start_sorted.
  - apply sort_by_start_sorted.
  - apply sort_by_start_keeps_ties.
  - apply sort_by_start_keeps_ties.
  - exact Hperm.
  - exact Hsegs.
  - intros results' Hany Hno. rewrite merged_segments.
    now apply merged_segments_perm.
  - intros Hno Hlang. specialize (Hsegs Hno).
    destruct results as [|r results]; [reflexivity|].
    destruct (rev (r :: results)) as [|r' results'] eqn:E.
    { apply (f_equal (@length _)) in E. rewrite length_rev in E. discriminate. }
    unfold merge_transcription_results. rewrite Hsegs.
    cbn in Hlang. injection Hlang as Hlang. now rewrite Hlang.
Qed.

Lemma merge_reverse_order_witness :
  let s1 := {| seg_text := str "a"; seg_start := 60; seg_end := 61;
               seg_words := None |} in
  let s0 := {| seg_text := str "b"; seg_start := 0; seg_end := 1;
               seg_words := None |} in
  let results :=
    [ {| tr_segments := Some [s1]; tr_language := Some (str "en") |};
      {| tr_segments := Some [s0]; tr_language := Some (str "en") |} ] in
  merge_transcription_results (rev results)
  = merge_transcription_results results.
Proof.
  intros s1 s0 results.
  apply (proj2 (proj2 (proj2 (proj2 (proj2 (proj2 (proj2
           (merge_reverse_order results)))))))).
  - intros [|[|i]] [|[|j]] ri rj si sj Hij Hi Hj Hsi Hsj;
      try congruence; try discriminate;
      cbn in Hi, Hj; injection Hi as <-; injection Hj as <-;
      cbn in Hsi, Hsj; destruct Hsi as [<-|[]]; destruct Hsj as [<-|[]];
      reflexivity.
  - reflexivity.
Defined.

(** C5 as stated fails: two results whose segments start at the same time
    merge in the order in which they are given. *)
Lemma merge_reverse_order_differs :
  let results :=
    [ {| tr_segments :=
           Some [ {| seg_text := str "a"; seg_start := 60; seg_end := 61;
                     seg_words := None |} ];
         tr_language := Some (str "en") |};
      {| tr_segments :=
           Some [ {| seg_text := str "b"; seg_start := 60; seg_end := 62;
                     seg_words := None |} ];
         tr_language := Some (str "en") |} ] in
  merge_transcription_results (rev results)
  <> merge_transcription_results results.
Proof. vm_compute. discriminate. Qed.

End Merger.

(** ** The segment transcriber *)

Section Transcriber.
Import Py TranscribeAudio.

Context {Audio Model AlignModel AlignMetadata : Type}.
Variable load_audio : AudioFile -> Outcome Audio.
Variable model_transcribe :
  Model -> Audio -> Z -> option text -> Outcome Transcription.
Variable whisperx_align :
  list Segment -> AlignModel -> AlignMetadata -> Audio -> text ->
  Outcome Alignment.

Lemma has_text_shift (c : Q) (s : Segment) :
  has_text (shift_segment c s) = has_text s.
Proof. reflexivity. Qed.

Lemma filter_has_text_shift (c : Q) (segs : list Segment) :
  List.filter has_text (map (shift_segment c) segs)
  = map (shift_segment c) (List.filter has_text segs).
Proof.
  induction segs as [|s segs IH]; [reflexivity|].
  cbn [map List.filter]. rewrite has_text_shift.
  destruct (has_text s); cbn [map]; now rewrite IH.
Qed.

(** The body of [transcribe_chunk] once the audio is loaded and the model
    has answered with segments. *)
Lemma transcribe_chunk_transcribed (chunk_file : AudioFile) (chunk_start : Q)
    (model : Model) (device : text) (batch_size : Z) (language : option text)
    (align_model : option AlignModel) (align_metadata : option AlignMetadata)
    (chunk_audio : Audio) (result : Transcription) (segs : list Segment) :
  load_audio chunk_file = Returned chunk_audio ->
  model_transcribe model chunk_audio batch_size language = Returned result ->
  tr_segments result = Some segs ->
  transcribe_chunk load_audio model_transcribe whisperx_align chunk_file
                   chunk_start model device batch_size language align_model
                   align_metadata
  = Returned
      (with_segments result
         match align_model, align_metadata with
         | Some am, Some md =>
             map (shift_segment chunk_start)
                 (align_segments whisperx_align
                    (map (shift_segment chunk_start) segs) am md chunk_audio
                    device)
         | _, _ => map (shift_segment chunk_start) segs
         end).
Proof.
  intros Hload Htr Hsegs.
  unfold transcribe_chunk, transcribe_chunk_body, get_segments.
  rewrite Hload. cbn [bind]. rewrite Htr. cbn [bind]. rewrite Hsegs.
  cbn [bind]. destruct align_model, align_metadata; reflexivity.
Qed.

(** Where the shift is applied once: no alignment asked for, and alignment
    that returned segments (shifted once after [whisperx.align]). *)
Lemma transcribe_chunk_shifts_once (chunk_file : AudioFile) (chunk_start : Q)
    (model : Model) (device : text) (batch_size : Z) (language : option text)
    (align_model : option AlignModel) (align_metadata : option AlignMetadata)
    (chunk_audio : Audio) (result : Transcription) (segs : list Segment) :
  load_audio chunk_file = Returned chunk_audio ->
  model_transcribe model chunk_audio batch_size language = Returned result ->
  tr_segments result = Some segs ->
  (align_model = None \/ align_metadata = None ->
   transcribe_chunk load_audio model_transcribe whisperx_align chunk_file
                    chunk_start model device batch_size language align_model
                    align_metadata
   = Returned (with_segments result (map (shift_segment chunk_start) segs)))
  /\
  (forall am md aligned_result aligned,
     align_model = Some am -> align_metadata = Some md ->
     List.filter has_text segs <> [] ->
     whisperx_align
       (List.filter has_text (map (shift_segment chunk_start) segs))
       am md chunk_audio device
     = Returned aligned_result ->
     al_segments aligned_result = Some aligned ->
     transcribe_chunk load_audio model_transcribe whisperx_align chunk_file
                      chunk_start model device batch_size language align_model
                      align_metadata
     = Returned (with_segments result (map (shift_segment chunk_start) aligned))).
Proof.
  intros Hload Htr Hsegs.
  rewrite (transcribe_chunk_transcribed _ _ _ _ _ _ _ _ _ _ _ Hload Htr Hsegs).
  split.
  - intros [-> | ->]; [reflexivity|]. now destruct align_model.
  - intros am md aligned_result aligned -> -> Hvalid Halign Haligned.
    unfold align_segments.
    destruct (List.filter has_text (map (shift_segment chunk_start) segs))
      as [|v valid] eqn:E.
    + rewrite filter_has_text_shift in E.
      destruct (List.filter has_text segs); [congruence|discriminate].
    + now rewrite Halign, Haligned.
Qed.

Lemma shift_twice_start (c : Q) (s : Segment) :
  seg_start (shift_segment c (shift_segment c s)) = (seg_start s + c + c)%Q
  /\ seg_end (shift_segment c (shift_segment c s)) = (seg_end s + c + c)%Q.
Proof. split; reflexivity. Qed.

Lemma shift_keep_shift_start (c : Q) (s : Segment) :
  seg_start (shift_segment c (keep_valid_words (shift_segment c s)))
  = (seg_start s + c + c)%Q
  /\ seg_end (shift_segment c (keep_valid_words (shift_segment c s)))
     = (seg_end s + c + c)%Q.
Proof. split; reflexivity. Qed.

(** Whatever happens in its body, [transcribe_chunk] returns. *)
Lemma transcribe_chunk_returns (chunk_file : AudioFile) (chunk_start : Q)
    (model : Model) (device : text) (batch_size : Z) (language : option text)
    (align_model : option AlignModel) (align_metadata : option AlignMetadata) :
  exists result,
    transcribe_chunk load_audio model_transcribe whisperx_align chunk_file
                     chunk_start model device batch_size language align_model
                     align_metadata
    = Returned result.
Proof.
  unfold transcribe_chunk, try_except.
  destruct (transcribe_chunk_body _ _ _ _ _ _ _ _ _ _ _); eauto.
Qed.

(** So every future of the pool returns, and the merger receives one
    result per chunk. *)
Lemma submit_chunks_return (chunks : list Chunk) (model : Model)
    (device : text) (batch_size : Z) (detected_language : option text)
    (model_a : option AlignModel) (align_metadata : option AlignMetadata) :
  length
    (returned_results
       (submit_chunks load_audio model_transcribe whisperx_align chunks model
                      device batch_size detected_language model_a
                      align_metadata))
  = length chunks.
Proof.
  unfold returned_results, submit_chunks.
  induction chunks as [|c chunks IH]; [reflexivity|]. cbn [map].
  destruct (transcribe_chunk_returns (fst (fst c)) (span_start c) model device
              batch_size detected_language model_a align_metadata) as [r Hr].
  cbn. rewrite Hr. cbn. now rewrite IH.
Qed.

(** C1, as the code has it. When alignment is asked for but yields no
    segments of its own, the second loop adds [chunk_start] to timestamps
    that already carry it: with no segment having text, with an alignment
    that raised, and with an alignment result without segments, every
    segment start and end of the returned result is the local value plus
    twice [chunk_start]. *)
Theorem transcribe_chunk_shifts_twice (chunk_file : AudioFile)
    (chunk_start : Q) (model : Model) (device : text) (batch_size : Z)
    (language : option text) (am : AlignModel) (md : AlignMetadata)
    (chunk_audio : Audio) (result : Transcription) (segs : list Segment) :
  let returned :=
    transcribe_chunk load_audio model_transcribe whisperx_align chunk_file
                     chunk_start model device batch_size language (Some am)
                     (Some md) in
  let shift := shift_segment chunk_start in
  let aligned :=
    whisperx_align (List.filter has_text (map shift segs)) am md chunk_audio
                   device in
  load_audio chunk_file = Returned chunk_audio ->
  model_transcribe model chunk_audio batch_size language = Returned result ->
  tr_segments result = Some segs ->
  (List.filter has_text segs = [] ->
   returned = Returned (with_segments result (map shift (map shift segs))))
  /\
  (forall align_error,
     List.filter has_text segs <> [] ->
     aligned = Raised align_error ->
     returned
     = Returned (with_segments result
                   (map shift (map keep_valid_words (map shift segs)))))
  /\
  (forall aligned_result,
     List.filter has_text segs <> [] ->
     aligned = Returned aligned_result ->
     al_segments aligned_result = None ->
     returned
     = Returned (with_segments result
                   (map shift (map shift (List.filter has_text segs)))))
  /\
  (forall s,
     seg_start (shift (shift s)) = (seg_start s + chunk_start + chunk_start)%Q
     /\ seg_end (shift (shift s)) = (seg_end s + chunk_start + chunk_start)%Q
     /\ seg_start (shift (keep_valid_words (shift s)))
        = (seg_start s + chunk_start + chunk_start)%Q
     /\ seg_end (shift (keep_valid_words (shift s)))
        = (seg_end s + chunk_start + chunk_start)%Q
     /\ seg_words (shift (shift s))
        = option_map
            (map (fun w => shift_word chunk_start (shift_word chunk_start w)))
            (seg_words s))
  /\
  (forall w,
     w_start (shift_word chunk_start (shift_word chunk_start w))
     = (w_start w + chunk_start + chunk_start)%Q
     /\ w_end (shift_word chunk_start (shift_word chunk_start w))
        = (w_end w + chunk_start + chunk_start)%Q).
Proof.
  cbv zeta. intros Hload Htr Hsegs.
  rewrite (transcribe_chunk_transcribed _ _ _ _ _ _ _ _ _ _ _ Hload Htr Hsegs).
  unfold align_segments. rewrite filter_has_text_shift.
  repeat split.
  - intros Hnone. now rewrite Hnone.
  - intros align_error Hsome Ha. rewrite Ha.
    now destruct (List.filter has_text segs).
  - intros aligned_result Hsome Ha Hnoseg. rewrite Ha, Hnoseg.
    now destruct (List.filter has_text segs).
  - destruct s as [txt st en [ws|]]; cbn; [|reflexivity].
    now rewrite map_map.
Qed.

(** C6, amended. [transcribe_chunk] never raises: when loading the audio,
    the transcription or anything else in its body raises, it returns a
    result without segments whose language is the language it was given,
    and ["unknown"] only when it was given none (or an empty one). *)
Theorem transcribe_chunk_never_raises (chunk_file : AudioFile)
    (chunk_start : Q) (model : Model) (device : text) (batch_size : Z)
    (language : option text) (align_model : option AlignModel)
    (align_metadata : option AlignMetadata) :
  let returned :=
    transcribe_chunk load_audio model_transcribe whisperx_align chunk_file
                     chunk_start model device batch_size language align_model
                     align_metadata in
  let failed :=
    {| tr_segments := Some []; tr_language := Some (or_unknown language) |} in
  (exists result, returned = Returned result)
  /\ (forall e,
        transcribe_chunk_body load_audio model_transcribe whisperx_align
          chunk_file chunk_start model device batch_size language align_model
          align_metadata = Raised e ->
        returned = Returned failed)
  /\ (forall e, load_audio chunk_file = Raised e -> returned = Returned failed)
  /\ (forall chunk_audio e,
        load_audio chunk_file = Returned chunk_audio ->
        model_transcribe model chunk_audio batch_size language = Raised e ->
        returned = Returned failed)
  /\ or_unknown None = str "unknown"
  /\ or_unknown (Some []) = str "unknown"
  /\ (forall c l, or_unknown (Some (c :: l)) = c :: l).
Proof.
  cbv zeta. repeat split; try apply transcribe_chunk_returns;
    unfold transcribe_chunk, try_except.
  - intros e ->. reflexivity.
  - intros e He. unfold transcribe_chunk_body. now rewrite He.
  - intros chunk_audio e Hload He. unfold transcribe_chunk_body.
    rewrite Hload. cbn [bind]. now rewrite He.
Qed.

End Transcriber.

(** A chunk that starts at 60 s with one segment from 1 s to 2 s, whose
    alignment raises: the result places the segment at 121 s, not 61 s. *)
Lemma transcribe_chunk_shifts_twice_witness :
  let hello :=
    {| TranscribeAudio.seg_text := Py.str "hello";
       TranscribeAudio.seg_start := 1;
       TranscribeAudio.seg_end := 2;
       TranscribeAudio.seg_words :=
         Some [ {| TranscribeAudio.w_word := Py.str "hello";
                   TranscribeAudio.w_start := 1;
                   TranscribeAudio.w_end := 2 |} ] |} in
  let transcript :=
    {| TranscribeAudio.tr_segments := Some [hello];
       TranscribeAudio.tr_language := Some (Py.str "en") |} in
  TranscribeAudio.transcribe_chunk
    (fun _ => Py.Returned tt)
    (fun (_ _ : unit) _ _ => Py.Returned transcript)
    (fun _ (_ _ _ : unit) _ => Py.Raised (Py.Exception (Py.str "align failed")))
    (TranscribeAudio.ChunkFile 1) 60 tt (Py.str "cpu") 16 (Some (Py.str "en"))
    (Some tt) (Some tt)
  = Py.Returned
      {| TranscribeAudio.tr_segments :=
           Some [ {| TranscribeAudio.seg_text := Py.str "hello";
                     TranscribeAudio.seg_start := 121;
                     TranscribeAudio.seg_end := 122;
                     TranscribeAudio.seg_words :=
                       Some [ {| TranscribeAudio.w_word := Py.str "hello";
                                 TranscribeAudio.w_start := 121;
                                 TranscribeAudio.w_end := 122 |} ] |} ];
         TranscribeAudio.tr_language := Some (Py.str "en") |}.
Proof.
  intros hello transcript.
  exact (proj1 (proj2
           (transcribe_chunk_shifts_twice
              (fun _ => Py.Returned tt)
              (fun (_ _ : unit) _ _ => Py.Returned transcript)
              (fun _ (_ _ _ : unit) _ =>
                 Py.Raised (Py.Exception (Py.str "align failed")))
              (TranscribeAudio.ChunkFile 1) 60 tt (Py.str "cpu") 16
              (Some (Py.str "en")) tt tt tt transcript [hello]
              eq_refl eq_refl eq_refl))
           (Py.Exception (Py.str "align failed"))
           ltac:(discriminate) eq_refl).
Defined.

(** A chunk whose audio cannot be loaded, transcribed without a language. *)
Lemma transcribe_chunk_never_raises_witness :
  TranscribeAudio.transcribe_chunk
    (Audio := unit) (Model := unit) (AlignModel := unit) (AlignMetadata := unit)
    (fun _ => Py.Raised (Py.Exception (Py.str "no such file")))
    (fun _ _ _ _ => Py.Raised (Py.Exception (Py.str "unreachable")))
    (fun _ _ _ _ _ => Py.Raised (Py.Exception (Py.str "unreachable")))
    (TranscribeAudio.ChunkFile 1) 60 tt (Py.str "cpu") 16 None None None
  = Py.Returned {| TranscribeAudio.tr_segments := Some [];
                   TranscribeAudio.tr_language := Some (Py.str "unknown") |}.
Proof.
  exact (proj1 (proj2 (proj2
           (transcribe_chunk_never_raises
              (Audio := unit) (Model := unit) (AlignModel := unit)
              (AlignMetadata := unit)
              (fun _ => Py.Raised (Py.Exception (Py.str "no such file")))
              (fun _ _ _ _ => Py.Raised (Py.Exception (Py.str "unreachable")))
              (fun _ _ _ _ _ => Py.Raised (Py.Exception (Py.str "unreachable")))
              (TranscribeAudio.ChunkFile 1) 60 tt (Py.str "cpu") 16 None None
              None)))
           (Py.Exception (Py.str "no such file")) eq_refl).
Defined.

(** C6 as stated fails: a failing chunk that was given the language ["en"]
    comes back marked ["en"], not ["unknown"]. *)
Lemma failed_chunk_keeps_language :
  TranscribeAudio.transcribe_chunk
    (Audio := unit) (Model := unit) (AlignModel := unit) (AlignMetadata := unit)
    (fun _ => Py.Raised (Py.Exception (Py.str "no such file")))
    (fun _ _ _ _ => Py.Raised (Py.Exception (Py.str "unreachable")))
    (fun _ _ _ _ _ => Py.Raised (Py.Exception (Py.str "unreachable")))
    (TranscribeAudio.ChunkFile 1) 60 tt (Py.str "cpu") 16 (Some (Py.str "en"))
    None None
  = Py.Returned {| TranscribeAudio.tr_segments := Some [];
                   TranscribeAudio.tr_language := Some (Py.str "en") |}
  /\ Py.str "en" <> Py.str "unknown".
Proof. split; [reflexivity|vm_compute; discriminate]. Qed.

(** ** The chunker *)

Section ChunkerFacts.
Import Py TranscribeAudio.
Open Scope Q_scope.

Variable ffmpeg_ok : Z -> Q -> Q -> bool.
Hypothesis ffmpeg_works : forall i s l, ffmpeg_ok i s l = true.

Variables duration chunk_duration : Q.
Hypothesis chunk_duration_pos : 0 < chunk_duration.

Lemma multiple_0 : multiple chunk_duration 0 == 0.
Proof. unfold multiple. change (inject_Z (Z.of_nat 0)) with 0. ring. Qed.

Lemma multiple_S (n : nat) :
  multiple chunk_duration (S n) == multiple chunk_duration n + chunk_duration.
Proof.
  unfold multiple. rewrite Nat2Z.inj_succ. unfold Z.succ.
  rewrite inject_Z_plus. change (inject_Z 1) with 1. ring.
Qed.

Lemma multiple_nonneg (n : nat) : 0 <= multiple chunk_duration n.
Proof.
  induction n as [|n IH]; [rewrite multiple_0; lra|].
  rewrite multiple_S. lra.
Qed.

Lemma multiple_pos (n : nat) :
  (0 < n)%nat -> chunk_duration <= multiple chunk_duration n.
Proof.
  destruct n as [|n]; [lia|]. intros _. rewrite multiple_S.
  pose proof (multiple_nonneg n). lra.
Qed.

Lemma due_next (n : nat) (start_time : Q) :
  due duration chunk_duration (S n) start_time ->
  start_time < duration
  /\ due duration chunk_duration n
         (Qmin (start_time + chunk_duration) duration).
Proof.
  intros [Hle Hlt]. specialize (Hlt ltac:(lia)). cbn [pred] in Hlt.
  rewrite multiple_S in Hle. pose proof (multiple_nonneg n) as Hn.
  split; [lra|]. unfold due.
  destruct (Q.min_spec (start_time + chunk_duration) duration)
    as [[Hcase Hmin]|[Hcase Hmin]]; rewrite Hmin; split.
  - lra.
  - intros Hpos. destruct n as [|n]; [lia|]. cbn [pred].
    rewrite multiple_S in Hlt. lra.
  - lra.
  - intros Hpos. pose proof (multiple_pos n Hpos). lra.
Qed.

(** When [n] chunks are due and the fuel allows [n] turns, the loop
    appends exactly [chunks_from n]. *)
Lemma split_audio_loop_run (n : nat) :
  forall fuel chunk_index start_time chunks,
    (n <= fuel)%nat ->
    due duration chunk_duration n start_time ->
    split_audio_loop ffmpeg_ok fuel duration chunk_duration chunk_index
                     start_time chunks
    = Some (chunks ++ chunks_from n duration chunk_duration chunk_index
                                  start_time).
Proof.
  induction n as [|n IH]; intros fuel chunk_index start_time chunks Hfuel Hdue.
  - destruct Hdue as [Hle _]. rewrite multiple_0 in Hle.
    assert (Hcmp : (start_time ?= duration) <> Lt).
    { rewrite <- Qlt_alt. lra. }
    cbn [chunks_from]. rewrite app_nil_r.
    destruct fuel; cbn [split_audio_loop];
      destruct (start_time ?= duration); congruence.
  - destruct fuel as [|fuel]; [lia|].
    apply due_next in Hdue as [Hlt Hdue].
    assert (Hcmp : (start_time ?= duration) = Lt) by now apply Qlt_alt.
    cbn [split_audio_loop chunks_from]. rewrite Hcmp, ffmpeg_works.
    rewrite IH by (lia || exact Hdue). now rewrite <- app_assoc.
Qed.

Lemma chunks_from_length (n : nat) :
  forall chunk_index start_time,
    length (chunks_from n duration chunk_duration chunk_index start_time) = n.
Proof. induction n as [|n IH]; intros; cbn [chunks_from length]; auto. Qed.

(** The chunk at position [i]: its file, where it starts and where it ends. *)
Lemma chunks_from_lookup (n : nat) :
  forall i chunk_index start_time c,
    due duration chunk_duration n start_time ->
    chunks_from n duration chunk_duration chunk_index start_time !! i = Some c ->
    fst (fst c) = ChunkFile (chunk_index + Z.of_nat i)
    /\ span_start c == start_time + multiple chunk_duration i
    /\ span_end c = Qmin (span_start c + chunk_duration) duration.
Proof.
  induction n as [|n IH]; intros i chunk_index start_time c Hdue;
    [discriminate|].
  cbn [chunks_from]. destruct i as [|i]; cbn [lookup list_lookup].
  - intros [= <-]. unfold span_start, span_end. cbn [fst snd].
    rewrite multiple_0, Z.add_0_r. repeat split. lra.
  - intros Hc. apply due_next in Hdue as [Hlt Hdue].
    pose proof (lookup_lt_Some _ _ _ Hc) as Hi.
    rewrite chunks_from_length in Hi.
    destruct (IH i _ _ c Hdue Hc) as (Hfile & Hstart & Hend).
    split; [rewrite Hfile; f_equal; lia|]. split; [|exact Hend].
    rewrite Hstart, multiple_S.
    destruct Hdue as [_ Hrest]. specialize (Hrest ltac:(lia)).
    pose proof (multiple_nonneg (pred n)).
    destruct (Q.min_spec (start_time + chunk_duration) duration)
      as [[_ Hmin]|[_ Hmin]]; rewrite Hmin in *; lra.
Qed.

(** Each chunk starts where the previous one ends. *)
Lemma chunks_from_contiguous (n : nat) :
  forall i chunk_index start_time c c',
    chunks_from n duration chunk_duration chunk_index start_time !! i = Some c ->
    chunks_from n duration chunk_duration chunk_index start_time !! S i = Some c' ->
    span_end c = span_start c'.
Proof.
  induction n as [|n IH]; intros i chunk_index start_time c c'; [discriminate|].
  cbn [chunks_from]. destruct i as [|i]; cbn [lookup list_lookup].
  - intros [= <-]. destruct n; [discriminate|].
    cbn [chunks_from lookup list_lookup]. now intros [= <-].
  - apply IH.
Qed.

Lemma multiple_le (a b : nat) :
  (a <= b)%nat -> multiple chunk_duration a <= multiple chunk_duration b.
Proof.
  induction 1 as [|b Hab IH]; [lra|]. rewrite multiple_S. lra.
Qed.

Hypothesis duration_pos : 0 < duration.

Lemma quotient_pos : 0 < duration / chunk_duration.
Proof. apply Qlt_shift_div_l; lra. Qed.

Lemma quotient_times : duration / chunk_duration * chunk_duration == duration.
Proof. field. lra. Qed.

Lemma ceiling_pos : (0 < Qceiling (duration / chunk_duration))%Z.
Proof.
  rewrite Zlt_Qlt. pose proof (Qle_ceiling (duration / chunk_duration)).
  pose proof quotient_pos. change (inject_Z 0) with 0. lra.
Qed.

Lemma multiple_span_count :
  multiple chunk_duration (span_count duration chunk_duration)
  == inject_Z (Qceiling (duration / chunk_duration)) * chunk_duration.
Proof.
  unfold multiple, span_count. rewrite Z2Nat.id; [reflexivity|].
  pose proof ceiling_pos. lia.
Qed.

Lemma multiple_pred_span_count :
  multiple chunk_duration (pred (span_count duration chunk_duration))
  == inject_Z (Qceiling (duration / chunk_duration) - 1) * chunk_duration.
Proof.
  unfold multiple, span_count. rewrite Nat2Z.inj_pred_max, Z2Nat.id;
    pose proof ceiling_pos; [|lia].
  rewrite Z.max_r by lia. now rewrite Z.sub_1_r.
Qed.

Lemma span_count_pos : (0 < span_count duration chunk_duration)%nat.
Proof. unfold span_count. pose proof ceiling_pos. lia. Qed.

(** At the start of the file, [ceil(duration / chunk_duration)] chunks
    are due. *)
Lemma due_at_start :
  due duration chunk_duration (span_count duration chunk_duration) 0.
Proof.
  split; [|intros _].
  - rewrite multiple_span_count, <- quotient_times at 1.
    pose proof (Qle_ceiling (duration / chunk_duration)) as H.
    apply (Qmult_le_compat_r _ _ chunk_duration) in H; lra.
  - rewrite multiple_pred_span_count.
    pose proof (Qceiling_lt (duration / chunk_duration)) as H.
    apply (Qmult_lt_compat_r _ _ chunk_duration) in H; [|lra].
    rewrite quotient_times in H. lra.
Qed.

Lemma floor_unique (x : Q) (z : Z) :
  inject_Z z <= x -> x < inject_Z (z + 1) -> Qfloor x = z.
Proof.
  intros Hle Hlt.
  pose proof (Qfloor_le x) as H1. pose proof (Qlt_floor x) as H2.
  assert (H3 : inject_Z z < inject_Z (Qfloor x + 1)) by lra.
  assert (H4 : inject_Z (Qfloor x) < inject_Z (z + 1)) by lra.
  rewrite <- Zlt_Qlt in H3, H4. lia.
Qed.

(** What is left for the last chunk: [duration mod chunk_duration], or a
    whole chunk duration when the division is exact. *)
Lemma last_length :
  duration - multiple chunk_duration (pred (span_count duration chunk_duration))
  == if Qeq_bool (Qmod duration chunk_duration) 0 then chunk_duration
     else Qmod duration chunk_duration.
Proof.
  destruct due_at_start as [Hle Hlt]. specialize (Hlt span_count_pos).
  rewrite multiple_span_count in Hle. rewrite multiple_pred_span_count in *.
  set (k := Qceiling (duration / chunk_duration)) in *.
  assert (Hk : inject_Z (k - 1) == inject_Z k - 1).
  { unfold Z.sub. rewrite inject_Z_plus. reflexivity. }
  destruct (Qlt_le_dec duration (inject_Z k * chunk_duration)) as [Hless|Hfull].
  - assert (Hfloor : Qfloor (duration / chunk_duration) = (k - 1)%Z).
    { apply floor_unique.
      - apply Qle_shift_div_l; lra.
      - replace (k - 1 + 1)%Z with k by lia. apply Qlt_shift_div_r; lra. }
    unfold Qmod. rewrite Hfloor.
    destruct (Qeq_bool _ 0) eqn:E; [|reflexivity].
    apply Qeq_bool_iff in E. lra.
  - assert (Hfloor : Qfloor (duration / chunk_duration) = k).
    { apply floor_unique.
      - apply Qle_shift_div_l; lra.
      - apply Qlt_shift_div_r; [lra|]. rewrite inject_Z_plus.
        change (inject_Z 1) with 1. lra. }
    unfold Qmod. rewrite Hfloor.
    destruct (Qeq_bool _ 0) eqn:E.
    + rewrite Hk. lra.
    + exfalso. apply Qeq_bool_neq in E. apply E. lra.
Qed.

Lemma Qle_bool_false (x y : Q) : y < x -> Qle_bool x y = false.
Proof.
  intros H. destruct (Qle_bool x y) eqn:E; [|reflexivity].
  apply Qle_bool_iff in E. lra.
Qed.

(** The spans of the chunks cut with exact sums: chunk [i] runs from
    [i C] to [min((i + 1) C, D)]. *)
Lemma chunks_from_spans :
  let n := span_count duration chunk_duration in
  let chunks := chunks_from n duration chunk_duration 0 0 in
  (forall i c,
     chunks !! i = Some c ->
     (i < n)%nat
     /\ fst (fst c) = ChunkFile (Z.of_nat i)
     /\ span_start c == multiple chunk_duration i
     /\ span_end c == Qmin (multiple chunk_duration (S i)) duration)
  /\ (forall i c,
        chunks !! i = Some c -> (S i < n)%nat ->
        span_end c == span_start c + chunk_duration)
  /\ (forall c, chunks !! pred n = Some c -> span_end c == duration).
Proof.
  intros n chunks. pose proof due_at_start as Hdue. fold n in Hdue.
  assert (Hat : forall i c,
    chunks !! i = Some c ->
    (i < n)%nat
    /\ fst (fst c) = ChunkFile (Z.of_nat i)
    /\ span_start c == multiple chunk_duration i
    /\ span_end c = Qmin (span_start c + chunk_duration) duration).
  { intros i c Hc. pose proof (lookup_lt_Some _ _ _ Hc) as Hi.
    unfold chunks in Hi. rewrite chunks_from_length in Hi. split; [exact Hi|].
    destruct (chunks_from_lookup n i 0%Z 0 c Hdue Hc) as (Hf & Hs & He).
    rewrite Z.add_0_l in Hf. repeat split; [exact Hf| |exact He].
    rewrite Hs. lra. }
  split; [|split].
  - intros i c Hc. destruct (Hat i c Hc) as (Hi & Hf & Hs & He).
    repeat split; try assumption.
    rewrite He. apply Q.min_compat; [|reflexivity].
    rewrite Hs. symmetry. apply multiple_S.
  - intros i c Hc Hi. destruct (Hat i c Hc) as (_ & _ & Hs & He).
    rewrite He at 1. apply Q.min_l. rewrite Hs, <- multiple_S.
    destruct Hdue as [_ Hlt]. specialize (Hlt span_count_pos).
    pose proof (multiple_le (S i) (pred n) ltac:(lia)). fold n in Hlt. lra.
  - intros c Hc. destruct (Hat _ c Hc) as (_ & _ & Hs & He).
    rewrite He. apply Q.min_r. rewrite Hs, <- multiple_S.
    destruct Hdue as [Hle _]. pose proof span_count_pos as Hn. fold n in Hn.
    replace (S (pred n)) with n by lia. lra.
Qed.

(** The first chunk is due as long as the rest of the file is: the
    bounds are read as numbers. *)
Lemma due_same (n : nat) (start_time start_time' : Q) :
  start_time == start_time' ->
  due duration chunk_duration n start_time ->
  due duration chunk_duration n start_time'.
Proof.
  intros E [Hle Hlt]. split; [lra|]. intros Hn. specialize (Hlt Hn). lra.
Qed.

End ChunkerFacts.

(** ** The chunker on floats *)

Section RoundedChunkerFacts.
Import Py TranscribeAudio.
Local Open Scope Q_scope.

Variable fl : Q -> Q.
Variable ffmpeg_ok : Z -> Q -> Q -> bool.
Hypothesis ffmpeg_works : forall i s l, ffmpeg_ok i s l = true.
Hypothesis fl_same : forall x y, x == y -> fl x == fl y.

Variables duration chunk_duration : Q.
Hypothesis chunk_duration_pos : 0 < chunk_duration.

(** One turn of the loop when its sum is exact. *)
Lemma rounded_turn (n : nat) (start_time : Q) :
  due duration chunk_duration (S n) start_time ->
  Rounded.sums_exact fl chunk_duration start_time (S n) ->
  start_time < duration
  /\ Qmin (fl (start_time + chunk_duration)) duration
     == Qmin (start_time + chunk_duration) duration
  /\ due duration chunk_duration n
         (Qmin (fl (start_time + chunk_duration)) duration)
  /\ Rounded.sums_exact fl chunk_duration
       (Qmin (fl (start_time + chunk_duration)) duration) n.
Proof.
  intros Hdue Hexact.
  assert (Hfirst : fl (start_time + chunk_duration)
                   == start_time + chunk_duration).
  { pose proof (Hexact 0%nat ltac:(lia)) as H.
    rewrite (fl_same (start_time + chunk_duration)
                     (start_time + multiple chunk_duration 0 + chunk_duration)).
    - rewrite H, (multiple_0 chunk_duration). lra.
    - rewrite (multiple_0 chunk_duration). lra. }
  assert (Hmin : Qmin (fl (start_time + chunk_duration)) duration
                 == Qmin (start_time + chunk_duration) duration)
    by (apply Q.min_compat; [exact Hfirst|reflexivity]).
  destruct (due_next duration chunk_duration chunk_duration_pos n start_time
              Hdue) as [Hlt Hnext].
  split; [exact Hlt|]. split; [exact Hmin|]. split.
  - apply (due_same duration chunk_duration n
             (Qmin (start_time + chunk_duration) duration)); [|exact Hnext].
    symmetry. exact Hmin.
  - intros m Hm.
    assert (Hmore : Qmin (start_time + chunk_duration) duration
                    == start_time + chunk_duration).
    { apply Q.min_l. destruct Hnext as [_ Hlt']. specialize (Hlt' ltac:(lia)).
      pose proof (multiple_nonneg chunk_duration chunk_duration_pos (pred n)).
      destruct (Q.min_spec (start_time + chunk_duration) duration)
        as [[_ E]|[_ E]]; rewrite E in Hlt'; lra. }
    pose proof (Hexact (S m) ltac:(lia)) as H.
    assert (E : Qmin (fl (start_time + chunk_duration)) duration
                + multiple chunk_duration m + chunk_duration
                == start_time + multiple chunk_duration (S m) + chunk_duration)
      by (rewrite Hmin, Hmore, (multiple_S chunk_duration); lra).
    rewrite (fl_same _ _ E), H. symmetry. exact E.
Qed.

(** With exact sums and an extraction tool that works, the loop appends
    the chunks of [n] turns. *)
Lemma rounded_loop_run (n : nat) :
  forall fuel chunk_index start_time chunks,
    (n <= fuel)%nat ->
    due duration chunk_duration n start_time ->
    Rounded.sums_exact fl chunk_duration start_time n ->
    Rounded.split_audio_loop fl ffmpeg_ok fuel duration chunk_duration
                             chunk_index start_time chunks
    = Some (chunks ++ Rounded.chunks_from fl n duration chunk_duration
                                          chunk_index start_time).
Proof.
  induction n as [|n IH];
    intros fuel chunk_index start_time chunks Hfuel Hdue Hexact.
  - destruct Hdue as [Hle _]. rewrite (multiple_0 chunk_duration) in Hle.
    assert (Hcmp : (start_time ?= duration) <> Lt).
    { rewrite <- Qlt_alt. lra. }
    cbn [Rounded.chunks_from]. rewrite app_nil_r.
    destruct fuel; cbn [Rounded.split_audio_loop];
      destruct (start_time ?= duration); congruence.
  - destruct fuel as [|fuel]; [lia|].
    destruct (rounded_turn n start_time Hdue Hexact)
      as (Hlt & _ & Hnext & Hexact').
    assert (Hcmp : (start_time ?= duration) = Lt) by now apply Qlt_alt.
    cbn [Rounded.split_audio_loop Rounded.chunks_from].
    rewrite Hcmp, ffmpeg_works.
    rewrite IH by (lia || assumption). now rewrite <- app_assoc.
Qed.

(** With exact sums the chunks are those of the exact loop, bound by
    bound. *)
Lemma rounded_chunks_same (n : nat) :
  forall chunk_index start_time start_time',
    start_time == start_time' ->
    due duration chunk_duration n start_time ->
    Rounded.sums_exact fl chunk_duration start_time n ->
    Forall2 Rounded.same_span
      (Rounded.chunks_from fl n duration chunk_duration chunk_index start_time)
      (chunks_from n duration chunk_duration chunk_index start_time').
Proof.
  induction n as [|n IH];
    intros chunk_index start_time start_time' Hsame Hdue Hexact;
    [constructor|].
  destruct (rounded_turn n start_time Hdue Hexact)
    as (_ & Hmin & Hnext & Hexact').
  assert (Hend : Qmin (fl (start_time + chunk_duration)) duration
                 == Qmin (start_time' + chunk_duration) duration).
  { rewrite Hmin. apply Q.min_compat; [lra|reflexivity]. }
  cbn [Rounded.chunks_from chunks_from]. constructor.
  - repeat split; [exact Hsame|exact Hend].
  - apply IH; assumption.
Qed.

Lemma rounded_chunks_length (n : nat) :
  forall chunk_index start_time,
    length (Rounded.chunks_from fl n duration chunk_duration chunk_index
                                start_time) = n.
Proof.
  induction n as [|n IH]; intros; cbn [Rounded.chunks_from length]; auto.
Qed.

(** Each chunk starts at the very number at which the previous one
    ends. *)
Lemma rounded_chunks_contiguous (n : nat) :
  forall i chunk_index start_time c c',
    Rounded.chunks_from fl n duration chunk_duration chunk_index start_time
      !! i = Some c ->
    Rounded.chunks_from fl n duration chunk_duration chunk_index start_time
      !! S i = Some c' ->
    span_end c = span_start c'.
Proof.
  induction n as [|n IH]; intros i chunk_index start_time c c'; [discriminate|].
  cbn [Rounded.chunks_from]. destruct i as [|i]; cbn [lookup list_lookup].
  - intros [= <-]. destruct n; [discriminate|].
    cbn [Rounded.chunks_from lookup list_lookup]. now intros [= <-].
  - apply IH.
Qed.

Hypothesis duration_pos : 0 < duration.

(** C2. For a duration [D > 0] and a chunk size [C > 0] in float
    seconds, with chunking on and an extraction tool that works.
    [transcribe_audio] cuts the file only when [D] exceeds the rounded
    product [1.5 C]: up to there no span is built and the file is
    transcribed whole. [split_audio_file] itself keeps the file whole up
    to [C]; beyond [C], when the running sums [C], [2 C], ... up to
    [ceil(D / C) C] are exact, it cuts [ceil(D / C)] chunks, which are
    the chunks of [transcribe_audio] beyond [1.5 C]: chunk [i] runs from
    [i C] to [min((i + 1) C, D)], so all have length [C] but the last,
    which ends at [D] and has length [D mod C], or [C] when [D] is a
    multiple of [C]; the first starts at [0], each starts where the
    previous one ends, and none is empty. *)
Theorem chunker_spans (fuel : nat) :
  let n := span_count duration chunk_duration in
  (n <= fuel)%nat ->
  (duration <= fl (chunk_duration * (3 # 2)) ->
   Rounded.transcribe_audio_chunks fl ffmpeg_ok fuel true duration
                                   chunk_duration = Some None)
  /\
  (duration <= chunk_duration ->
   Rounded.split_audio_file fl ffmpeg_ok fuel duration chunk_duration
   = Some [(SourceFile, 0, duration)])
  /\
  (chunk_duration < duration ->
   (forall m, (m < n)%nat ->
      fl (multiple chunk_duration (S m)) == multiple chunk_duration (S m)) ->
   exists chunks,
     Rounded.split_audio_file fl ffmpeg_ok fuel duration chunk_duration
     = Some chunks
     /\ (fl (chunk_duration * (3 # 2)) < duration ->
         Rounded.transcribe_audio_chunks fl ffmpeg_ok fuel true duration
                                         chunk_duration = Some (Some chunks))
     /\ length chunks = n
     /\ n = Z.to_nat (Qceiling (duration / chunk_duration))
     /\ (forall i c,
          chunks !! i = Some c ->
          fst (fst c) = ChunkFile (Z.of_nat i)
          /\ span_start c == inject_Z (Z.of_nat i) * chunk_duration
          /\ span_end c
             == Qmin (inject_Z (Z.of_nat (S i)) * chunk_duration) duration)
     /\ (forall i c,
          chunks !! i = Some c -> (S i < n)%nat ->
          span_length c == chunk_duration)
     /\ (forall c,
          last chunks = Some c ->
          span_end c == duration
          /\ span_length c
             == if Qeq_bool (Qmod duration chunk_duration) 0
                then chunk_duration
                else Qmod duration chunk_duration)
     /\ (forall c, head chunks = Some c -> span_start c = 0)
     /\ (forall i c c',
          chunks !! i = Some c -> chunks !! S i = Some c' ->
          span_end c = span_start c')
     /\ (forall c, c ∈ chunks -> span_start c < span_end c)).
Proof.
  intros n Hfuel.
  assert (Hnonzero : Qeq_bool duration 0 = false).
  { destruct (Qeq_bool duration 0) eqn:E; [|reflexivity].
    apply Qeq_bool_iff in E. lra. }
  split; [|split].
  - intros Hshort. unfold Rounded.transcribe_audio_chunks, Rounded.should_chunk.
    apply Qle_bool_iff in Hshort. now rewrite Hshort.
  - intros Hshort. unfold Rounded.split_audio_file. rewrite Hnonzero.
    apply Qle_bool_iff in Hshort. now rewrite Hshort.
  - intros Hlong Hsums.
    pose proof (due_at_start duration chunk_duration chunk_duration_pos
                  duration_pos) as Hdue.
    pose proof (span_count_pos duration chunk_duration chunk_duration_pos
                  duration_pos) as Hn.
    fold n in Hdue, Hn.
    assert (Hexact : Rounded.sums_exact fl chunk_duration 0 n).
    { intros m Hm. specialize (Hsums m Hm).
      assert (E : 0 + multiple chunk_duration m + chunk_duration
                  == multiple chunk_duration (S m))
        by (rewrite (multiple_S chunk_duration); lra).
      rewrite (fl_same _ _ E), Hsums. symmetry. exact E. }
    set (chunks := Rounded.chunks_from fl n duration chunk_duration 0 0).
    pose proof (rounded_chunks_same n 0%Z 0 0 ltac:(reflexivity) Hdue Hexact)
      as Hsame.
    fold chunks in Hsame.
    destruct (chunks_from_spans duration chunk_duration chunk_duration_pos
                duration_pos) as (Hat & Hfull & Hlast).
    fold n in Hat, Hfull, Hlast.
    assert (Hlook : forall i c,
      chunks !! i = Some c ->
      exists c', chunks_from n duration chunk_duration 0 0 !! i = Some c'
                 /\ Rounded.same_span c c').
    { intros i c Hc.
      destruct (Forall2_lookup_l _ _ _ i c Hsame Hc) as (c' & Hc' & Hcc').
      now exists c'. }
    exists chunks.
    assert (Hsplit :
      Rounded.split_audio_file fl ffmpeg_ok fuel duration chunk_duration
      = Some chunks).
    { unfold Rounded.split_audio_file.
      rewrite Hnonzero, (Qle_bool_false duration chunk_duration Hlong).
      now rewrite (rounded_loop_run n fuel 0%Z 0 [] Hfuel Hdue Hexact). }
    split; [exact Hsplit|]. split.
    { intros Hgate.
      unfold Rounded.transcribe_audio_chunks, Rounded.should_chunk.
      rewrite (Qle_bool_false duration (fl (chunk_duration * (3 # 2))) Hgate).
      cbn [andb negb]. now rewrite Hsplit. }
    split; [apply rounded_chunks_length|]. split; [reflexivity|].
    split; [|split; [|split; [|split; [|split]]]].
    + intros i c Hc. destruct (Hlook i c Hc) as (c' & Hc' & Hf & Hs & He).
      destruct (Hat i c' Hc') as (_ & Hf' & Hs' & He').
      split; [congruence|]. split; [now rewrite Hs, Hs'|now rewrite He, He'].
    + intros i c Hc Hi. destruct (Hlook i c Hc) as (c' & Hc' & _ & Hs & He).
      unfold span_length. rewrite Hs, He, (Hfull i c' Hc' Hi). lra.
    + intros c Hc. rewrite last_lookup in Hc.
      unfold chunks in Hc at 1. rewrite rounded_chunks_length in Hc.
      destruct (Hlook _ c Hc) as (c' & Hc' & _ & Hs & He).
      split; [now rewrite He, (Hlast c' Hc')|].
      unfold span_length. rewrite Hs, He, (Hlast c' Hc').
      destruct (Hat _ c' Hc') as (_ & _ & Hs' & _). rewrite Hs'.
      apply last_length; assumption.
    + intros c Hc. unfold chunks in Hc.
      destruct n; [lia|]. cbn in Hc. now injection Hc as <-.
    + intros i c c'. apply rounded_chunks_contiguous.
    + intros c Hc. apply list_elem_of_lookup in Hc as [i Hc].
      destruct (Hlook i c Hc) as (c' & Hc' & _ & Hs & He).
      destruct (Hat i c' Hc') as (Hi & _ & Hs' & _).
      rewrite Hs, He.
      destruct (decide (S i < n)%nat) as [Hin|Hin].
      * rewrite (Hfull i c' Hc' Hin). lra.
      * assert (i = pred n) as -> by lia. rewrite (Hlast c' Hc'), Hs'.
        destruct Hdue as [_ Hlt]. specialize (Hlt Hn). lra.
Qed.

End RoundedChunkerFacts.

(** With a rounding that changes nothing the loop on floats is the loop
    on exact seconds. *)
Lemma rounded_loop_exact (ffmpeg_ok : Z -> Q -> Q -> bool) (fuel : nat) :
  forall duration chunk_duration chunk_index start_time chunks,
    Rounded.split_audio_loop (fun x => x) ffmpeg_ok fuel duration
                             chunk_duration chunk_index start_time chunks
    = TranscribeAudio.split_audio_loop ffmpeg_ok fuel duration chunk_duration
                                       chunk_index start_time chunks.
Proof.
  induction fuel as [|fuel IH]; intros; [reflexivity|].
  cbn [Rounded.split_audio_loop TranscribeAudio.split_audio_loop].
  destruct (start_time ?= duration)%Q; reflexivity.
Qed.

(** The rounding on numbers whose nearest binary64 number is known:
    0.1, a number with fewer than 53 bits, two ties, a number above a
    tie and a negative number. *)
Example round64_examples :
  Binary64.round64 (1 # 10) = (3602879701896397 # 36028797018963968)%Q
  /\ Binary64.round64 (3 # 8) = (3 # 8)%Q
  /\ Binary64.round64 (inject_Z (2 ^ 53 + 1)) = inject_Z (2 ^ 53)
  /\ Binary64.round64 (inject_Z (2 ^ 53 + 3)) = inject_Z (2 ^ 53 + 4)
  /\ Binary64.round64 (inject_Z (2 ^ 54 + 3)) = inject_Z (2 ^ 54 + 4)
  /\ Binary64.round64 (- (1111 # 10))
     = (- (3908983739069235 # 35184372088832))%Q.
Proof. repeat split; vm_compute; reflexivity. Qed.

(** Rounding reads its argument as a number. *)
Lemma round64_same (x y : Q) :
  (x == y)%Q -> (Binary64.round64 x == Binary64.round64 y)%Q.
Proof.
  intros E. unfold Binary64.round64.
  rewrite (Qred_complete x y E). reflexivity.
Qed.

(** The scenario of 150 s of audio cut every 60 s, in float
    arithmetic. *)
Lemma chunker_spans_witness :
  exists chunks,
    Rounded.transcribe_audio_chunks Binary64.round64 (fun _ _ _ => true) 3
                                    true 150 60
    = Some (Some chunks)
    /\ length chunks = 3%nat.
Proof.
  assert (Hsums : forall m, (m < 3)%nat ->
    (Binary64.round64 (TranscribeAudio.multiple 60 (S m))
     == TranscribeAudio.multiple 60 (S m))%Q).
  { intros m Hm. destruct m as [|[|[|m]]]; [reflexivity..|lia]. }
  destruct (proj2 (proj2 (chunker_spans Binary64.round64 (fun _ _ _ => true)
                            (fun _ _ _ => eq_refl) round64_same
                            150 60 eq_refl eq_refl 3 (le_n 3)))
                  eq_refl Hsums)
    as (chunks & _ & Hunits & Hlength & _).
  exists chunks. split; [exact (Hunits eq_refl)|exact Hlength].
Defined.

(** C2 as stated fails twice. A file of 80 s with chunks of 60 s is not
    longer than 1.5 chunks, and [split_audio_file] returns two spans for
    it, while [transcribe_audio] builds none. A file of 111.1 s with
    chunks of 10.1 s gets 12 chunks, not [ceil(D / C) = 11]: the running
    sum of the float 10.1 falls short of 111.1 after eleven turns, and a
    twelfth span of about 1.4e-14 s is cut. *)
Lemma chunker_spans_fail :
  ((80 <= Binary64.round64 (60 * (3 # 2)))%Q
   /\ Rounded.split_audio_file Binary64.round64 (fun _ _ _ => true) 5 80 60
      = Some [ (TranscribeAudio.ChunkFile 0, 0%Q, 60%Q);
               (TranscribeAudio.ChunkFile 1, 60%Q, 80%Q) ]
   /\ Rounded.transcribe_audio_chunks Binary64.round64 (fun _ _ _ => true) 5
                                      true 80 60
      = Some None)
  /\
  ((Binary64.round64 (Binary64.round64 (101 # 10) * (3 # 2))
    < Binary64.round64 (1111 # 10))%Q
   /\ TranscribeAudio.span_count (Binary64.round64 (1111 # 10))
                                 (Binary64.round64 (101 # 10)) = 11%nat
   /\ exists chunks,
        Rounded.transcribe_audio_chunks Binary64.round64 (fun _ _ _ => true)
          20 true (Binary64.round64 (1111 # 10)) (Binary64.round64 (101 # 10))
        = Some (Some chunks)
        /\ length chunks = 12%nat
        /\ last chunks
           = Some (TranscribeAudio.ChunkFile 11,
                   7817967478138469 # 70368744177664,
                   3908983739069235 # 35184372088832)).
Proof.
  split; [split; [discriminate|split; reflexivity]|].
  split; [reflexivity|]. split; [reflexivity|].
  eexists. split; [vm_compute; reflexivity|]. split; reflexivity.
Qed.

(** ** The worker pools *)

Section Pools.
Import Py TranscribeAudio.

(** What the future at position [pos] adds to [results]. *)
Lemma collect_acc (futures : list (Outcome Transcription))
    (completion_order : list nat) :
  forall results,
    fold_left (collect_step futures) completion_order results
    = results
      ++ omap (fun pos => futures !! pos ≫= returned_result) completion_order.
Proof.
  induction completion_order as [|pos order IH]; intros results.
  - cbn. now rewrite app_nil_r.
  - cbn [fold_left]. rewrite IH. unfold collect_step. cbn.
    destruct (futures !! pos) as [[r|e]|]; cbn;
      now rewrite <- ?app_assoc.
Qed.

Lemma omap_seq_lookup {B C} (g : B -> option C) (l : list B) :
  omap (fun pos => l !! pos ≫= g) (seq 0 (length l)) = omap g l.
Proof.
  induction l as [|b l IH]; [reflexivity|].
  cbn [length seq]. rewrite <- fmap_S_seq. cbn.
  rewrite <- IH.
  assert (Hshift : forall m : list nat,
    omap (fun pos => (b :: l) !! pos ≫= g) (S <$> m)
    = omap (fun pos => l !! pos ≫= g) m).
  { induction m as [|k m IHm]; [reflexivity|]. cbn. now rewrite IHm. }
  now rewrite Hshift.
Qed.

(** C3, amended. The summaries of the text chunks are put back in the
    order of the chunks, under their chunk index, whatever the order of
    completion. The transcription results are not: they are handed to the
    merger in the order of completion, a permutation of the order of
    submission, and in that order when the chunks complete in it. The
    merger's sort then puts the segments in order of start, and the merged
    transcript does not depend on the order of completion when no two
    segments of different results start at the same time. *)
Theorem pool_results_order :
  (forall chat_completion_simple prompts chunks api_key model language
          completion_order,
     completion_order ≡ₚ seq 0 (length chunks) ->
     SummarizeText.assemble
       (SummarizeText.collect
          (SummarizeText.submit_all chat_completion_simple prompts chunks
                                    (len chunks) api_key model language)
          completion_order)
       (len chunks)
     = SummarizeText.summaries_in_order chat_completion_simple prompts chunks
                                        (len chunks) api_key model language)
  /\
  (forall futures completion_order,
     completion_order ≡ₚ seq 0 (length futures) ->
     collect futures completion_order
     = omap (fun pos => futures !! pos ≫= returned_result) completion_order
     /\ collect futures completion_order ≡ₚ returned_results futures)
  /\
  (forall futures,
     collect futures (seq 0 (length futures)) = returned_results futures)
  /\
  (forall futures completion_order detected_language,
     completion_order ≡ₚ seq 0 (length futures) ->
     let result :=
       merge_collected futures completion_order detected_language in
     sorted_by_start (get_segments_or_empty result)
     /\ tr_language result = Some (or_unknown detected_language)
     /\ (no_shared_start (returned_results futures) ->
         result
         = merge_collected futures (seq 0 (length futures))
                           detected_language)).
Proof.
  assert (Hcollect : forall futures completion_order,
    completion_order ≡ₚ seq 0 (length futures) ->
    collect futures completion_order ≡ₚ returned_results futures).
  { intros futures completion_order Hperm. unfold collect.
    rewrite collect_acc. cbn [app].
    now rewrite Hperm, omap_seq_lookup. }
  assert (Hinorder : forall futures,
    collect futures (seq 0 (length futures)) = returned_results futures).
  { intros futures. unfold collect. rewrite collect_acc. cbn [app].
    apply omap_seq_lookup. }
  split; [|split; [|split]].
  - intros. now apply concurrent_in_order.
  - intros futures completion_order Hperm. split; [|now apply Hcollect].
    unfold collect. rewrite collect_acc. reflexivity.
  - exact Hinorder.
  - intros futures completion_order detected_language Hperm result.
    subst result. unfold merge_collected. cbn [tr_segments tr_language].
    rewrite !merged_tr_segments. unfold get_segments_or_empty at 1.
    cbn [tr_segments default]. split; [apply sort_by_start_sorted|].
    split; [reflexivity|]. intros Hno. do 2 f_equal.
    rewrite Hinorder. apply merged_segments_perm; [|exact Hno].
    symmetry. now apply Hcollect.
Qed.

End Pools.

Lemma pool_results_order_witness :
  let r0 := {| TranscribeAudio.tr_segments := Some [];
               TranscribeAudio.tr_language := Some (Py.str "en") |} in
  let r1 := {| TranscribeAudio.tr_segments := Some [];
               TranscribeAudio.tr_language := Some (Py.str "de") |} in
  TranscribeAudio.collect [Py.Returned r0; Py.Returned r1] [1%nat; 0%nat]
  = [r1; r0].
Proof.
  intros r0 r1.
  exact (proj1 (proj1 (proj2 pool_results_order)
                      [Py.Returned r0; Py.Returned r1] [1%nat; 0%nat]
                      (perm_swap 0%nat 1%nat []))).
Defined.

(** C3 as stated fails for the transcription pool: when the second chunk
    completes first, its result is handed to the merger first. *)
Lemma completion_order_reaches_merger :
  let r0 :=
    {| TranscribeAudio.tr_segments :=
         Some [ {| TranscribeAudio.seg_text := Py.str "first";
                   TranscribeAudio.seg_start := 0;
                   TranscribeAudio.seg_end := 5;
                   TranscribeAudio.seg_words := None |} ];
       TranscribeAudio.tr_language := Some (Py.str "en") |} in
  let r1 :=
    {| TranscribeAudio.tr_segments :=
         Some [ {| TranscribeAudio.seg_text := Py.str "second";
                   TranscribeAudio.seg_start := 60;
                   TranscribeAudio.seg_end := 65;
                   TranscribeAudio.seg_words := None |} ];
       TranscribeAudio.tr_language := Some (Py.str "en") |} in
  let futures := [Py.Returned r0; Py.Returned r1] in
  TranscribeAudio.collect futures [1%nat; 0%nat] = [r1; r0]
  /\ TranscribeAudio.returned_results futures = [r0; r1]
  /\ TranscribeAudio.collect futures [1%nat; 0%nat]
     <> TranscribeAudio.returned_results futures.
Proof. vm_compute. repeat split. discriminate. Qed.

(** * Further properties *)

(** ** Strings *)

Section StringFacts.
Import Py.

Lemma lstrip_split (t : text) :
  exists before, t = before ++ lstrip t /\ forallb is_space before = true.
Proof.
  induction t as [|c t (before & E & Hb)]; [now exists []|].
  cbn [lstrip]. destruct (is_space c) eqn:Hc.
  - exists (c :: before). split; [cbn; now rewrite <- E|].
    cbn. now rewrite Hc.
  - now exists [].
Qed.

(** Stripping removes a run of white space at each end and nothing else. *)
Lemma strip_split (t : text) :
  exists before after,
    t = before ++ strip t ++ after
    /\ forallb is_space before = true /\ forallb is_space after = true.
Proof.
  destruct (lstrip_split t) as (before & E1 & Hb).
  destruct (lstrip_split (rev (lstrip t))) as (after & E2 & Ha).
  exists before, (rev after). unfold strip, rstrip.
  split; [|split; [exact Hb|now rewrite forallb_rev]].
  rewrite <- rev_app_distr, <- E2, rev_involutive. exact E1.
Qed.

Lemma strip_length (t : text) : (length (strip t) <= length t)%nat.
Proof.
  destruct (strip_split t) as (before & after & E & _).
  rewrite E at 2. rewrite !length_app. lia.
Qed.

Lemma strip_keeps (t : text) (c : char) :
  In c t -> is_space c = false -> In c (strip t).
Proof.
  intros Hin Hc. destruct (strip_split t) as (before & after & E & Hb & Ha).
  rewrite E in Hin. rewrite forallb_forall in Hb, Ha.
  apply in_app_or in Hin as [Hin|Hin]; [apply Hb in Hin; congruence|].
  apply in_app_or in Hin as [Hin|Hin]; [exact Hin|].
  apply Ha in Hin. congruence.
Qed.

Lemma slice_split (t : text) (start stop : Z) :
  exists before after, t = before ++ slice t start stop ++ after.
Proof.
  unfold slice.
  set (s := Z.to_nat (adjust_index start (len t))).
  set (n := Z.to_nat (_ - _)).
  exists (firstn s t), (skipn n (skipn s t)).
  now rewrite firstn_skipn, firstn_skipn.
Qed.

Lemma slice_length (t : text) (start stop : Z) :
  0 <= start <= stop -> stop <= len t ->
  len (slice t start stop) = stop - start.
Proof.
  intros Hs He. unfold slice, adjust_index, len in *.
  destruct (start <? 0) eqn:E1; [apply Z.ltb_lt in E1; lia|].
  destruct (stop <? 0) eqn:E2; [apply Z.ltb_lt in E2; lia|].
  rewrite length_firstn, length_skipn. lia.
Qed.

Lemma slice_lookup (t : text) (start stop : Z) (i : nat) (c : char) :
  0 <= start -> stop <= len t -> start <= Z.of_nat i < stop ->
  t !! i = Some c -> In c (slice t start stop).
Proof.
  intros Hs He Hi Hc. unfold slice, adjust_index, len in *.
  destruct (start <? 0) eqn:E1; [apply Z.ltb_lt in E1; lia|].
  destruct (stop <? 0) eqn:E2; [apply Z.ltb_lt in E2; lia|].
  apply list_elem_of_In, list_elem_of_lookup.
  exists (i - Z.to_nat start)%nat.
  rewrite lookup_take_lt by lia. rewrite lookup_drop.
  replace (Z.to_nat (Z.min start (Z.of_nat (length t))) + (i - Z.to_nat start))%nat
    with i by lia.
  exact Hc.
Qed.

Lemma rfind_down_bounds (t sub : text) (lo : Z) (n : nat) :
  rfind_down t sub lo n = -1
  \/ lo <= rfind_down t sub lo n < lo + Z.of_nat n.
Proof.
  induction n as [|n IH]; [now left|]. cbn [rfind_down].
  destruct (starts_with _ _); [right; lia|].
  destruct IH as [IH|IH]; [now left|right; lia].
Qed.

(** A match of [rfind] lies within the range it was asked to search. *)
Lemma rfind_bounds (t sub : text) (start stop : Z) :
  0 <= start -> 0 <= stop <= len t ->
  rfind t sub start stop = -1
  \/ start <= rfind t sub start stop
     /\ rfind t sub start stop + len sub <= stop.
Proof.
  intros Hs He. unfold rfind, adjust_index.
  destruct (start <? 0) eqn:E1; [apply Z.ltb_lt in E1; lia|].
  destruct (stop <? 0) eqn:E2; [apply Z.ltb_lt in E2; lia|].
  replace (Z.min stop (len t)) with stop by lia.
  destruct (rfind_down_bounds t sub start
              (Z.to_nat (stop - len sub - start + 1))) as [H|H];
    [now left|right; lia].
Qed.

End StringFacts.

(** ** The text chunker, window by window *)

Section WindowFacts.
Import Py SummarizeText ChunkWindows.

Lemma separators_not_empty : Forall (fun sep => 1 <= len sep) separators.
Proof. repeat constructor; vm_compute; discriminate. Qed.

(** Looking for a separator can only pull [end] back, and never to
    [start] or before it. *)
Lemma find_break_bounds (seps : list text) (t : text) (start end_ : Z) :
  Forall (fun sep => 1 <= len sep) seps ->
  0 <= start <= end_ -> end_ <= len t ->
  (find_break seps t start end_ = end_
   \/ start < find_break seps t start end_)
  /\ find_break seps t start end_ <= end_.
Proof.
  intros Hseps Hs He. induction Hseps as [|sep seps Hsep _ IH];
    cbn [find_break]; [split; [now left|lia]|].
  destruct (rfind t sep start end_ =? -1) eqn:E; [exact IH|].
  apply Z.eqb_neq in E.
  destruct (rfind_bounds t sep start end_) as [H|[H1 H2]]; lia.
Qed.

Lemma chunk_end_bounds (t : text) (chunk_size start : Z) :
  0 <= chunk_size -> 0 <= start < len t ->
  start <= chunk_end t chunk_size start
  /\ chunk_end t chunk_size start <= start + chunk_size
  /\ chunk_end t chunk_size start <= len t
  /\ (1 <= chunk_size -> start < chunk_end t chunk_size start).
Proof.
  intros Hsize Hstart. unfold chunk_end.
  destruct (Z.min (start + chunk_size) (len t) <? len t) eqn:E; [|lia].
  destruct (find_break_bounds separators t start
              (Z.min (start + chunk_size) (len t)) separators_not_empty)
    as [[H|H] H']; lia.
Qed.

(** The chunks are the stripped windows that are not empty. *)
Lemma split_loop_windows (fuel : nat) (t : text) (chunk_size chunk_overlap : Z) :
  forall start chunks,
    split_loop fuel t chunk_size chunk_overlap start chunks
    = option_map (fun ws => chunks_of t ws chunks)
        (windows_from fuel t chunk_size chunk_overlap start).
Proof.
  induction fuel as [|fuel IH]; intros start chunks;
    cbn [split_loop windows_from]; destruct (start <? len t); try reflexivity.
  rewrite IH. now destruct (windows_from fuel _ _ _ _).
Qed.

Lemma windows_from_fuel (fuel : nat) (t : text) (chunk_size chunk_overlap : Z) :
  forall start,
    len t - start <= Z.of_nat fuel ->
    exists ws, windows_from fuel t chunk_size chunk_overlap start = Some ws.
Proof.
  intros start Hfuel.
  destruct (split_loop_fuel fuel t chunk_size chunk_overlap start [] Hfuel)
    as [r Hr].
  rewrite split_loop_windows in Hr.
  destruct (windows_from fuel _ _ _ _); [eauto|discriminate].
Qed.

Lemma windows_run (t : text) (chunk_size chunk_overlap : Z) :
  windows_from (length t) t chunk_size chunk_overlap 0
  = Some (windows t chunk_size chunk_overlap).
Proof.
  unfold windows.
  destruct (windows_from_fuel (length t) t chunk_size chunk_overlap 0) as [ws E];
    [unfold len; lia|].
  now rewrite E.
Qed.

Lemma split_text_into_chunks_windows (t : text) (chunk_size chunk_overlap : Z) :
  split_text_into_chunks t chunk_size chunk_overlap
  = chunks_of t (windows t chunk_size chunk_overlap) [].
Proof.
  unfold split_text_into_chunks, split_text_into_chunks_fuel.
  destruct t as [|c t]; [reflexivity|].
  now rewrite split_loop_windows, windows_run.
Qed.

Lemma chunks_of_app (t : text) (ws : list (Z * Z)) :
  forall chunks, chunks_of t ws chunks = chunks ++ chunks_of t ws [].
Proof.
  induction ws as [|w ws IH]; intros chunks; cbn; [now rewrite app_nil_r|].
  unfold chunks_of in *. rewrite IH.
  rewrite (IH (append_chunk [] _)). unfold append_chunk.
  destruct (window_chunk t w); [reflexivity|]. now rewrite <- app_assoc.
Qed.

Lemma chunks_of_cons (t : text) (w : Z * Z) (ws : list (Z * Z)) :
  chunks_of t (w :: ws) []
  = append_chunk [] (window_chunk t w) ++ chunks_of t ws [].
Proof. cbn. apply chunks_of_app. Qed.

(** Every chunk is the stripped content of a window, and every window
    with content gives a chunk. *)
Lemma chunks_of_elem (t : text) (ws : list (Z * Z)) (chunk : text) :
  In chunk (chunks_of t ws [])
  <-> chunk <> [] /\ exists w, In w ws /\ chunk = window_chunk t w.
Proof.
  induction ws as [|w ws IH]; [cbn; split; [tauto|intros (_ & w & [] & _)]|].
  rewrite chunks_of_cons, in_app_iff, IH. unfold append_chunk. split.
  - intros [H|(Hne & w' & Hw' & E)].
    + destruct (window_chunk t w) as [|c x] eqn:Ew; [destruct H|].
      destruct H as [<-|[]]. split; [discriminate|]. exists w.
      split; [now left|now rewrite Ew].
    + split; [exact Hne|]. exists w'. split; [now right|exact E].
  - intros (Hne & w' & [<-|Hw'] & E).
    + left. rewrite <- E. destruct chunk; [congruence|now left].
    + right. split; [exact Hne|]. now exists w'.
Qed.

Lemma chunks_of_length (t : text) (ws : list (Z * Z)) :
  (length (chunks_of t ws []) <= length ws)%nat.
Proof.
  induction ws as [|w ws IH]; [cbn; lia|].
  rewrite chunks_of_cons, length_app. unfold append_chunk.
  destruct (window_chunk t w); cbn in *; lia.
Qed.

(** Windows start at a position of the text, one after the other. *)
Lemma windows_from_elem (fuel : nat) (t : text) (chunk_size chunk_overlap : Z) :
  forall start ws w,
    0 <= start ->
    windows_from fuel t chunk_size chunk_overlap start = Some ws ->
    In w ws ->
    start <= fst w < len t /\ snd w = chunk_end t chunk_size (fst w).
Proof.
  induction fuel as [|fuel IH]; intros start ws w Hstart;
    cbn [windows_from]; destruct (start <? len t) eqn:Hlt;
    try discriminate; try (intros [= <-] []).
  apply Z.ltb_lt in Hlt.
  destruct (windows_from fuel _ _ _ _) as [ws'|] eqn:E; [|discriminate].
  intros [= <-] [<-|Hw]; [cbn [fst snd]; split; [lia|reflexivity]|].
  pose proof (next_start_gt start (chunk_end t chunk_size start) chunk_overlap)
    as Hnext.
  assert (Hpos : 0 <= next_start start (chunk_end t chunk_size start)
                                 chunk_overlap) by lia.
  destruct (IH _ _ w Hpos E Hw). split; [lia|assumption].
Qed.

Lemma windows_from_length (fuel : nat) (t : text) (chunk_size chunk_overlap : Z) :
  forall start ws,
    0 <= start ->
    windows_from fuel t chunk_size chunk_overlap start = Some ws ->
    Z.of_nat (length ws) <= Z.max 0 (len t - start).
Proof.
  induction fuel as [|fuel IH]; intros start ws Hstart;
    cbn [windows_from]; destruct (start <? len t) eqn:Hlt;
    try discriminate; try (intros [= <-]; cbn; lia).
  apply Z.ltb_lt in Hlt.
  destruct (windows_from fuel _ _ _ _) as [ws'|] eqn:E; [|discriminate].
  intros [= <-].
  pose proof (next_start_gt start (chunk_end t chunk_size start) chunk_overlap)
    as Hnext.
  assert (Hpos : 0 <= next_start start (chunk_end t chunk_size start)
                                 chunk_overlap) by lia.
  specialize (IH _ _ Hpos E). cbn [length]. lia.
Qed.

End WindowFacts.

Section ChunkerExtras.
Import Py SummarizeText ChunkWindows.

Lemma window_chunk_piece (t : text) (w : Z * Z) : piece_of t (window_chunk t w).
Proof.
  unfold window_chunk.
  destruct (slice_split t (fst w) (snd w)) as (b & a & E).
  destruct (strip_split (slice t (fst w) (snd w))) as (b' & a' & E' & _).
  exists (b ++ b'), (a' ++ a). rewrite E at 1. rewrite E' at 1.
  now rewrite <- !app_assoc.
Qed.

Lemma windows_elem (t : text) (chunk_size chunk_overlap : Z) (w : Z * Z) :
  In w (windows t chunk_size chunk_overlap) ->
  0 <= fst w < len t /\ snd w = chunk_end t chunk_size (fst w).
Proof.
  intros Hw.
  apply (windows_from_elem (length t) t chunk_size chunk_overlap 0
           (windows t chunk_size chunk_overlap) w ltac:(lia));
    [apply windows_run|exact Hw].
Qed.

(** X1. Chunking never alters text and never makes more chunks than the
    text has characters: every chunk is a run of consecutive characters
    of the text, and for a chunk size that is not negative no chunk is
    longer than the chunk size. *)
Theorem chunks_are_bounded_pieces (t : text) (chunk_size chunk_overlap : Z) :
  let chunks := split_text_into_chunks t chunk_size chunk_overlap in
  Forall (piece_of t) chunks
  /\ (length chunks <= length t)%nat
  /\ (0 <= chunk_size -> Forall (fun chunk => len chunk <= chunk_size) chunks).
Proof.
  cbv zeta. rewrite split_text_into_chunks_windows. split; [|split].
  - apply List.Forall_forall. intros chunk Hc.
    apply chunks_of_elem in Hc as (_ & w & _ & ->). apply window_chunk_piece.
  - etransitivity; [apply chunks_of_length|].
    pose proof (windows_from_length (length t) t chunk_size chunk_overlap 0 _
                  ltac:(lia) (windows_run t chunk_size chunk_overlap)) as H.
    unfold len in H. lia.
  - intros Hsize. apply List.Forall_forall. intros chunk Hc.
    apply chunks_of_elem in Hc as (_ & w & Hw & ->).
    apply windows_elem in Hw as [Hstart Hend].
    destruct (chunk_end_bounds t chunk_size (fst w) Hsize Hstart)
      as (H1 & H2 & H3 & _).
    unfold window_chunk. rewrite Hend.
    pose proof (strip_length (slice t (fst w) (chunk_end t chunk_size (fst w)))).
    pose proof (slice_length t (fst w) (chunk_end t chunk_size (fst w))
                  ltac:(lia) H3) as Hlen.
    unfold len in *. lia.
Qed.

Lemma chunks_are_bounded_pieces_witness :
  Forall (fun chunk => len chunk <= 4)
    (split_text_into_chunks [65; 66; 10; 67; 68; 69; 12290; 70; 71] 4 1).
Proof.
  apply (proj2 (proj2 (chunks_are_bounded_pieces
                         [65; 66; 10; 67; 68; 69; 12290; 70; 71] 4 1))).
  vm_compute. discriminate.
Defined.

(** With a chunk size of at least one and an overlap that is not
    negative, the windows leave no gap. *)
Lemma windows_cover (fuel : nat) (t : text) (chunk_size chunk_overlap : Z) :
  1 <= chunk_size -> 0 <= chunk_overlap ->
  forall start ws i,
    0 <= start ->
    windows_from fuel t chunk_size chunk_overlap start = Some ws ->
    start <= i < len t ->
    exists w, In w ws /\ fst w <= i < snd w.
Proof.
  intros Hsize Hov.
  induction fuel as [|fuel IH]; intros start ws i Hstart;
    cbn [windows_from]; destruct (start <? len t) eqn:Hlt;
    try discriminate; try (apply Z.ltb_ge in Hlt; intros; lia).
  apply Z.ltb_lt in Hlt.
  destruct (windows_from fuel _ _ _ _) as [ws'|] eqn:E; [|discriminate].
  intros [= <-] Hi.
  destruct (chunk_end_bounds t chunk_size start ltac:(lia) ltac:(lia))
    as (_ & _ & _ & Hend). specialize (Hend Hsize).
  destruct (Z.lt_ge_cases i (chunk_end t chunk_size start)) as [Hin|Hout].
  - exists (start, chunk_end t chunk_size start). split; [now left|cbn; lia].
  - assert (Hnext : 0 <= next_start start (chunk_end t chunk_size start)
                                    chunk_overlap <= i)
      by (unfold next_start; lia).
    destruct (IH _ _ i (proj1 Hnext) E ltac:(lia)) as (w & Hw & Hiw).
    exists w. split; [now right|exact Hiw].
Qed.

(** A character that is not white space is in the chunk of the window
    that covers its position. *)
Lemma character_in_chunk (t : text) (chunk_size chunk_overlap : Z)
    (i : nat) (c : char) :
  1 <= chunk_size -> 0 <= chunk_overlap ->
  t !! i = Some c -> is_space c = false ->
  exists chunk,
    In chunk (split_text_into_chunks t chunk_size chunk_overlap)
    /\ In c chunk.
Proof.
  intros Hsize Hov Hi Hc.
  pose proof (lookup_lt_Some _ _ _ Hi) as Hlt.
  destruct (windows_cover (length t) t chunk_size chunk_overlap Hsize Hov 0
              (windows t chunk_size chunk_overlap) (Z.of_nat i) ltac:(lia)
              (windows_run t chunk_size chunk_overlap))
    as (w & Hw & Hiw); [unfold len; lia|].
  apply windows_elem in Hw as Hbounds. destruct Hbounds as [Hstart Hend].
  destruct (chunk_end_bounds t chunk_size (fst w) ltac:(lia) Hstart)
    as (_ & _ & Hlen & _).
  assert (Hin : In c (window_chunk t w)).
  { unfold window_chunk. apply strip_keeps; [|exact Hc].
    apply (slice_lookup t (fst w) (snd w) i c); try lia. exact Hi. }
  exists (window_chunk t w). split; [|exact Hin].
  rewrite split_text_into_chunks_windows. apply chunks_of_elem.
  split; [intros E; rewrite E in Hin; destruct Hin|].
  now exists w.
Qed.

Lemma slice_at (t : text) (start stop : Z) :
  0 <= start <= stop -> stop <= len t ->
  slice t start stop
  = take (Z.to_nat (stop - start)) (drop (Z.to_nat start) t).
Proof.
  intros Hs He. unfold slice, adjust_index, len in *.
  destruct (start <? 0) eqn:E1; [apply Z.ltb_lt in E1; lia|].
  destruct (stop <? 0) eqn:E2; [apply Z.ltb_lt in E2; lia|].
  rewrite !Z.min_l by lia. reflexivity.
Qed.

(** [strip] keeps a run of the text that holds every character that is
    not white space, at its own position. *)
Lemma strip_at (t : text) :
  exists n,
    (n + length (strip t) <= length t)%nat
    /\ (forall m, (m < length (strip t))%nat ->
          strip t !! m = t !! (n + m)%nat)
    /\ (forall k c, t !! k = Some c -> is_space c = false ->
          (n <= k < n + length (strip t))%nat).
Proof.
  destruct (strip_split t) as (before & after & E & Hb & Ha).
  remember (strip t) as st eqn:Est. clear Est. subst t. unfold text in *.
  exists (length before). split; [|split].
  - rewrite !length_app. lia.
  - intros m Hm. rewrite lookup_app_r by lia.
    replace (length before + m - length before)%nat with m by lia.
    now rewrite lookup_app_l by lia.
  - intros k c Hk Hc. rewrite forallb_forall in Hb, Ha.
    destruct (Nat.lt_ge_cases k (length before)) as [Hlt|Hge].
    { rewrite lookup_app_l in Hk by lia.
      apply list_elem_of_lookup_2, list_elem_of_In, Hb in Hk. congruence. }
    rewrite lookup_app_r in Hk by lia.
    destruct (Nat.lt_ge_cases (k - length before) (length st))
      as [Hlt|Hge']; [lia|].
    rewrite lookup_app_r in Hk by lia.
    apply list_elem_of_lookup_2, list_elem_of_In, Ha in Hk. congruence.
Qed.

(** A character that is not white space, at position [i] inside a
    window, is in the chunk of the window at the matching position. *)
Lemma window_chunk_at (t : text) (w : Z * Z) (i : nat) (c : char) :
  0 <= fst w -> snd w <= len t -> fst w <= Z.of_nat i < snd w ->
  t !! i = Some c -> is_space c = false ->
  exists j,
    (j <= i)%nat
    /\ window_chunk t w !! j = Some c
    /\ (forall m, (m < length (window_chunk t w))%nat ->
          window_chunk t w !! m = t !! (i - j + m)%nat).
Proof.
  intros Hs He Hi Hc Hsp. unfold window_chunk.
  rewrite (slice_at t (fst w) (snd w)) by lia. unfold text in *.
  set (a := Z.to_nat (fst w)). set (L := Z.to_nat (snd w - fst w)).
  destruct (strip_at (take L (drop a t))) as (n & Hlen & Hrun & Hkeep).
  unfold text in *.
  assert (Hlen' : length (take L (drop a t)) = L).
  { rewrite length_take, length_drop. unfold len in He. lia. }
  assert (Hin : take L (drop a t) !! (i - a)%nat = Some c).
  { rewrite lookup_take_lt by lia. rewrite lookup_drop.
    replace (a + (i - a))%nat with i by lia. exact Hc. }
  destruct (Hkeep _ _ Hin Hsp) as [H1 H2].
  exists (i - a - n)%nat. split; [lia|]. split.
  - rewrite Hrun by lia.
    replace (n + (i - a - n))%nat with (i - a)%nat by lia. exact Hin.
  - intros m Hm. rewrite (Hrun m Hm).
    rewrite lookup_take_lt by lia. rewrite lookup_drop. f_equal. lia.
Qed.

(** The chunks are the stripped windows that are not empty, in the order
    of the windows. *)
Lemma chunks_of_filter (t : text) (ws : list (Z * Z)) :
  chunks_of t ws []
  = List.filter (fun chunk => negb (is_empty chunk)) (map (window_chunk t) ws).
Proof.
  induction ws as [|w ws IH]; [reflexivity|].
  rewrite chunks_of_cons, IH. cbn [map List.filter]. unfold append_chunk.
  now destruct (window_chunk t w).
Qed.

(** X2. With a chunk size of at least one and an overlap that is not
    negative, no character is skipped. The chunks are the stripped
    windows of the loop that are not empty, one chunk per window and in
    the order of the windows; and every position [i] of the text that
    holds a character that is not white space lies in a window whose
    chunk holds that very occurrence: the chunk is the text read from
    position [i - j] on, so its position [j] is position [i] of the
    text. *)
Theorem no_character_skipped (t : text) (chunk_size chunk_overlap : Z)
    (i : nat) (c : char) :
  1 <= chunk_size -> 0 <= chunk_overlap ->
  t !! i = Some c -> is_space c = false ->
  split_text_into_chunks t chunk_size chunk_overlap
  = List.filter (fun chunk => negb (is_empty chunk))
                (map (window_chunk t) (windows t chunk_size chunk_overlap))
  /\ exists w j,
       In w (windows t chunk_size chunk_overlap)
       /\ fst w <= Z.of_nat i < snd w
       /\ In (window_chunk t w)
             (split_text_into_chunks t chunk_size chunk_overlap)
       /\ (j <= i)%nat
       /\ window_chunk t w !! j = Some c
       /\ (forall m, (m < length (window_chunk t w))%nat ->
             window_chunk t w !! m = t !! (i - j + m)%nat).
Proof.
  intros Hsize Hov Hi Hc.
  split; [rewrite split_text_into_chunks_windows; apply chunks_of_filter|].
  pose proof (lookup_lt_Some _ _ _ Hi) as Hlt.
  destruct (windows_cover (length t) t chunk_size chunk_overlap Hsize Hov 0
              (windows t chunk_size chunk_overlap) (Z.of_nat i) ltac:(lia)
              (windows_run t chunk_size chunk_overlap))
    as (w & Hw & Hiw); [unfold len; lia|].
  apply windows_elem in Hw as Hbounds. destruct Hbounds as [Hstart Hend].
  destruct (chunk_end_bounds t chunk_size (fst w) ltac:(lia) Hstart)
    as (_ & _ & Hlen & _).
  destruct (window_chunk_at t w i c ltac:(lia) ltac:(lia) Hiw Hi Hc)
    as (j & Hj & Hat & Hrun).
  exists w, j. repeat split; try assumption; try lia.
  rewrite split_text_into_chunks_windows. apply chunks_of_elem.
  split; [intros E; rewrite E in Hat; discriminate|].
  now exists w.
Qed.

(** The letter at position 7 of a text of nine characters: the third
    window, from 5 to 9, gives the chunk that holds it at position 2. *)
Lemma no_character_skipped_witness :
  let t : text := [65; 66; 10; 67; 68; 69; 12290; 70; 71] in
  exists w j,
    In w (windows t 4 1)
    /\ fst w <= 7 < snd w
    /\ In (window_chunk t w) (split_text_into_chunks t 4 1)
    /\ (j <= 7)%nat
    /\ window_chunk t w !! j = Some 70
    /\ (forall m, (m < length (window_chunk t w))%nat ->
          window_chunk t w !! m = t !! (7 - j + m)%nat).
Proof.
  intros t.
  apply (proj2 (no_character_skipped t 4 1 7%nat 70 ltac:(lia) ltac:(lia)
                  eq_refl eq_refl)).
Defined.

Lemma not_blank_has_character (t : text) :
  strip t <> [] -> exists i c, t !! i = Some c /\ is_space c = false.
Proof.
  intros Hne.
  assert (Hsome : forallb is_space t = false).
  { destruct (forallb is_space t) eqn:E; [|reflexivity].
    now apply strip_all_space in E. }
  clear Hne. induction t as [|c t IH]; [discriminate|].
  cbn in Hsome. destruct (is_space c) eqn:Hc.
  - destruct (IH Hsome) as (i & c' & Hi & Hc'). now exists (S i), c'.
  - now exists 0%nat, c.
Qed.

(** A text that is not blank gives at least one chunk. *)
Lemma not_blank_has_chunk (t : text) (chunk_size chunk_overlap : Z) :
  1 <= chunk_size -> 0 <= chunk_overlap -> strip t <> [] ->
  split_text_into_chunks t chunk_size chunk_overlap <> [].
Proof.
  intros Hsize Hov Hne.
  destruct (not_blank_has_character t Hne) as (i & c & Hi & Hc).
  destruct (character_in_chunk t chunk_size chunk_overlap i c Hsize Hov Hi Hc)
    as (chunk & Hin & _).
  intros E. rewrite E in Hin. destruct Hin.
Qed.

Lemma chunks_of_all (t : text) (ws : list (Z * Z)) :
  (forall w, In w ws -> window_chunk t w <> []) ->
  chunks_of t ws [] = map (window_chunk t) ws.
Proof.
  induction ws as [|w ws IH]; intros H; [reflexivity|].
  rewrite chunks_of_cons, IH by (intros w' Hw'; apply H; now right).
  specialize (H w ltac:(now left)). unfold append_chunk. cbn [map].
  destruct (window_chunk t w); [congruence|reflexivity].
Qed.

(** Once a window ends at the end of the text and the overlap reaches
    back to the next position, every later position starts a window that
    also ends there. *)
Lemma windows_from_tail (fuel : nat) (t : text) (chunk_size chunk_overlap : Z) :
  forall start,
    0 <= start -> len t <= start + chunk_size ->
    len t - chunk_overlap <= start + 1 ->
    len t - start <= Z.of_nat fuel ->
    windows_from fuel t chunk_size chunk_overlap start
    = Some (map (fun s => (s, len t)) (seqZ start (len t - start))).
Proof.
  induction fuel as [|fuel IH]; intros start Hstart Hsize Hov Hfuel;
    cbn [windows_from]; destruct (start <? len t) eqn:Hlt;
    try (apply Z.ltb_ge in Hlt; now rewrite seqZ_nil by lia);
    apply Z.ltb_lt in Hlt; [lia|].
  rewrite chunk_end_whole by exact Hsize.
  replace (next_start start (len t) chunk_overlap) with (start + 1)
    by (unfold next_start; lia).
  rewrite IH by lia. rewrite (seqZ_cons start) by lia. cbn [map option_map].
  do 4 f_equal; lia.
Qed.

(** X3. A text that fits in one chunk is not left in one piece when the
    overlap is positive: after the window that holds the whole text, the
    loop opens one more window at each of the last [overlap] positions.
    When the last character is not white space each window gives a chunk,
    so there are [1 + min(overlap, len(text) - 1)] chunks: the stripped
    text and stripped ends of it. *)
Theorem short_text_is_rechunked (t : text) (chunk_size chunk_overlap : Z)
    (c : char) :
  1 <= len t <= chunk_size -> 0 <= chunk_overlap ->
  last t = Some c -> is_space c = false ->
  let back := Z.max (len t - chunk_overlap) 1 in
  windows t chunk_size chunk_overlap
  = map (fun s => (s, len t)) (0 :: seqZ back (len t - back))
  /\ split_text_into_chunks t chunk_size chunk_overlap
     = map (fun s => strip (slice t s (len t))) (0 :: seqZ back (len t - back))
  /\ Z.of_nat (length (split_text_into_chunks t chunk_size chunk_overlap))
     = 1 + Z.min chunk_overlap (len t - 1).
Proof.
  intros Hlen Hov Hlast Hc back.
  assert (Hws : windows t chunk_size chunk_overlap
                = map (fun s => (s, len t)) (0 :: seqZ back (len t - back))).
  { unfold windows. destruct t as [|c0 t]; [unfold len in Hlen; cbn in Hlen; lia|].
    cbn [length windows_from]. change (0 <? len (c0 :: t)) with true. cbv iota.
    rewrite chunk_end_whole by lia.
    change (next_start 0 (len (c0 :: t)) chunk_overlap) with back.
    rewrite windows_from_tail; [reflexivity|unfold back, len in *; cbn [length] in *; lia..]. }
  assert (Hsolid : forall w,
            In w (map (fun s => (s, len t)) (0 :: seqZ back (len t - back))) ->
            window_chunk t w <> []).
  { intros w Hw. apply in_map_iff in Hw as (s & <- & Hs).
    assert (Hsb : 0 <= s < len t).
    { destruct Hs as [<-|Hs]; [lia|].
      apply list_elem_of_In, elem_of_seqZ in Hs. unfold back in Hs. lia. }
    rewrite last_lookup in Hlast.
    assert (Hin : In c (window_chunk t (s, len t))).
    { unfold window_chunk. apply strip_keeps; [|exact Hc]. cbn [fst snd].
      apply (slice_lookup t s (len t) (pred (length t)) c);
        unfold len in *; try lia. exact Hlast. }
    intros E. rewrite E in Hin. destruct Hin. }
  split; [exact Hws|].
  rewrite split_text_into_chunks_windows, Hws, (chunks_of_all _ _ Hsolid).
  rewrite map_map. split; [reflexivity|].
  rewrite length_map. cbn [length]. rewrite length_seqZ. unfold back. lia.
Qed.

Lemma short_text_is_rechunked_witness :
  split_text_into_chunks [97; 98; 99] 100000 300
  = [[97; 98; 99]; [98; 99]; [99]].
Proof.
  exact (proj1 (proj2 (short_text_is_rechunked [97; 98; 99] 100000 300 99
                         ltac:(vm_compute; split; discriminate)
                         ltac:(vm_compute; discriminate)
                         eq_refl eq_refl))).
Defined.

(** With an overlap of at least the chunk size the start moves by one
    character per turn. *)
Lemma windows_from_dense (fuel : nat) (t : text) (chunk_size chunk_overlap : Z) :
  0 <= chunk_size <= chunk_overlap ->
  forall start,
    0 <= start -> len t - start <= Z.of_nat fuel ->
    exists ws,
      windows_from fuel t chunk_size chunk_overlap start = Some ws
      /\ map fst ws = seqZ start (len t - start).
Proof.
  intros Hov. induction fuel as [|fuel IH]; intros start Hstart Hfuel;
    cbn [windows_from]; destruct (start <? len t) eqn:Hlt;
    try (apply Z.ltb_ge in Hlt; exists []; now rewrite seqZ_nil by lia);
    apply Z.ltb_lt in Hlt; [lia|].
  destruct (chunk_end_bounds t chunk_size start ltac:(lia) ltac:(lia))
    as (_ & Hend & _).
  replace (next_start start (chunk_end t chunk_size start) chunk_overlap)
    with (start + 1) by (unfold next_start; lia).
  destruct (IH (start + 1) ltac:(lia) ltac:(lia)) as (ws & -> & Hfst).
  eexists. split; [reflexivity|]. cbn [map fst].
  rewrite Hfst, (seqZ_cons start) by lia. do 2 f_equal; lia.
Qed.

(** X4. With an overlap of at least the chunk size the chunker opens a
    window at every position of the text; when the chunk size is at least
    one and the text has no white space, that is one chunk per
    character. *)
Theorem large_overlap_one_window_per_character (t : text)
    (chunk_size chunk_overlap : Z) :
  0 <= chunk_size <= chunk_overlap ->
  map fst (windows t chunk_size chunk_overlap) = seqZ 0 (len t)
  /\ (1 <= chunk_size -> forallb (fun c => negb (is_space c)) t = true ->
      length (split_text_into_chunks t chunk_size chunk_overlap) = length t).
Proof.
  intros Hov.
  destruct (windows_from_dense (length t) t chunk_size chunk_overlap Hov 0
              ltac:(lia) ltac:(unfold len; lia)) as (ws & Hws & Hfst).
  assert (E : windows t chunk_size chunk_overlap = ws)
    by (unfold windows; now rewrite Hws).
  rewrite Z.sub_0_r in Hfst. split; [now rewrite E|].
  intros Hsize Hsolid. rewrite split_text_into_chunks_windows.
  rewrite chunks_of_all.
  - rewrite length_map, E, <- (length_map fst), Hfst, length_seqZ.
    unfold len. lia.
  - intros w Hw. apply windows_elem in Hw as [Hstart Hend].
    destruct (chunk_end_bounds t chunk_size (fst w) ltac:(lia) Hstart)
      as (_ & _ & Hlen & Hgt). specialize (Hgt Hsize).
    destruct (lookup_lt_is_Some_2 t (Z.to_nat (fst w)) ltac:(unfold len in *; lia))
      as [c Hc].
    assert (Hin : In c (window_chunk t w)).
    { unfold window_chunk. apply strip_keeps.
      - apply (slice_lookup t (fst w) (snd w) (Z.to_nat (fst w)) c);
          try lia. exact Hc.
      - rewrite forallb_forall in Hsolid.
        apply list_elem_of_lookup_2, list_elem_of_In, Hsolid in Hc.
        now apply negb_true_iff in Hc. }
    intros F. rewrite F in Hin. destruct Hin.
Qed.

Lemma large_overlap_one_window_per_character_witness :
  length (split_text_into_chunks [97; 98; 99; 100] 2 5) = 4%nat.
Proof.
  exact (proj2 (large_overlap_one_window_per_character [97; 98; 99; 100] 2 5
                  ltac:(vm_compute; split; discriminate))
               ltac:(vm_compute; discriminate) eq_refl).
Defined.

(** A blank text gives no chunk. *)
Lemma blank_text_no_chunk (t : text) (chunk_size chunk_overlap : Z) :
  forallb is_space t = true ->
  split_text_into_chunks t chunk_size chunk_overlap = [].
Proof.
  intros Hblank.
  pose proof (split_text_into_chunks_solid t chunk_size chunk_overlap) as Hs.
  destruct (split_text_into_chunks t chunk_size chunk_overlap) as [|chunk l] eqn:E;
    [reflexivity|exfalso].
  apply Forall_inv in Hs as [_ Hs].
  assert (Hin : In chunk (split_text_into_chunks t chunk_size chunk_overlap))
    by (rewrite E; now left).
  rewrite split_text_into_chunks_windows in Hin.
  apply chunks_of_elem in Hin as (_ & w & _ & ->).
  destruct (window_chunk_piece t w) as (b & a & Ht).
  rewrite Ht, !forallb_app in Hblank.
  apply andb_true_iff in Hblank as [_ Hblank].
  apply andb_true_iff in Hblank as [Hblank _]. congruence.
Qed.

(** With a chunk size of zero every window is empty. *)
Lemma zero_size_no_chunk (t : text) (chunk_overlap : Z) :
  split_text_into_chunks t 0 chunk_overlap = [].
Proof.
  rewrite split_text_into_chunks_windows.
  destruct (chunks_of t (windows t 0 chunk_overlap) []) as [|chunk l] eqn:E;
    [reflexivity|exfalso].
  assert (Hin : In chunk (chunks_of t (windows t 0 chunk_overlap) []))
    by (rewrite E; now left).
  apply chunks_of_elem in Hin as (Hne & w & Hw & Hchunk).
  apply windows_elem in Hw as [Hstart Hend].
  destruct (chunk_end_bounds t 0 (fst w) ltac:(lia) Hstart) as (H1 & H2 & _).
  apply Hne. rewrite Hchunk. unfold window_chunk, slice.
  replace (snd w) with (fst w) by lia. now rewrite Z.sub_diag.
Qed.

End ChunkerExtras.

(** ** Summarisation: inputs that are refused, texts of one chunk *)

Section SummarizeExtras.
Import Py SummarizeText.

Variable chat_completion_simple : ChatCall -> Outcome text.
Variable prompts : Prompts.

(** X5. Without an API key (none given and both environment variables
    unset or empty) [summarize_text] raises a [ValueError] whatever the
    text; with a key, an empty or blank text raises a [ValueError]: in
    both cases whatever the completion service would answer. *)
Theorem summarize_text_refuses (getenv_API_KEY_302_AI getenv_OPENAI_API_KEY :
      option text)
    (t : text) (api_key : option text) (model : text)
    (chunk_size chunk_overlap : Z) (language : text) (enable_async : bool)
    (max_workers : Z) (completion_order : list nat) :
  let result :=
    summarize_text chat_completion_simple prompts getenv_API_KEY_302_AI
                   getenv_OPENAI_API_KEY t api_key model chunk_size
                   chunk_overlap language enable_async max_workers
                   completion_order in
  (api_key = None ->
   is_empty (default [] getenv_API_KEY_302_AI) = true ->
   is_empty (default [] getenv_OPENAI_API_KEY) = true ->
   result = Raised (ValueError msg_no_api_key))
  /\ (forall key,
        resolve_api_key getenv_API_KEY_302_AI getenv_OPENAI_API_KEY api_key
        = Returned key ->
        forallb is_space t = true ->
        result = Raised (ValueError msg_empty_text)).
Proof.
  cbv zeta. unfold summarize_text. split.
  - intros -> H1 H2. unfold resolve_api_key, py_or.
    destruct getenv_API_KEY_302_AI as [[|c k]|], getenv_OPENAI_API_KEY as [[|c' k']|];
      try discriminate; reflexivity.
  - intros key -> Hblank. cbn [bind].
    rewrite (strip_all_space t Hblank). cbn [is_empty].
    now rewrite orb_true_r.
Qed.

(** X6. A text that gives a single chunk is summarised by one call and
    [summarize_text] never raises on it: when that call fails, the
    placeholder built from the exception is returned as the summary. No
    final call is made. *)
Theorem summarize_text_single_chunk (getenv_API_KEY_302_AI
      getenv_OPENAI_API_KEY : option text)
    (t : text) (api_key : option text) (model : text)
    (chunk_size chunk_overlap : Z) (language : text) (enable_async : bool)
    (max_workers : Z) (completion_order : list nat) (key chunk : text) :
  resolve_api_key getenv_API_KEY_302_AI getenv_OPENAI_API_KEY api_key
  = Returned key ->
  split_text_into_chunks t chunk_size chunk_overlap = [chunk] ->
  summarize_text chat_completion_simple prompts getenv_API_KEY_302_AI
                 getenv_OPENAI_API_KEY t api_key model chunk_size
                 chunk_overlap language enable_async max_workers
                 completion_order
  = Returned
      match chat_completion_simple (chunk_call prompts chunk 1 1 key model language)
      with
      | Returned summary => summary
      | Raised e =>
          [91; 32317; 32080; 22833; 25943; 58; 32]
          ++ match e with
             | ValueError msg | KeyError msg | Exception msg => msg
             end
          ++ [93]
      end.
Proof.
  intros Hkey Hone. unfold summarize_text. rewrite Hkey. cbn [bind].
  assert (Hblank : is_empty t || is_empty (strip t) = false).
  { destruct (is_empty t || is_empty (strip t)) eqn:E; [|reflexivity].
    assert (Hb : forallb is_space t = true).
    { apply orb_true_iff in E as [E|E].
      - now destruct t.
      - destruct (strip_split t) as (b & a & Ht & Hb & Ha).
        destruct (strip t); [|discriminate].
        rewrite Ht, !forallb_app, Hb, Ha. reflexivity. }
    rewrite (blank_text_no_chunk t chunk_size chunk_overlap Hb) in Hone.
    discriminate. }
  rewrite Hblank, Hone. apply summarize_chunk_returns.
Qed.

(** X7. With a key and a text that is not blank, the [ValueError] for
    "no chunk" is raised for a chunk size of zero, and cannot be raised
    for a chunk size of at least one with an overlap that is not
    negative. *)
Theorem summarize_text_no_chunk_error (getenv_API_KEY_302_AI
      getenv_OPENAI_API_KEY : option text)
    (t : text) (api_key : option text) (model : text)
    (chunk_size chunk_overlap : Z) (language : text) (enable_async : bool)
    (max_workers : Z) (completion_order : list nat) (key : text) :
  let result :=
    summarize_text chat_completion_simple prompts getenv_API_KEY_302_AI
                   getenv_OPENAI_API_KEY t api_key model chunk_size
                   chunk_overlap language enable_async max_workers
                   completion_order in
  resolve_api_key getenv_API_KEY_302_AI getenv_OPENAI_API_KEY api_key
  = Returned key ->
  is_empty t || is_empty (strip t) = false ->
  (chunk_size = 0 -> result = Raised (ValueError msg_no_chunks))
  /\ (1 <= chunk_size -> 0 <= chunk_overlap ->
      result <> Raised (ValueError msg_no_chunks)).
Proof.
  cbv zeta. intros Hkey Htext. unfold summarize_text.
  rewrite Hkey. cbn [bind]. rewrite Htext. split.
  - intros ->. now rewrite zero_size_no_chunk.
  - intros Hsize Hov.
    assert (Hne : strip t <> []).
    { apply orb_false_iff in Htext as [_ Htext]. now destruct (strip t). }
    pose proof (not_blank_has_chunk t chunk_size chunk_overlap Hsize Hov Hne)
      as Hchunks.
    destruct (split_text_into_chunks t chunk_size chunk_overlap)
      as [|c1 [|c2 rest]]; [congruence| |].
    + rewrite summarize_chunk_returns. discriminate.
    + unfold summarize_chunks.
      destruct (enable_async && (1 <? len (c1 :: c2 :: rest))).
      * destruct (max_workers <=? 0); cbn [bind].
        -- intros E. vm_compute in E. discriminate.
        -- unfold reduce_summaries, try_except.
           destruct (chat_completion_simple _); discriminate.
      * rewrite sequential_in_order. cbn [bind].
        unfold reduce_summaries, try_except.
        destruct (chat_completion_simple _); discriminate.
Qed.

Lemma collect_lookup_None (chunks : list text) (total_chunks : Z)
    (api_key model language : text) (completion_order : list nat) (i : Z) :
  (forall pos, pos ∈ completion_order -> 1 + Z.of_nat pos <> i) ->
  SummarizeText.collect
    (submit_all chat_completion_simple prompts chunks total_chunks
                api_key model language) completion_order
    !! i = None.
Proof.
  unfold SummarizeText.collect.
  induction completion_order as [|q order IH] using rev_ind; intros Hi.
  - apply lookup_empty.
  - rewrite fold_left_app. cbn [fold_left].
    assert (IH' := IH ltac:(intros pos Hpos; apply Hi, elem_of_app; now left)).
    unfold SummarizeText.collect_step at 1. unfold SummarizeText.submit_all at 1.
    rewrite list_lookup_fmap.
    destruct (enumerate chunks 1 !! q) as [p|] eqn:Hq;
      cbn [fmap option_fmap option_map]; [|exact IH'].
    rewrite summarize_chunk_returns. cbn [fst].
    apply enumerate_lookup in Hq as [Hq _].
    rewrite lookup_insert_ne; [exact IH'|].
    rewrite Hq. apply Hi, elem_of_app. right. now apply list_elem_of_singleton.
Qed.

Lemma omap_map_filter {A B C} (f : B -> option C) (h : A -> B) (g : A -> C)
    (q : A -> bool) (l : list A) :
  (forall a, a ∈ l -> f (h a) = if q a then Some (g a) else None) ->
  omap f (map h l) = map g (List.filter q l).
Proof.
  induction l as [|a l IH]; intros H; [reflexivity|].
  cbn. rewrite (H a) by left.
  rewrite IH by (intros b Hb; apply H; now right).
  now destruct (q a).
Qed.

(** X8. Whatever the pool reports as completed, in whatever order, once
    or several times or not at all, the list of chunk summaries holds
    the summaries of the completed chunks in the order of the chunks,
    each once: it is the list of all chunk summaries with the missing
    ones left out. *)
Theorem assemble_any_completion_order (chunks : list text)
    (api_key model language : text) (completion_order : list nat) :
  let summaries :=
    assemble
      (SummarizeText.collect
         (submit_all chat_completion_simple prompts chunks (len chunks)
                     api_key model language) completion_order)
      (len chunks) in
  summaries
  = map (fun p => chunk_summary chat_completion_simple prompts (snd p) (fst p)
                                (len chunks) api_key model language)
        (List.filter
           (fun p => bool_decide (Z.to_nat (fst p - 1) ∈ completion_order))
           (enumerate chunks 1))
  /\ sublist summaries
       (summaries_in_order chat_completion_simple prompts chunks (len chunks)
                           api_key model language).
Proof.
  cbv zeta.
  assert (E : assemble
      (SummarizeText.collect
         (submit_all chat_completion_simple prompts chunks (len chunks)
                     api_key model language) completion_order)
      (len chunks)
    = map (fun p => chunk_summary chat_completion_simple prompts (snd p) (fst p)
                                  (len chunks) api_key model language)
        (List.filter
           (fun p => bool_decide (Z.to_nat (fst p - 1) ∈ completion_order))
           (enumerate chunks 1))).
  { unfold assemble. rewrite <- (enumerate_fst chunks 1).
    apply omap_map_filter. intros p Hp.
    apply list_elem_of_lookup in Hp as [pos Hpos].
    apply enumerate_lookup in Hpos as Hfst. destruct Hfst as [Hfst _].
    replace (Z.to_nat (fst p - 1)) with pos by lia.
    destruct (bool_decide (pos ∈ completion_order)) eqn:Hin.
    - apply bool_decide_eq_true in Hin. now apply collect_lookup with (pos := pos).
    - apply bool_decide_eq_false in Hin. apply collect_lookup_None.
      intros pos' Hpos' F. assert (pos' = pos) by lia. congruence. }
  split; [exact E|]. rewrite E. unfold SummarizeText.summaries_in_order.
  apply fmap_sublist. clear E.
  induction (enumerate chunks 1) as [|p l IH]; [constructor|].
  cbn [List.filter]. destruct (bool_decide _); now constructor.
Qed.

End SummarizeExtras.

Lemma summarize_text_refuses_witness :
  SummarizeText.summarize_text
    (fun call => Py.Returned (SummarizeText.cc_prompt call))
    {| SummarizeText.chunk_system_prompt := fun language => language;
       SummarizeText.chunk_prompt := fun _ _ chunk => chunk;
       SummarizeText.final_system_prompt := fun language => language;
       SummarizeText.final_prompt := fun combined => combined |}
    None None [32; 10; 9] (Some (Py.str "key")) (Py.str "chatgpt-4o-latest")
    100000 300 (Py.str "en") true 5 []
  = Py.Raised (Py.ValueError SummarizeText.msg_empty_text).
Proof.
  exact (proj2 (summarize_text_refuses
                  (fun call => Py.Returned (SummarizeText.cc_prompt call))
                  {| SummarizeText.chunk_system_prompt := fun language => language;
                     SummarizeText.chunk_prompt := fun _ _ chunk => chunk;
                     SummarizeText.final_system_prompt := fun language => language;
                     SummarizeText.final_prompt := fun combined => combined |}
                  None None [32; 10; 9]
                  (Some (Py.str "key")) (Py.str "chatgpt-4o-latest")
                  100000 300 (Py.str "en") true 5 [])
               (Py.str "key") eq_refl eq_refl).
Defined.

Lemma summarize_text_single_chunk_witness :
  SummarizeText.summarize_text
    (fun _ => Py.Raised (Py.Exception (Py.str "timeout")))
    {| SummarizeText.chunk_system_prompt := fun language => language;
       SummarizeText.chunk_prompt := fun _ _ chunk => chunk;
       SummarizeText.final_system_prompt := fun language => language;
       SummarizeText.final_prompt := fun combined => combined |}
    None None [65] (Some (Py.str "key")) (Py.str "chatgpt-4o-latest")
    100000 300 (Py.str "en") true 5 []
  = Py.Returned
      (SummarizeText.summary_failed (Py.Exception (Py.str "timeout"))).
Proof.
  exact (summarize_text_single_chunk
           (fun _ => Py.Raised (Py.Exception (Py.str "timeout")))
           _ None None [65] (Some (Py.str "key")) (Py.str "chatgpt-4o-latest")
           100000 300 (Py.str "en") true 5 [] (Py.str "key") [65]
           eq_refl eq_refl).
Defined.

Lemma summarize_text_no_chunk_error_witness :
  SummarizeText.summarize_text
    (fun call => Py.Returned (SummarizeText.cc_prompt call))
    {| SummarizeText.chunk_system_prompt := fun language => language;
       SummarizeText.chunk_prompt := fun _ _ chunk => chunk;
       SummarizeText.final_system_prompt := fun language => language;
       SummarizeText.final_prompt := fun combined => combined |}
    None None [65; 66; 67] (Some (Py.str "key")) (Py.str "chatgpt-4o-latest")
    0 300 (Py.str "en") true 5 []
  = Py.Raised (Py.ValueError SummarizeText.msg_no_chunks).
Proof.
  exact (proj1 (summarize_text_no_chunk_error
                  (fun call => Py.Returned (SummarizeText.cc_prompt call)) _
                  None None [65; 66; 67] (Some (Py.str "key"))
                  (Py.str "chatgpt-4o-latest") 0 300 (Py.str "en") true 5 []
                  (Py.str "key") eq_refl eq_refl)
               eq_refl).
Defined.

(** ** The completion client *)

Section ChatCompletionFacts.
Import Py ChatCompletion.

Variable post_at : Z -> Attempt.
Variables timeout retry_count : Z.

(** The loop from attempt [k] on, [m] attempts being left. *)
Lemma retry_counts (m : nat) : forall (k : Z) (last : option exn),
  k + Z.of_nat m = retry_count -> (1 <= m)%nat ->
  let r := retry post_at timeout retry_count (seqZ k (Z.of_nat m)) last in
  (posts r <= m)%nat /\ sleeps r = Nat.pred (posts r) /\ (1 <= posts r)%nat.
Proof.
  induction m as [|m IH]; intros k last Hk Hm; [lia|].
  rewrite Nat2Z.inj_succ, seqZ_cons by lia.
  replace (Z.pred (Z.succ (Z.of_nat m))) with (Z.of_nat m) by lia.
  cbn [retry]. cbv zeta.
  destruct m as [|m].
  - assert (E : (k <? retry_count - 1) = false) by (apply Z.ltb_ge; lia).
    rewrite E.
    destruct (post_at k); cbn; repeat split; lia.
  - assert (E : (k <? retry_count - 1) = true) by (apply Z.ltb_lt; lia).
    rewrite E.
    destruct (post_at k); cbn [posts sleeps outcome posted slept done];
      try (repeat split; lia).
    + destruct (IH (Z.succ k) (Some (Exception (msg_timeout timeout))))
        as (H1 & H2 & H3); try lia; cbv zeta in *; repeat split; lia.
    + destruct (IH (Z.succ k) (Some (Exception str_e)))
        as (H1 & H2 & H3); try lia; cbv zeta in *; repeat split; lia.
Qed.

(** The loop returns [None] only through a reply whose body is [null],
    met after transient attempts only. *)
Lemma retry_none (m : nat) : forall (k : Z) (last : option exn),
  k + Z.of_nat m = retry_count -> (1 <= m)%nat ->
  outcome (retry post_at timeout retry_count (seqZ k (Z.of_nat m)) last)
  = Returned None ->
  exists j, k <= j < retry_count
            /\ (forall i, k <= i < j -> transient (post_at i) = true)
            /\ post_at j = AnsweredNull.
Proof.
  induction m as [|m IH]; intros k last Hk Hm; [lia|].
  rewrite Nat2Z.inj_succ, seqZ_cons by lia.
  replace (Z.pred (Z.succ (Z.of_nat m))) with (Z.of_nat m) by lia.
  cbn [retry]. cbv zeta.
  assert (Hhere : post_at k = AnsweredNull ->
    exists j, k <= j < retry_count
              /\ (forall i, k <= i < j -> transient (post_at i) = true)
              /\ post_at j = AnsweredNull).
  { intros E. exists k. split; [lia|]. split; [intros i Hi; lia|exact E]. }
  assert (Hnext : transient (post_at k) = true ->
    (exists j, Z.succ k <= j < retry_count
               /\ (forall i, Z.succ k <= i < j -> transient (post_at i) = true)
               /\ post_at j = AnsweredNull) ->
    exists j, k <= j < retry_count
              /\ (forall i, k <= i < j -> transient (post_at i) = true)
              /\ post_at j = AnsweredNull).
  { intros Htr (j & Hj & Hbefore & E). exists j. split; [lia|].
    split; [|exact E]. intros i Hi.
    destruct (Z.eq_dec i k) as [->|Hne]; [exact Htr|apply Hbefore; lia]. }
  destruct m as [|m].
  - assert (E : (k <? retry_count - 1) = false) by (apply Z.ltb_ge; lia).
    rewrite E.
    destruct (post_at k) eqn:Ek; cbn [posts sleeps outcome posted slept done];
      try discriminate.
    intros _. now apply Hhere.
  - assert (E : (k <? retry_count - 1) = true) by (apply Z.ltb_lt; lia).
    rewrite E.
    destruct (post_at k) eqn:Ek; cbn [posts sleeps outcome posted slept done];
      try discriminate.
    + intros _. now apply Hhere.
    + intros Hout. apply Hnext; [reflexivity|].
      apply (IH (Z.succ k) (Some (Exception (msg_timeout timeout))));
        [lia | lia | exact Hout].
    + intros Hout. apply Hnext; [reflexivity|].
      apply (IH (Z.succ k) (Some (Exception str_e))); [lia | lia | exact Hout].
Qed.

(** The attempts before [k + m] all being transient, the loop from [k] on
    is the loop from [k + m] on after [m] requests and [m] pauses. *)
Lemma retry_skips (m : nat) : forall (k : Z) (rest : list Z) (last : option exn),
  k + Z.of_nat m < retry_count ->
  (forall j, k <= j < k + Z.of_nat m -> transient (post_at j) = true) ->
  exists last',
    let r := retry post_at timeout retry_count (seqZ k (Z.of_nat m) ++ rest) last in
    let r' := retry post_at timeout retry_count rest last' in
    outcome r = outcome r'
    /\ posts r = (m + posts r')%nat /\ sleeps r = (m + sleeps r')%nat.
Proof.
  induction m as [|m IH]; intros k rest last Hk Htr.
  - exists last. cbn. auto.
  - rewrite Nat2Z.inj_succ, seqZ_cons by lia.
    replace (Z.pred (Z.succ (Z.of_nat m))) with (Z.of_nat m) by lia.
    cbn [app retry]. cbv zeta.
    assert (E : (k <? retry_count - 1) = true) by (apply Z.ltb_lt; lia).
    rewrite E.
    pose proof (Htr k ltac:(lia)) as Hk0.
    destruct (post_at k); try discriminate.
    + destruct (IH (Z.succ k) rest (Some (Exception (msg_timeout timeout))))
        as (last' & H1 & H2 & H3); [lia | intros j Hj; apply Htr; lia |].
      exists last'. cbv zeta in *. cbn [posts sleeps outcome posted slept done].
      rewrite H1, H2, H3. auto.
    + destruct (IH (Z.succ k) rest (Some (Exception str_e)))
        as (last' & H1 & H2 & H3); [lia | intros j Hj; apply Htr; lia |].
      exists last'. cbv zeta in *. cbn [posts sleeps outcome posted slept done].
      rewrite H1, H2, H3. auto.
Qed.

Lemma seqZ_split (k : Z) : 0 <= k < retry_count ->
  seqZ 0 retry_count
  = seqZ 0 (Z.of_nat (Z.to_nat k)) ++ k :: seqZ (k + 1) (retry_count - k - 1).
Proof.
  intros Hk. rewrite Z2Nat.id by lia.
  replace retry_count with (k + (retry_count - k)) at 1 by lia.
  rewrite seqZ_app by lia. f_equal.
  rewrite seqZ_cons by lia. cbn [Z.add].
  replace (Z.succ k) with (k + 1) by lia.
  replace (Z.pred (retry_count - k)) with (retry_count - k - 1) by lia.
  reflexivity.
Qed.

(** The first attempt that is not transient decides the call. *)
Lemma retry_decided (k : Z) :
  0 <= k < retry_count ->
  (forall j, 0 <= j < k -> transient (post_at j) = true) ->
  transient (post_at k) = false ->
  retry post_at timeout retry_count (seqZ 0 retry_count) None
  = {| outcome := decided (post_at k);
       posts := S (Z.to_nat k); sleeps := Z.to_nat k |}.
Proof.
  intros Hk Htr Hdec.
  rewrite (seqZ_split k Hk).
  destruct (retry_skips (Z.to_nat k) 0
              (k :: seqZ (k + 1) (retry_count - k - 1)) None)
    as (last' & H1 & H2 & H3).
  - rewrite Z2Nat.id; lia.
  - intros j Hj. apply Htr. rewrite Z2Nat.id in Hj; lia.
  - cbv zeta in *.
    destruct (retry post_at timeout retry_count
                (seqZ 0 (Z.of_nat (Z.to_nat k)) ++ k :: _) None)
      as [o p s] eqn:E.
    cbn [outcome posts sleeps] in *. subst o p s.
    cbn [retry]. destruct (post_at k); try discriminate; cbn; f_equal; lia.
Qed.

(** All the attempts being transient, the last one gives up. *)
Lemma retry_given_up :
  1 <= retry_count ->
  (forall j, 0 <= j < retry_count -> transient (post_at j) = true) ->
  retry post_at timeout retry_count (seqZ 0 retry_count) None
  = {| outcome := given_up timeout retry_count (post_at (retry_count - 1));
       posts := Z.to_nat retry_count;
       sleeps := Nat.pred (Z.to_nat retry_count) |}.
Proof.
  intros Hrc Htr.
  rewrite (seqZ_split (retry_count - 1)) by lia.
  replace (retry_count - (retry_count - 1) - 1) with 0 by lia.
  replace (seqZ (retry_count - 1 + 1) 0) with (@nil Z) by reflexivity.
  destruct (retry_skips (Z.to_nat (retry_count - 1)) 0
              [retry_count - 1] None)
    as (last' & H1 & H2 & H3).
  - rewrite Z2Nat.id; lia.
  - intros j Hj. apply Htr. rewrite Z2Nat.id in Hj; lia.
  - cbv zeta in *.
    destruct (retry post_at timeout retry_count
                (seqZ 0 (Z.of_nat (Z.to_nat (retry_count - 1))) ++ _) None)
      as [o p s] eqn:E.
    cbn [outcome posts sleeps] in *. subst o p s.
    cbn [retry].
    assert (E' : (retry_count - 1 <? retry_count - 1) = false)
      by (apply Z.ltb_ge; lia).
    rewrite E'.
    pose proof (Htr (retry_count - 1) ltac:(lia)) as Hl.
    destruct (post_at (retry_count - 1)); try discriminate; cbn; f_equal; lia.
Qed.

End ChatCompletionFacts.

Section ChatCompletionExtras.
Import Py ChatCompletion.

Variable post : Request -> Z -> Attempt.

Lemma chat_completion_valid (messages : list Message)
    (api_key model base_url : text) (o : Options) (timeout retry_count : Z) :
  validate messages = Returned tt ->
  chat_completion post messages api_key model base_url o timeout retry_count
  = retry (post (build_request messages api_key model base_url o timeout))
          timeout retry_count (seqZ 0 retry_count) None.
Proof. intros H. unfold chat_completion. now rewrite H. Qed.

Lemma simple_messages_valid (prompt : text) (system_prompt : option text) :
  validate (simple_messages prompt system_prompt) = Returned tt.
Proof. now destruct system_prompt as [[|c sp]|]. Qed.

Lemma seqZ_nonpos (m len : Z) : len <= 0 -> seqZ m len = [].
Proof. intros H. unfold seqZ. now replace (Z.to_nat len) with 0%nat by lia. Qed.

(** X9. Whatever the attempts meet, [chat_completion] posts at most
    [retry_count] requests, and pauses exactly once between two requests:
    never before the first one and never after the last one. *)
Theorem chat_completion_bounded_requests (messages : list Message)
    (api_key model base_url : text) (o : Options) (timeout retry_count : Z) :
  (posts (chat_completion post messages api_key model base_url o timeout
                          retry_count)
   <= Z.to_nat retry_count)%nat
  /\ sleeps (chat_completion post messages api_key model base_url o timeout
                             retry_count)
     = Nat.pred (posts (chat_completion post messages api_key model base_url
                                        o timeout retry_count)).
Proof.
  unfold chat_completion. destruct (validate messages); [|cbn; lia].
  destruct (Z_le_gt_dec retry_count 0) as [Hrc|Hrc].
  - rewrite seqZ_nonpos by lia. cbn. lia.
  - destruct (retry_counts
                (post (build_request messages api_key model base_url o timeout))
                timeout retry_count (Z.to_nat retry_count) 0 None)
      as (H1 & H2 & _); try lia.
    cbv zeta in *. rewrite Z2Nat.id in * by lia. auto.
Qed.

(** X10. With well-formed messages, [chat_completion] returns [None]
    in two cases only: when [retry_count] is zero or negative, and then
    it posts no request at all; or when the first attempt that is not
    transient is a reply whose JSON body is [null], which
    [response.json()] hands back as [None]. *)
Theorem chat_completion_returns_none (messages : list Message)
    (api_key model base_url : text) (o : Options) (timeout retry_count : Z) :
  validate messages = Returned tt ->
  (outcome (chat_completion post messages api_key model base_url o timeout
                            retry_count) = Returned None
   <-> retry_count <= 0
       \/ exists k,
            0 <= k < retry_count
            /\ (forall j, 0 <= j < k ->
                  transient
                    (post (build_request messages api_key model base_url o
                                         timeout) j) = true)
            /\ post (build_request messages api_key model base_url o timeout) k
               = AnsweredNull)
  /\ (retry_count <= 0 ->
      chat_completion post messages api_key model base_url o timeout
                      retry_count = done (Returned None)).
Proof.
  intros Hv. rewrite chat_completion_valid by exact Hv.
  assert (Hnone : retry_count <= 0 ->
    retry (post (build_request messages api_key model base_url o timeout))
          timeout retry_count (seqZ 0 retry_count) None = done (Returned None)).
  { intros Hrc. now rewrite seqZ_nonpos by lia. }
  split; [split|exact Hnone].
  - intros Hout. destruct (Z_le_gt_dec retry_count 0) as [Hrc|Hrc];
      [now left|right].
    apply (retry_none
             (post (build_request messages api_key model base_url o timeout))
             timeout retry_count (Z.to_nat retry_count) 0 None); try lia.
    now rewrite Z2Nat.id by lia.
  - intros [Hrc|(k & Hk & Htr & Hnull)]; [now rewrite Hnone|].
    rewrite (retry_decided _ timeout retry_count k Hk Htr)
      by (now rewrite Hnull).
    now rewrite Hnull.
Qed.

(** X11. The first attempt that the clauses for [Timeout] and
    [RequestException] do not receive decides the call: a reply is
    returned, an HTTP error status or an exception that no clause
    receives is raised at once, and no request is posted after it; the
    [k] attempts before it each cost one request and one pause. A body
    that is not JSON is no such attempt: requests raises a
    [RequestException] for it, so it is retried like a connection
    failure. *)
Theorem chat_completion_first_decisive_attempt (messages : list Message)
    (api_key model base_url : text) (o : Options) (timeout retry_count k : Z) :
  validate messages = Returned tt ->
  0 <= k < retry_count ->
  (forall j, 0 <= j < k ->
     transient (post (build_request messages api_key model base_url o timeout) j)
     = true) ->
  transient (post (build_request messages api_key model base_url o timeout) k)
  = false ->
  chat_completion post messages api_key model base_url o timeout retry_count
  = {| outcome :=
         decided (post (build_request messages api_key model base_url o timeout) k);
       posts := S (Z.to_nat k);
       sleeps := Z.to_nat k |}
  /\ (forall str_e, transient (body_not_json str_e) = true)
  /\ (forall status_code detail,
        transient (HttpFailed status_code detail) = false
        /\ decided (HttpFailed status_code detail)
           = Raised (Exception (msg_http status_code detail))).
Proof.
  intros Hv Hk Htr Hdec. rewrite chat_completion_valid by exact Hv.
  split; [now apply retry_decided|]. split; [reflexivity|].
  intros status_code detail. split; reflexivity.
Qed.

(** X12. When every one of the [retry_count >= 1] attempts is a timeout
    or a connection failure, [chat_completion] posts [retry_count]
    requests, pauses [retry_count - 1] times and raises an [Exception]
    whose message comes from the last attempt alone. *)
Theorem chat_completion_gives_up (messages : list Message)
    (api_key model base_url : text) (o : Options) (timeout retry_count : Z) :
  validate messages = Returned tt ->
  1 <= retry_count ->
  (forall j, 0 <= j < retry_count ->
     transient (post (build_request messages api_key model base_url o timeout) j)
     = true) ->
  chat_completion post messages api_key model base_url o timeout retry_count
  = {| outcome :=
         given_up timeout retry_count
           (post (build_request messages api_key model base_url o timeout)
                 (retry_count - 1));
       posts := Z.to_nat retry_count;
       sleeps := Nat.pred (Z.to_nat retry_count) |}.
Proof.
  intros Hv Hrc Htr. rewrite chat_completion_valid by exact Hv.
  now apply retry_given_up.
Qed.

(** X13. An empty list of messages, or a message without ['role'] or
    without ['content'], makes [chat_completion] raise a [ValueError]
    before any request is posted. *)
Theorem chat_completion_rejects_messages (messages : list Message)
    (api_key model base_url : text) (o : Options) (timeout retry_count : Z) :
  messages = [] \/
  (exists m, In m messages /\ (msg_role m = None \/ msg_content m = None)) ->
  chat_completion post messages api_key model base_url o timeout retry_count
  = done (Raised (ValueError
                    (if bool_decide (messages = []) then msg_empty_messages
                     else msg_missing_field))).
Proof.
  intros H. unfold chat_completion, validate.
  destruct messages as [|m0 rest]; [reflexivity|].
  destruct H as [H|(m & Hin & Hm)]; [discriminate|].
  rewrite bool_decide_eq_false_2 by discriminate.
  destruct (forallb has_fields (m0 :: rest)) eqn:E; [|reflexivity].
  rewrite forallb_forall in E. specialize (E m Hin). unfold has_fields in E.
  destruct Hm as [Hm|Hm]; rewrite Hm in E; [discriminate|].
  destruct (msg_role m); discriminate.
Qed.

(** [chat_completion_simple] over the first decisive attempt. *)
Lemma chat_completion_simple_decided (prompt api_key model : text)
    (system_prompt : option text) (kwargs : Kwargs) (k : Z) :
  let request :=
    build_request (simple_messages prompt system_prompt) api_key model
                  (kw_base_url kwargs) (kw_options kwargs) (kw_timeout kwargs) in
  0 <= k < kw_retry_count kwargs ->
  (forall j, 0 <= j < k -> transient (post request j) = true) ->
  transient (post request k) = false ->
  chat_completion_simple post prompt api_key model system_prompt kwargs
  = {| outcome := bind (decided (post request k)) read_reply;
       posts := S (Z.to_nat k);
       sleeps := Z.to_nat k |}.
Proof.
  intros request Hk Htr Hdec. unfold chat_completion_simple. cbv zeta.
  rewrite chat_completion_valid by apply simple_messages_valid.
  fold request. now rewrite (retry_decided _ _ _ k Hk Htr Hdec).
Qed.

(** X14. [chat_completion_simple] always passes the validation of its
    messages, so what it does is decided by the attempts: when the first
    attempt that is not transient answers, the reply is the content of the
    first choice of that answer, and an answer without ['choices'] or with
    an empty list of choices raises the "no reply" [Exception]. *)
Theorem chat_completion_simple_reply (prompt api_key model : text)
    (system_prompt : option text) (kwargs : Kwargs) (k : Z) (body : Response) :
  let request :=
    build_request (simple_messages prompt system_prompt) api_key model
                  (kw_base_url kwargs) (kw_options kwargs) (kw_timeout kwargs) in
  0 <= k < kw_retry_count kwargs ->
  (forall j, 0 <= j < k -> transient (post request j) = true) ->
  post request k = Answered body ->
  let run :=
    chat_completion_simple post prompt api_key model system_prompt kwargs in
  posts run = S (Z.to_nat k) /\
  (forall content rest,
     rs_choices body = Some ({| ch_message := Some (Some content) |} :: rest) ->
     outcome run = Returned content) /\
  (rs_choices body = None \/ rs_choices body = Some [] ->
   outcome run = Raised (Exception msg_no_reply)).
Proof.
  intros request Hk Htr Hans run. subst run.
  rewrite (chat_completion_simple_decided prompt api_key model system_prompt
             kwargs k Hk Htr) by (fold request; now rewrite Hans).
  fold request. rewrite Hans. cbn [outcome posts decided bind read_reply].
  split; [reflexivity|split].
  - intros content rest E. now rewrite E.
  - intros [E|E]; now rewrite E.
Qed.

(** During an outage every call of the summariser times out three
    times. *)
Lemma summarize_service_outage (call : SummarizeText.ChatCall) :
  (forall request j, post request j = TimedOut) ->
  summarize_service post call
  = {| outcome := Raised (Exception (msg_timeout 60));
       posts := 3; sleeps := 2 |}.
Proof.
  intros Hout. unfold summarize_service, chat_completion_simple. cbv zeta.
  rewrite chat_completion_valid by apply simple_messages_valid.
  rewrite retry_given_up.
  - rewrite Hout. reflexivity.
  - cbn. lia.
  - intros j _. now rewrite Hout.
Qed.

(** X15. [summarize_text] over [chat_completion_simple] during an outage
    in which every request times out: each call posts three requests and
    gives up; a text of a single chunk still gets a result, the
    placeholder carrying the timeout message, while a text of several
    chunks makes the final call fail and [summarize_text] raise. *)
Theorem summarize_text_outage (prompts : SummarizeText.Prompts)
    (getenv_API_KEY_302_AI getenv_OPENAI_API_KEY : option text)
    (t : text) (api_key : option text) (model : text)
    (chunk_size chunk_overlap : Z) (language : text) (enable_async : bool)
    (max_workers : Z) (completion_order : list nat) (key : text) :
  (forall request j, post request j = TimedOut) ->
  SummarizeText.resolve_api_key getenv_API_KEY_302_AI getenv_OPENAI_API_KEY
                                api_key = Returned key ->
  strip t <> [] ->
  1 <= chunk_size -> 0 <= chunk_overlap ->
  (enable_async = true -> 0 < max_workers) ->
  (forall call, posts (summarize_service post call) = 3%nat) /\
  SummarizeText.summarize_text
    (fun call => outcome (summarize_service post call)) prompts
    getenv_API_KEY_302_AI getenv_OPENAI_API_KEY t api_key model chunk_size
    chunk_overlap language enable_async max_workers completion_order
  = if (length (SummarizeText.split_text_into_chunks t chunk_size chunk_overlap)
        =? 1)%nat
    then Returned ([91; 32317; 32080; 22833; 25943; 58; 32]
                   ++ msg_timeout 60 ++ [93])
    else Raised (Exception (SummarizeText.msg_final_failed ++ msg_timeout 60)).
Proof.
  intros Hout Hkey Htext Hsize Hov Hworkers.
  split; [intros call; now rewrite summarize_service_outage|].
  unfold SummarizeText.summarize_text. rewrite Hkey. cbn [bind].
  assert (Hblank : is_empty t || is_empty (strip t) = false).
  { destruct t as [|c t']; [now contradiction Htext|].
    cbn [is_empty orb]. destruct (strip (c :: t')); [contradiction|reflexivity]. }
  rewrite Hblank. cbv zeta.
  pose proof (not_blank_has_chunk t chunk_size chunk_overlap Hsize Hov Htext)
    as Hne.
  destruct (SummarizeText.split_text_into_chunks t chunk_size chunk_overlap)
    as [|c1 [|c2 rest]]; [contradiction| |].
  - cbn [length Nat.eqb]. unfold SummarizeText.summarize_chunk.
    now rewrite summarize_service_outage.
  - cbn [length Nat.eqb].
    assert (Hsum : exists l,
      SummarizeText.summarize_chunks
        (fun call => outcome (summarize_service post call)) prompts
        (c1 :: c2 :: rest) (len (c1 :: c2 :: rest)) key model language
        enable_async max_workers completion_order = Returned l).
    { unfold SummarizeText.summarize_chunks.
      destruct (enable_async && (1 <? len (c1 :: c2 :: rest))) eqn:E.
      - apply andb_true_iff in E as [-> _].
        specialize (Hworkers eq_refl). apply Z.leb_gt in Hworkers.
        rewrite Hworkers. eauto.
      - rewrite sequential_in_order. eauto. }
    destruct Hsum as (l & ->). cbn [bind].
    unfold SummarizeText.reduce_summaries.
    now rewrite summarize_service_outage.
Qed.

End ChatCompletionExtras.

(** A call whose first reply is not JSON and whose second attempt is
    refused with status 401. *)
Lemma chat_completion_first_decisive_attempt_witness :
  let post (_ : ChatCompletion.Request) (attempt : Z) :=
    if attempt =? 0
    then ChatCompletion.body_not_json
           (Py.str "Expecting value: line 1 column 1 (char 0)")
    else ChatCompletion.HttpFailed 401 ChatCompletion.DetailNoError in
  ChatCompletion.chat_completion post
    [ {| ChatCompletion.msg_role := Some (Py.str "user");
         ChatCompletion.msg_content := Some (Py.str "hello") |} ]
    (Py.str "key") (Py.str "chatgpt-4o-latest") (Py.str "https://api.302.ai")
    ChatCompletion.no_options 60 3
  = {| ChatCompletion.outcome :=
         Py.Raised (Py.Exception [72; 84; 84; 80; 32; 37679; 35492; 58; 32;
                                  52; 48; 49]);
       ChatCompletion.posts := 2;
       ChatCompletion.sleeps := 1 |}.
Proof.
  intros post.
  apply (proj1 (chat_completion_first_decisive_attempt post
           [ {| ChatCompletion.msg_role := Some (Py.str "user");
                ChatCompletion.msg_content := Some (Py.str "hello") |} ]
           (Py.str "key") (Py.str "chatgpt-4o-latest")
           (Py.str "https://api.302.ai") ChatCompletion.no_options 60 3 1
           eq_refl ltac:(lia)
           (fun j Hj => ltac:(assert (j = 0) as -> by lia; reflexivity))
           eq_refl)).
Defined.

(** Three timeouts in a row. *)
Lemma chat_completion_gives_up_witness :
  ChatCompletion.chat_completion (fun _ _ => ChatCompletion.TimedOut)
    [ {| ChatCompletion.msg_role := Some (Py.str "user");
         ChatCompletion.msg_content := Some (Py.str "hello") |} ]
    (Py.str "key") (Py.str "chatgpt-4o-latest") (Py.str "https://api.302.ai")
    ChatCompletion.no_options 60 3
  = {| ChatCompletion.outcome :=
         Py.Raised (Py.Exception (ChatCompletion.msg_timeout 60));
       ChatCompletion.posts := 3;
       ChatCompletion.sleeps := 2 |}.
Proof.
  apply (chat_completion_gives_up (fun _ _ => ChatCompletion.TimedOut)
           [ {| ChatCompletion.msg_role := Some (Py.str "user");
                ChatCompletion.msg_content := Some (Py.str "hello") |} ]
           (Py.str "key") (Py.str "chatgpt-4o-latest")
           (Py.str "https://api.302.ai") ChatCompletion.no_options 60 3 eq_refl); [lia|reflexivity].
Defined.

(** No attempt allowed: nothing is posted and [None] comes back. *)
Lemma chat_completion_returns_none_witness :
  ChatCompletion.chat_completion (fun _ _ => ChatCompletion.TimedOut)
    [ {| ChatCompletion.msg_role := Some (Py.str "user");
         ChatCompletion.msg_content := Some (Py.str "hello") |} ]
    (Py.str "key") (Py.str "chatgpt-4o-latest") (Py.str "https://api.302.ai")
    ChatCompletion.no_options 60 0
  = ChatCompletion.done (Py.Returned None).
Proof.
  apply (proj2 (chat_completion_returns_none
           (fun _ _ => ChatCompletion.TimedOut)
           [ {| ChatCompletion.msg_role := Some (Py.str "user");
                ChatCompletion.msg_content := Some (Py.str "hello") |} ]
           (Py.str "key") (Py.str "chatgpt-4o-latest")
           (Py.str "https://api.302.ai") ChatCompletion.no_options 60 0 eq_refl)).
  lia.
Defined.

(** A message without content. *)
Lemma chat_completion_rejects_messages_witness :
  ChatCompletion.chat_completion (fun _ _ => ChatCompletion.TimedOut)
    [ {| ChatCompletion.msg_role := Some (Py.str "user");
         ChatCompletion.msg_content := None |} ]
    (Py.str "key") (Py.str "chatgpt-4o-latest") (Py.str "https://api.302.ai")
    ChatCompletion.no_options 60 3
  = ChatCompletion.done
      (Py.Raised (Py.ValueError ChatCompletion.msg_missing_field)).
Proof.
  apply (chat_completion_rejects_messages (fun _ _ => ChatCompletion.TimedOut)
           [ {| ChatCompletion.msg_role := Some (Py.str "user");
                ChatCompletion.msg_content := None |} ]
           (Py.str "key") (Py.str "chatgpt-4o-latest")
           (Py.str "https://api.302.ai") ChatCompletion.no_options 60 3).
  right. eexists. split; [left; reflexivity|right; reflexivity].
Defined.

(** A reply read from the second attempt. *)
Lemma chat_completion_simple_reply_witness :
  let body :=
    {| ChatCompletion.rs_choices :=
         Some [ {| ChatCompletion.ch_message := Some (Some (Py.str "hi")) |} ] |} in
  let post (_ : ChatCompletion.Request) (attempt : Z) :=
    if attempt =? 0 then ChatCompletion.RequestFailed (Py.str "reset")
    else ChatCompletion.Answered body in
  ChatCompletion.outcome
    (ChatCompletion.chat_completion_simple post (Py.str "hello") (Py.str "key")
       (Py.str "chatgpt-4o-latest") None ChatCompletion.default_kwargs)
  = Py.Returned (Py.str "hi").
Proof.
  intros body post.
  refine (proj1 (proj2 (chat_completion_simple_reply post (Py.str "hello")
            (Py.str "key") (Py.str "chatgpt-4o-latest") None
            ChatCompletion.default_kwargs 1 body _ _ _)) (Py.str "hi") [] eq_refl).
  - cbn. lia.
  - intros j Hj. assert (j = 0) as -> by lia. reflexivity.
  - reflexivity.
Defined.

(** An outage met by a text of two chunks. *)
Lemma summarize_text_outage_witness :
  let prompts :=
    {| SummarizeText.chunk_system_prompt := fun language => language;
       SummarizeText.chunk_prompt := fun _ _ chunk => chunk;
       SummarizeText.final_system_prompt := fun language => language;
       SummarizeText.final_prompt := fun combined => combined |} in
  SummarizeText.summarize_text
    (fun call => ChatCompletion.outcome
                   (ChatCompletion.summarize_service
                      (fun _ _ => ChatCompletion.TimedOut) call))
    prompts None None
    [65; 66; 10; 67; 68] (Some (Py.str "key")) (Py.str "chatgpt-4o-latest")
    3 0 (Py.str "en") true 5 [1%nat; 0%nat]
  = Py.Raised (Py.Exception (SummarizeText.msg_final_failed
                             ++ ChatCompletion.msg_timeout 60)).
Proof.
  intros prompts.
  refine (proj2 (summarize_text_outage (fun _ _ => ChatCompletion.TimedOut)
            prompts None None [65; 66; 10; 67; 68] (Some (Py.str "key"))
            (Py.str "chatgpt-4o-latest") 3 0 (Py.str "en") true 5
            [1%nat; 0%nat] (Py.str "key") (fun _ _ => eq_refl) eq_refl
            _ _ _ _)).
  - vm_compute. discriminate.
  - lia.
  - lia.
  - intros _. lia.
Defined.

(** ** [transcribe_audio] as a whole *)

Section TranscribeAudioRunFacts.
Import Py TranscribeAudio TranscribeAudioRun.

Context {Audio Model AlignModel AlignMetadata : Type}.
Variable ffmpeg_ok : Z -> Q -> Q -> bool.
Variable load_model : Site -> Outcome Model.
Variable load_audio : AudioFile -> Outcome Audio.
Variable model_transcribe :
  Model -> Audio -> Z -> option text -> Outcome Transcription.
Variable load_align_model : text -> Outcome (AlignModel * AlignMetadata).
Variable whisperx_align :
  list Segment -> AlignModel -> AlignMetadata -> Audio -> text ->
  Outcome Alignment.
Variable diarization : text -> Audio -> Transcription -> Outcome Transcription.
Variable save_transcription_result : Transcription -> Outcome text.



Lemma split_audio_loop_stuck (duration chunk_duration : Q) :
  (forall i s l, ffmpeg_ok i s l = true) ->
  (chunk_duration <= 0)%Q ->
  forall fuel chunk_index start_time chunks,
    (start_time < duration)%Q ->
    split_audio_loop ffmpeg_ok fuel duration chunk_duration chunk_index
                     start_time chunks = None.
Proof.
  intros Hok Hc.
  induction fuel as [|fuel IH]; intros chunk_index start_time chunks Hlt;
    assert (Hcmp : (start_time ?= duration)%Q = Lt) by (now apply Qlt_alt);
    cbn [split_audio_loop]; rewrite Hcmp; [reflexivity|].
  cbv zeta. rewrite Hok. apply IH.
  pose proof (Q.le_min_l (start_time + chunk_duration) duration). lra.
Qed.

(** X17. With a chunk duration that is zero or negative, the loop of
    [split_audio_file] never moves forward: on a file of positive
    duration, as long as ffmpeg accepts the extractions, no number of
    turns ends it. *)
Theorem split_audio_file_never_ends (fuel : nat) (duration chunk_duration : Q) :
  (forall i s l, ffmpeg_ok i s l = true) ->
  (chunk_duration <= 0)%Q ->
  (0 < duration)%Q ->
  split_audio_file ffmpeg_ok fuel duration chunk_duration = None.
Proof.
  intros Hok Hc Hd. unfold split_audio_file.
  assert (E0 : Qeq_bool duration 0 = false).
  { destruct (Qeq_bool duration 0) eqn:E; [|reflexivity].
    apply Qeq_bool_eq in E. lra. }
  rewrite E0, (Qle_bool_false duration chunk_duration) by lra.
  now apply split_audio_loop_stuck.
Qed.



Lemma aligned_texts_elem (aligned : list Segment) (t : text) :
  t ∈ aligned_texts aligned <->
  t <> [] /\ exists s, In s aligned /\ stripped_text s = t.
Proof.
  unfold aligned_texts. rewrite list_elem_of_In, filter_In, in_map_iff.
  split.
  - intros [(s & Hs & Hin) Hne]. split; [now destruct t|]. now exists s.
  - intros [Hne (s & Hin & Hs)]. split; [now exists s|now destruct t].
Qed.

Lemma not_aligned_nil (segs : list Segment) :
  List.filter (not_aligned (aligned_texts [])) segs = segs.
Proof.
  induction segs as [|s l IH]; [reflexivity|].
  cbn [List.filter]. unfold not_aligned at 1.
  rewrite bool_decide_eq_false_2
    by (change (aligned_texts []) with (@nil text); apply not_elem_of_nil).
  cbn [negb]. now rewrite IH.
Qed.

(** What [align_stage] leaves in [result['segments']]: some aligned
    segments, none when nothing was aligned, followed by the segments
    whose text is on none of them. *)
Lemma align_stage_segments (result : Transcription) (language : text)
    (segs : list Segment) (audio : Audio) (device : text) :
  tr_segments result = Some segs ->
  exists aligned,
    get_segments_or_empty
      (align_stage load_align_model whisperx_align result language segs audio
                   device)
    = aligned ++ List.filter (not_aligned (aligned_texts aligned)) segs.
Proof.
  intros Hsegs.
  assert (Hnone : exists aligned,
    get_segments_or_empty result
    = aligned ++ List.filter (not_aligned (aligned_texts aligned)) segs).
  { exists []. unfold get_segments_or_empty. rewrite Hsegs. cbn [default app].
    symmetry. apply not_aligned_nil. }
  unfold align_stage.
  destruct (load_align_model language) as [[model_a metadata]|]; [|exact Hnone].
  destruct (List.filter has_text segs) as [|v valid]; [exact Hnone|].
  destruct (whisperx_align (v :: valid) model_a metadata audio device)
    as [aligned_result|]; [|exact Hnone].
  cbv zeta. now exists (default [] (al_segments aligned_result)).
Qed.

(** X19. The alignment of the whole file loses no text: whether the
    alignment succeeds, raises or has nothing to align, every segment of
    the transcription has its stripped text on a segment of the result,
    and every segment whose text is blank is itself in the result. *)
Theorem align_stage_keeps_texts (result : Transcription) (language : text)
    (segs : list Segment) (audio : Audio) (device : text) :
  tr_segments result = Some segs ->
  (forall s, In s segs ->
     exists s',
       In s' (get_segments_or_empty
                (align_stage load_align_model whisperx_align result language
                             segs audio device))
       /\ stripped_text s' = stripped_text s)
  /\ (forall s, In s segs -> has_text s = false ->
        In s (get_segments_or_empty
                (align_stage load_align_model whisperx_align result language
                             segs audio device))).
Proof.
  intros Hsegs.
  destruct (align_stage_segments result language segs audio device Hsegs)
    as (aligned & ->).
  split.
  - intros s Hin.
    destruct (decide (stripped_text s ∈ aligned_texts aligned)) as [Hel|Hel].
    + apply aligned_texts_elem in Hel as [_ (s' & Hs' & E)].
      exists s'. split; [apply in_or_app; now left|exact E].
    + exists s. split; [|reflexivity].
      apply in_or_app. right. apply filter_In. split; [exact Hin|].
      unfold not_aligned. now rewrite bool_decide_eq_false_2.
  - intros s Hin Hblank. apply in_or_app. right.
    apply filter_In. split; [exact Hin|].
    unfold not_aligned. rewrite bool_decide_eq_false_2; [reflexivity|].
    intros Hel. apply aligned_texts_elem in Hel as [Hne _].
    unfold has_text, stripped_text in *.
    destruct (strip (seg_text s)); [now apply Hne|discriminate].
Qed.

(** The speed of every model and the factor of every device are
    positive. *)
Lemma model_speed_pos (model_name : text) : (0 < model_speed model_name)%Q.
Proof.
  unfold model_speed.
  repeat (match goal with |- context [bool_decide ?P] => destruct (bool_decide P) end);
    reflexivity.
Qed.

(** X20. The estimate of the transcription time: at least the overhead
    of 20 seconds for a duration that is not negative, never smaller for
    a longer file, the same as for ["base"] on ["cpu"] when the model or
    the device is not in the tables; and for ["cuda"] it is the larger
    one: twice the time on ["cpu"] apart from the overhead, since the
    factor 0.5 divides. *)
Theorem estimate_transcription_time_cuda (audio_duration longer : Q)
    (model_name : text) :
  (0 <= audio_duration)%Q -> (audio_duration <= longer)%Q ->
  (20 <= estimate_transcription_time audio_duration model_name (str "cpu"))%Q
  /\ (estimate_transcription_time audio_duration model_name (str "cpu")
      <= estimate_transcription_time longer model_name (str "cpu"))%Q
  /\ (estimate_transcription_time audio_duration model_name (str "cuda")
      == 2 * estimate_transcription_time audio_duration model_name (str "cpu")
         - 20)%Q
  /\ (estimate_transcription_time audio_duration model_name (str "cpu")
      <= estimate_transcription_time audio_duration model_name (str "cuda"))%Q.
Proof.
  intros Hd Hl. pose proof (model_speed_pos model_name) as Hs.
  unfold estimate_transcription_time.
  change (device_factor (str "cpu")) with 1%Q.
  change (device_factor (str "cuda")) with (1 # 2)%Q.
  assert (H1 : forall x : Q, (x / 1 == x)%Q) by (intros x; field).
  assert (H2 : forall x : Q, (x / (1 # 2) == 2 * x)%Q) by (intros x; field).
  rewrite !H1, !H2.
  assert (Hm : (0 <= audio_duration * model_speed model_name)%Q)
    by (apply Qmult_le_0_compat; lra).
  assert (Hmono : (audio_duration * model_speed model_name
                   <= longer * model_speed model_name)%Q)
    by (apply Qmult_le_compat_r; lra).
  repeat split; lra.
Qed.

End TranscribeAudioRunFacts.


(** A chunk duration of zero on a file of ten seconds. *)
Lemma split_audio_file_never_ends_witness :
  TranscribeAudio.split_audio_file (fun _ _ _ => true) 1000 10 0 = None.
Proof.
  apply (split_audio_file_never_ends (fun _ _ _ => true) 1000 10 0);
    [reflexivity | discriminate | reflexivity].
Defined.


(** An alignment that returns one segment for ["hello"] and nothing for
    the blank segment: the blank segment is still in the result. *)
Lemma align_stage_keeps_texts_witness :
  let hello :=
    {| TranscribeAudio.seg_text := Py.str "hello";
       TranscribeAudio.seg_start := 0; TranscribeAudio.seg_end := 1;
       TranscribeAudio.seg_words := None |} in
  let blank :=
    {| TranscribeAudio.seg_text := Py.str " ";
       TranscribeAudio.seg_start := 1; TranscribeAudio.seg_end := 2;
       TranscribeAudio.seg_words := None |} in
  In blank
    (TranscribeAudio.get_segments_or_empty
       (TranscribeAudioRun.align_stage
          (fun _ => Py.Returned (tt, tt))
          (fun valid _ _ (_ : unit) _ =>
             Py.Returned {| TranscribeAudio.al_segments := Some valid |})
          {| TranscribeAudio.tr_segments := Some [hello; blank];
             TranscribeAudio.tr_language := Some (Py.str "en") |}
          (Py.str "en") [hello; blank] tt (Py.str "cpu"))).
Proof.
  intros hello blank.
  apply (proj2 (align_stage_keeps_texts
           (fun _ => Py.Returned (tt, tt))
           (fun valid _ _ (_ : unit) _ =>
              Py.Returned {| TranscribeAudio.al_segments := Some valid |})
           {| TranscribeAudio.tr_segments := Some [hello; blank];
              TranscribeAudio.tr_language := Some (Py.str "en") |}
           (Py.str "en") [hello; blank] tt (Py.str "cpu") eq_refl) blank).
  - right. left. reflexivity.
  - reflexivity.
Defined.

(** One minute of audio with the model ["small"]: 140 seconds on the
    CPU, 260 seconds on the GPU. *)
Lemma estimate_transcription_time_cuda_witness :
  (TranscribeAudioRun.estimate_transcription_time 60 (Py.str "small")
                                                  (Py.str "cpu")
   <= TranscribeAudioRun.estimate_transcription_time 60 (Py.str "small")
                                                     (Py.str "cuda"))%Q.
Proof.
  refine (proj2 (proj2 (proj2
            (estimate_transcription_time_cuda 60 60 (Py.str "small") _ _))));
    discriminate.
Defined.

(** ** The merger as a sort *)

Section MergerExtras.
Import Py TranscribeAudio.

(** X21. [merge_transcription_results] loses and invents nothing: the
    merged segments are the segments of all the results, each as often
    as it occurs in them, in an order in which the start times never
    decrease, and segments that start at the same time keep the order
    they have in the concatenation of the results. *)
Theorem merge_sorts_all_segments (results : list Transcription) :
  tr_segments (merge_transcription_results results)
  = Some (get_segments_or_empty (merge_transcription_results results))
  /\ get_segments_or_empty (merge_transcription_results results)
     ≡ₚ all_segments results
  /\ sorted_by_start
       (get_segments_or_empty (merge_transcription_results results))
  /\ keeps_ties (all_segments results)
       (get_segments_or_empty (merge_transcription_results results)).
Proof.
  rewrite merged_segments, merged_tr_segments.
  split; [reflexivity|]. split; [apply sort_by_start_perm|].
  split; [apply sort_by_start_sorted|apply sort_by_start_keeps_ties].
Qed.

End MergerExtras.

(** ** The rounding error of binary64 *)

Section Binary64Facts.
Import Binary64.
Local Open Scope Q_scope.

Lemma pow2_power (k : Z) : pow2 k == 2 ^ k.
Proof.
  unfold pow2. destruct (0 <=? k)%Z eqn:E.
  - apply Z.leb_le in E. now rewrite Zpower_Qpower by lia.
  - apply Z.leb_gt in E. rewrite Zpower_Qpower by lia.
    change (inject_Z 2) with 2.
    assert (H : 2 ^ k == / 2 ^ (- k)).
    { rewrite <- Qpower_opp. now rewrite Z.opp_involutive. }
    rewrite H. unfold Qdiv. now rewrite Qmult_1_l.
Qed.

Lemma pow2_pos (k : Z) : 0 < pow2 k.
Proof. rewrite pow2_power. apply Qpower_0_lt. reflexivity. Qed.

Lemma pow2_add (a b : Z) : pow2 (a + b) == pow2 a * pow2 b.
Proof. rewrite !pow2_power. apply Qpower_plus. discriminate. Qed.

(** The nearest integer is at most one half away. *)
Lemma nearest_even_close (q : Q) :
  q - (1 # 2) <= inject_Z (nearest_even q) <= q + (1 # 2).
Proof.
  unfold nearest_even. cbv zeta.
  pose proof (Qfloor_le q) as H1. pose proof (Qlt_floor q) as H2.
  rewrite inject_Z_plus in H2. change (inject_Z 1) with 1 in H2.
  destruct (q - inject_Z (Qfloor q) ?= 1 # 2) eqn:E.
  - apply Qeq_alt in E. destruct (Z.even (Qfloor q));
      [|rewrite inject_Z_plus; change (inject_Z 1) with 1]; lra.
  - apply Qlt_alt in E. lra.
  - apply Qgt_alt in E. rewrite inject_Z_plus. change (inject_Z 1) with 1. lra.
Qed.

Lemma Zpow_pos_Q (k : Z) : (0 <= k)%Z -> 0 < inject_Z (2 ^ k).
Proof.
  intros Hk. change 0 with (inject_Z 0). rewrite <- Zlt_Qlt.
  apply Z.pow_pos_nonneg; lia.
Qed.

(** The exponent of a positive number is not too large. *)
Lemma exponent_le (x : Q) : (0 < Qnum x)%Z -> pow2 (exponent x) <= x.
Proof.
  intros Hp. unfold exponent. cbv zeta.
  set (lp := Z.log2 (Qnum x)). set (ld := Z.log2 (Zpos (Qden x))).
  destruct (Qle_bool (pow2 (lp - ld)) x) eqn:E; [now apply Qle_bool_iff|].
  clear E.
  assert (Hlp : (0 <= lp)%Z) by apply Z.log2_nonneg.
  assert (Hld : (0 <= ld)%Z) by apply Z.log2_nonneg.
  destruct (Z.log2_spec (Qnum x) Hp) as [Hp1 _]. fold lp in Hp1.
  destruct (Z.log2_spec (Zpos (Qden x)) ltac:(lia)) as [_ Hd2]. fold ld in Hd2.
  replace (lp - ld - 1)%Z with (lp + - (ld + 1))%Z by lia.
  rewrite pow2_add.
  assert (E1 : pow2 lp == inject_Z (2 ^ lp)).
  { unfold pow2. destruct (0 <=? lp)%Z eqn:E; [reflexivity|].
    apply Z.leb_gt in E. lia. }
  assert (E2 : pow2 (- (ld + 1)) == 1 / inject_Z (2 ^ (ld + 1))).
  { unfold pow2. destruct (0 <=? - (ld + 1))%Z eqn:E.
    - apply Z.leb_le in E. lia.
    - now rewrite Z.opp_involutive. }
  rewrite E1, E2.
  pose proof (Zpow_pos_Q (ld + 1) ltac:(lia)) as Hpos.
  assert (Hx : x == inject_Z (Qnum x) / inject_Z (Zpos (Qden x))).
  { rewrite <- Qmake_Qdiv. now destruct x. }
  rewrite Hx.
  assert (Hd : 0 < inject_Z (Zpos (Qden x))) by reflexivity.
  assert (Hd' : inject_Z (Zpos (Qden x)) <= inject_Z (2 ^ (ld + 1))).
  { rewrite <- Zle_Qle. unfold Z.succ in Hd2. lia. }
  assert (Hp' : inject_Z (2 ^ lp) <= inject_Z (Qnum x)) by now rewrite <- Zle_Qle.
  assert (Hlp' : 0 < inject_Z (2 ^ lp)) by now apply Zpow_pos_Q.
  set (a := inject_Z (2 ^ lp)) in *. set (b := inject_Z (2 ^ (ld + 1))) in *.
  set (p := inject_Z (Qnum x)) in *. set (d := inject_Z (Zpos (Qden x))) in *.
  apply Qle_shift_div_l; [exact Hd|].
  assert (H : a * (1 / b) * d == a * (d / b)) by (field; lra).
  rewrite H.
  assert (Hdb : d / b <= 1) by (apply Qle_shift_div_r; lra).
  assert (Ha : a * (d / b) <= a * 1).
  { rewrite !(Qmult_comm a). apply Qmult_le_compat_r; lra. }
  lra.
Qed.

Lemma round_pos_close (x : Q) :
  (0 < Qnum x)%Z ->
  x * (1 - unit_roundoff) <= round_pos x <= x * (1 + unit_roundoff).
Proof.
  intros Hp. unfold round_pos. cbv zeta.
  pose proof (exponent_le x Hp) as He.
  set (e := exponent x) in *.
  pose proof (pow2_pos (e - 52)) as Hulp.
  assert (Hsmall : pow2 (e - 52) <= x * (2 * unit_roundoff)).
  { replace (e - 52)%Z with (e + -52)%Z by lia.
    rewrite pow2_add. change (pow2 (-52)) with (1 # 4503599627370496).
    assert (E : 2 * unit_roundoff == 1 # 4503599627370496) by reflexivity.
    rewrite E. apply Qmult_le_compat_r; [exact He|]. discriminate. }
  set (ulp := pow2 (e - 52)) in *.
  pose proof (nearest_even_close (x / ulp)) as [Hlo Hhi].
  set (m := inject_Z (nearest_even (x / ulp))) in *.
  assert (Hx : x / ulp * ulp == x) by (field; lra).
  assert (H1 : (x / ulp - (1 # 2)) * ulp <= m * ulp)
    by (apply Qmult_le_compat_r; lra).
  assert (H2 : m * ulp <= (x / ulp + (1 # 2)) * ulp)
    by (apply Qmult_le_compat_r; lra).
  assert (E1 : (x / ulp - (1 # 2)) * ulp == x - (1 # 2) * ulp)
    by (rewrite <- Hx at 2; ring).
  assert (E2 : (x / ulp + (1 # 2)) * ulp == x + (1 # 2) * ulp)
    by (rewrite <- Hx at 2; ring).
  rewrite E1 in H1. rewrite E2 in H2.
  split; lra.
Qed.

(** One rounding changes a positive number by at most [2 ^ -53] of
    it. *)
Lemma round64_close (x : Q) :
  0 < x ->
  x * (1 - unit_roundoff) <= round64 x <= x * (1 + unit_roundoff).
Proof.
  intros Hx. unfold round64. cbv zeta.
  pose proof (Qred_correct x) as Hred.
  assert (Hp : (0 < Qnum (Qred x))%Z).
  { assert (H : 0 < Qred x) by lra. unfold Qlt in H. cbn in H. lia. }
  pose proof (round_pos_close (Qred x) Hp) as [H1 H2].
  pose proof (Qred_correct (round_pos (Qred x))) as Hout.
  destruct (Qnum (Qred x)); try lia.
  set (r := round_pos (Qred x)) in *. set (y := Qred x) in *.
  assert (E1 : x * (1 - unit_roundoff) == y * (1 - unit_roundoff))
    by now rewrite Hred.
  assert (E2 : x * (1 + unit_roundoff) == y * (1 + unit_roundoff))
    by now rewrite Hred.
  rewrite E1, E2, Hout. split; assumption.
Qed.

End Binary64Facts.

(** ** The loop of [split_audio_file] under any rounding *)

Section RoundedLoopFacts.
Import Py TranscribeAudio.
Local Open Scope Q_scope.

Variable fl : Q -> Q.
Variable ffmpeg_ok : Z -> Q -> Q -> bool.
Hypothesis ffmpeg_works : forall i s l, ffmpeg_ok i s l = true.

Variables duration chunk_duration : Q.

(** A loop that ends after [n] turns appends the chunks of [n] turns. *)
Lemma loop_of_run (n : nat) :
  forall fuel chunk_index start_time chunks,
    (n <= fuel)%nat ->
    Rounded.ends_after fl n duration chunk_duration start_time ->
    Rounded.split_audio_loop fl ffmpeg_ok fuel duration chunk_duration
                             chunk_index start_time chunks
    = Some (chunks ++ Rounded.chunks_from fl n duration chunk_duration
                                          chunk_index start_time).
Proof.
  induction n as [|n IH]; intros fuel chunk_index start_time chunks Hfuel Hrun.
  - cbn [Rounded.ends_after] in Hrun.
    assert (Hcmp : (start_time ?= duration) <> Lt).
    { rewrite <- Qlt_alt. lra. }
    cbn [Rounded.chunks_from]. rewrite app_nil_r.
    destruct fuel; cbn [Rounded.split_audio_loop];
      destruct (start_time ?= duration); congruence.
  - destruct fuel as [|fuel]; [lia|].
    cbn [Rounded.ends_after] in Hrun. destruct Hrun as (Hlt & _ & Hrun).
    assert (Hcmp : (start_time ?= duration) = Lt) by now apply Qlt_alt.
    cbn [Rounded.split_audio_loop Rounded.chunks_from].
    rewrite Hcmp, ffmpeg_works.
    rewrite IH by (lia || assumption). now rewrite <- app_assoc.
Qed.

(** The chunks of such a loop: numbered in order, each with a positive
    length inside the file. *)
Lemma spans_of_run (n : nat) :
  forall chunk_index start_time i c,
    Rounded.ends_after fl n duration chunk_duration start_time ->
    Rounded.chunks_from fl n duration chunk_duration chunk_index start_time
      !! i = Some c ->
    fst (fst c) = ChunkFile (chunk_index + Z.of_nat i)
    /\ start_time <= span_start c
    /\ span_start c < span_end c
    /\ span_end c <= duration.
Proof.
  induction n as [|n IH]; intros chunk_index start_time i c Hrun;
    [discriminate|].
  cbn [Rounded.ends_after] in Hrun. destruct Hrun as (Hlt & Hmove & Hrun).
  cbn [Rounded.chunks_from]. destruct i as [|i]; cbn [lookup list_lookup].
  - intros [= <-]. unfold span_start, span_end. cbn [fst snd].
    rewrite Z.add_0_r. split; [reflexivity|]. split; [lra|].
    split; [exact Hmove|apply Q.le_min_r].
  - intros Hc. destruct (IH _ _ i c Hrun Hc) as (Hf & Hs & Hpos & He).
    split; [rewrite Hf; f_equal; lia|]. repeat split; try assumption. lra.
Qed.

(** The last chunk ends at the end of the file. *)
Lemma last_of_run (n : nat) :
  forall chunk_index start_time,
    Rounded.ends_after fl (S n) duration chunk_duration start_time ->
    exists c,
      last (Rounded.chunks_from fl (S n) duration chunk_duration chunk_index
                                start_time) = Some c
      /\ span_end c == duration.
Proof.
  induction n as [|n IH]; intros chunk_index start_time Hrun.
  - cbn [Rounded.ends_after] in Hrun. destruct Hrun as (_ & _ & Hend).
    eexists. split; [reflexivity|]. unfold span_end. cbn [snd].
    pose proof (Q.le_min_r (fl (start_time + chunk_duration)) duration). lra.
  - cbn [Rounded.ends_after] in Hrun. destruct Hrun as (_ & _ & Hrun).
    destruct (IH (chunk_index + 1)%Z _ Hrun) as (c & Hc & He).
    exists c. split; [|exact He].
    change (Rounded.chunks_from fl (S (S n)) duration chunk_duration
                                chunk_index start_time)
      with ((ChunkFile chunk_index, start_time,
             Qmin (fl (start_time + chunk_duration)) duration)
            :: Rounded.chunks_from fl (S n) duration chunk_duration
                 (chunk_index + 1)
                 (Qmin (fl (start_time + chunk_duration)) duration)).
    rewrite last_cons, Hc. reflexivity.
Qed.

Variable step : Q.
Hypothesis step_pos : 0 < step.
Hypothesis progress :
  forall s, 0 <= s -> s < duration -> s + step <= fl (s + chunk_duration).

(** When every turn moves forward by [step] at least, the loop ends
    within [fuel] turns once [fuel] steps cover the rest of the file. *)
Lemma run_exists (fuel : nat) :
  forall start_time,
    0 <= start_time ->
    duration - start_time <= inject_Z (Z.of_nat fuel) * step ->
    exists n, (n <= fuel)%nat
              /\ Rounded.ends_after fl n duration chunk_duration start_time.
Proof.
  induction fuel as [|fuel IH]; intros start_time Hstart Hrest.
  - exists 0%nat. split; [lia|]. cbn [Rounded.ends_after].
    change (inject_Z (Z.of_nat 0)) with 0 in Hrest. lra.
  - destruct (Qlt_le_dec start_time duration) as [Hlt|Hge];
      [|exists 0%nat; split; [lia|exact Hge]].
    pose proof (progress start_time Hstart Hlt) as Hstep.
    set (end_time := Qmin (fl (start_time + chunk_duration)) duration).
    assert (Hmove : start_time < end_time).
    { unfold end_time.
      destruct (Q.min_spec (fl (start_time + chunk_duration)) duration)
        as [[_ E]|[_ E]]; rewrite E; lra. }
    assert (Hrest' : duration - end_time <= inject_Z (Z.of_nat fuel) * step).
    { rewrite Nat2Z.inj_succ in Hrest. unfold Z.succ in Hrest.
      rewrite inject_Z_plus in Hrest. change (inject_Z 1) with 1 in Hrest.
      assert (Hfuel : 0 <= inject_Z (Z.of_nat fuel) * step).
      { apply Qmult_le_0_compat; [|lra].
        change 0 with (inject_Z 0). rewrite <- Zle_Qle. lia. }
      unfold end_time.
      destruct (Q.min_spec (fl (start_time + chunk_duration)) duration)
        as [[_ E]|[_ E]]; rewrite E; lra. }
    destruct (IH end_time ltac:(lra) Hrest') as (n & Hn & Hrun).
    exists (S n). split; [lia|]. cbn [Rounded.ends_after].
    split; [exact Hlt|]. split; [exact Hmove|exact Hrun].
Qed.

End RoundedLoopFacts.

Section Binary64Chunker.
Import Py TranscribeAudio.
Local Open Scope Q_scope.

Variable ffmpeg_ok : Z -> Q -> Q -> bool.
Hypothesis ffmpeg_works : forall i s l, ffmpeg_ok i s l = true.

(** X22. [split_audio_file] in binary64 arithmetic, for every duration
    [D] and chunk duration [C] with [0 < C < D] and [D + C <= 2 ^ 52 C],
    and an extraction tool that works: the loop ends within
    [ceil(2 D / C)] turns, every turn moving forward by half a chunk
    duration at least whatever the rounding of the running sum; the
    chunks are numbered in order, the first starts at [0], each starts at
    the very number at which the previous one ends, each has a positive
    length inside the file, and the last ends at [D]. *)
Theorem split_audio_file_binary64 (fuel : nat) (duration chunk_duration : Q) :
  0 < chunk_duration ->
  chunk_duration < duration ->
  duration + chunk_duration <= inject_Z (2 ^ 52) * chunk_duration ->
  (Z.to_nat (Qceiling (2 * duration / chunk_duration)) <= fuel)%nat ->
  exists chunks,
    Rounded.split_audio_file Binary64.round64 ffmpeg_ok fuel duration
                             chunk_duration = Some chunks
    /\ (1 <= length chunks
        <= Z.to_nat (Qceiling (2 * duration / chunk_duration)))%nat
    /\ (forall c, head chunks = Some c -> span_start c = 0)
    /\ (forall i c,
         chunks !! i = Some c ->
         fst (fst c) = ChunkFile (Z.of_nat i)
         /\ 0 <= span_start c
         /\ span_start c < span_end c
         /\ span_end c <= duration)
    /\ (forall i c c',
         chunks !! i = Some c -> chunks !! S i = Some c' ->
         span_end c = span_start c')
    /\ (exists c, last chunks = Some c /\ span_end c == duration).
Proof.
  intros Hpos Hlong Hrange Hfuel.
  set (turns := Z.to_nat (Qceiling (2 * duration / chunk_duration))) in *.
  assert (Hprogress : forall s, 0 <= s -> s < duration ->
    s + chunk_duration * (1 # 2)
    <= Binary64.round64 (s + chunk_duration)).
  { intros s Hs Hlt.
    destruct (round64_close (s + chunk_duration) ltac:(lra)) as [Hlo _].
    assert (Hu : (s + chunk_duration) * Binary64.unit_roundoff
                 <= chunk_duration * (1 # 2)).
    { assert (H1 : (s + chunk_duration) * Binary64.unit_roundoff
                   <= (duration + chunk_duration) * Binary64.unit_roundoff)
        by (apply Qmult_le_compat_r; [lra|discriminate]).
      assert (H2 : (duration + chunk_duration) * Binary64.unit_roundoff
                   <= inject_Z (2 ^ 52) * chunk_duration
                      * Binary64.unit_roundoff)
        by (apply Qmult_le_compat_r; [exact Hrange|discriminate]).
      assert (H3 : inject_Z (2 ^ 52) * chunk_duration * Binary64.unit_roundoff
                   == chunk_duration * (1 # 2)).
      { assert (E : inject_Z (2 ^ 52) * Binary64.unit_roundoff == 1 # 2)
          by reflexivity.
        rewrite <- E. ring. }
      lra. }
    lra. }
  assert (Hquot : duration
                  <= inject_Z (Z.of_nat turns) * (chunk_duration * (1 # 2))).
  { pose proof (Qle_ceiling (2 * duration / chunk_duration)) as Hc.
    assert (Hq : 0 <= 2 * duration / chunk_duration).
    { apply Qle_shift_div_l; lra. }
    assert (Hz : (0 <= Qceiling (2 * duration / chunk_duration))%Z).
    { rewrite Zle_Qle. change (inject_Z 0) with 0. lra. }
    unfold turns. rewrite Z2Nat.id by exact Hz.
    apply (Qmult_le_compat_r _ _ (chunk_duration * (1 # 2))) in Hc; [|lra].
    assert (E : 2 * duration / chunk_duration * (chunk_duration * (1 # 2))
                == duration) by (field; lra).
    lra. }
  destruct (run_exists Binary64.round64 duration chunk_duration
              (chunk_duration * (1 # 2)) ltac:(lra) Hprogress turns 0
              ltac:(lra) ltac:(lra))
    as (n & Hn & Hrun).
  destruct n as [|n]; [cbn [Rounded.ends_after] in Hrun; lra|].
  exists (Rounded.chunks_from Binary64.round64 (S n) duration chunk_duration
                              0 0).
  split.
  { unfold Rounded.split_audio_file.
    assert (E0 : Qeq_bool duration 0 = false).
    { destruct (Qeq_bool duration 0) eqn:E; [|reflexivity].
      apply Qeq_bool_iff in E. lra. }
    rewrite E0, (Qle_bool_false duration chunk_duration Hlong).
    now rewrite (loop_of_run Binary64.round64 ffmpeg_ok ffmpeg_works duration
                   chunk_duration (S n) fuel 0%Z 0 [] ltac:(lia) Hrun). }
  split; [rewrite rounded_chunks_length; lia|].
  split; [now intros c [= <-]|].
  split.
  { intros i c Hc.
    destruct (spans_of_run Binary64.round64 duration chunk_duration (S n)
                0%Z 0 i c Hrun Hc) as (Hf & Hs & Hp & He).
    rewrite Z.add_0_l in Hf. repeat split; assumption. }
  split; [intros i c c'; apply rounded_chunks_contiguous|].
  apply (last_of_run Binary64.round64 duration chunk_duration n 0%Z 0 Hrun).
Qed.

End Binary64Chunker.

(** The file of 111.1 s cut every 10.1 s: the twelve float chunks run
    from 0 to the end of the file without a gap. *)
Lemma split_audio_file_binary64_witness :
  exists chunks,
    Rounded.split_audio_file Binary64.round64 (fun _ _ _ => true) 30
      (Binary64.round64 (1111 # 10)) (Binary64.round64 (101 # 10))
    = Some chunks
    /\ (forall i c c',
         chunks !! i = Some c -> chunks !! S i = Some c' ->
         TranscribeAudio.span_end c = TranscribeAudio.span_start c')
    /\ (exists c,
         last chunks = Some c
         /\ (TranscribeAudio.span_end c == Binary64.round64 (1111 # 10))%Q).
Proof.
  destruct (split_audio_file_binary64 (fun _ _ _ => true)
              (fun _ _ _ => eq_refl) 30
              (Binary64.round64 (1111 # 10)) (Binary64.round64 (101 # 10))
              eq_refl eq_refl ltac:(vm_compute; discriminate)
              ltac:(vm_compute; lia))
    as (chunks & Hrun & _ & _ & _ & Hcontiguous & Hlast).
  exists chunks. split; [exact Hrun|]. split; [exact Hcontiguous|exact Hlast].
Defined.
